(** * camera-layer-library: layer registry, frame clock, composition and
      interaction routing

    A shallow embedding of the TypeScript sources
      - src/types/index.ts            (data model)
      - src/utils/layerContext.ts     (bounding-box geometry)
      - src/hooks/useLayer.ts         (layer registry)
      - src/hooks/useFrameProcessor.ts (frame clock)
      - src/components/Cam            (composition pipeline, pointer handlers)
    followed by the properties established about them.

    Conventions of the embedding.
      - A JavaScript [number] is modelled twice.  Where a statement only
        compares given numbers, or relates the code's functions to one
        another, it is an exact rational ([Q]), and [/] and [%] produce a
        [jsnum], which has the infinities and NaN.  Where a statement is
        about what the arithmetic itself returns (the hit test against a
        computed edge, areas and their quotient, the frame clock), it is
        an IEEE 754 binary64 number with correctly rounded operations
        (modules [Binary64] and [IEEE]).
      - A callback supplied by the host (a layer's [onFrame], [render], ...)
        is known by how it completes, [Returns] or [Throws]; every call is
        recorded as an [event] of the trace.
      - Code that performs calls in sequence and can be interrupted by an
        exception is written in the trace-and-exception monad [Eff]. *)

From Stdlib Require Import QArith Qround Qminmax Lqa Lia ZArith.
From Stdlib Require Import List String Bool Permutation Sorted.
From Stdlib Require SpecFloat.
Import ListNotations.

Local Open Scope Q_scope.

(* ===================================================================== *)
(** ** JavaScript numbers *)
(* ===================================================================== *)

Module JsNum.

Inductive jsnum : Type :=
| Fin (q : Q)
| PosInfinity
| NegInfinity
| NaN.

(** [a < b] on finite numbers. *)
Definition Qltb (a b : Q) : bool := negb (Qle_bool b a).

(** Rounding towards zero, as [%] and [Math.trunc] do. *)
Definition Qtrunc (q : Q) : Z :=
  if Qle_bool 0 q then Qfloor q else Qceiling q.

(** [a / b] for finite operands. *)
Definition jsdiv (a b : Q) : jsnum :=
  if Qeq_bool b 0 then
    if Qeq_bool a 0 then NaN
    else if Qltb 0 a then PosInfinity else NegInfinity
  else Fin (a / b).

(** [a - b]. *)
Definition jssub (a b : jsnum) : jsnum :=
  match a, b with
  | NaN, _ | _, NaN => NaN
  | Fin x, Fin y => Fin (x - y)
  | Fin _, PosInfinity => NegInfinity
  | Fin _, NegInfinity => PosInfinity
  | PosInfinity, PosInfinity => NaN
  | PosInfinity, _ => PosInfinity
  | NegInfinity, NegInfinity => NaN
  | NegInfinity, _ => NegInfinity
  end.

(** [a % b]: the remainder has the sign of the dividend. *)
Definition jsrem (a b : jsnum) : jsnum :=
  match a, b with
  | Fin x, Fin y =>
      if Qeq_bool y 0 then NaN
      else Fin (x - y * inject_Z (Qtrunc (x / y)))
  | Fin x, PosInfinity | Fin x, NegInfinity => Fin x
  | _, _ => NaN
  end.

(** [a < b]; any comparison with NaN is false. *)
Definition jslt (a b : jsnum) : bool :=
  match a, b with
  | NaN, _ | _, NaN => false
  | Fin x, Fin y => Qltb x y
  | Fin _, PosInfinity => true
  | Fin _, NegInfinity => false
  | PosInfinity, _ => false
  | NegInfinity, NegInfinity => false
  | NegInfinity, _ => true
  end.

End JsNum.
Import JsNum.

(* ===================================================================== *)
(** ** src/types/index.ts *)
(* ===================================================================== *)

(** How a call of a host-supplied function completes. *)
Inductive completion : Type :=
| Returns
| Throws.

Definition callback : Type := completion.

Record BoundingBox : Type := mkBoundingBox {
  x : Q;        (* top-left X coordinate *)
  y : Q;        (* top-left Y coordinate *)
  width : Q;
  height : Q
}.

Module Det.

Inductive DetectionType : Type := face | object | custom.

(** [landmarks] and [metadata] are optional and read by none of the
    modelled functions; they are left out. *)
Record Detection : Type := mkDetection {
  id : string;
  type : DetectionType;
  label : string;
  confidence : Q;
  bbox : BoundingBox;
  timestamp : Q
}.

End Det.
Definition Detection : Type := Det.Detection.

Inductive LayerType : Type := detection | annotation | interaction | custom.

(** An optional property is an [option]; [component] (a React component
    type) is read by none of the modelled functions and is left out. *)
Record Layer : Type := mkLayer {
  id : string;
  type : LayerType;
  visible : option bool;
  zIndex : option Q;
  onMount : option callback;
  onUnmount : option callback;
  onFrame : option callback;
  onDetection : option callback;
  render : option callback;
  interactive : option bool;
  onClick : option callback;
  onHover : option callback
}.

(** [Partial<Layer>]: every key may be absent ([None]); a present key of
    an optional property carries that property's value, which may itself
    be [undefined]. *)
Record PartialLayer : Type := mkPartialLayer {
  p_id : option string;
  p_type : option LayerType;
  p_visible : option (option bool);
  p_zIndex : option (option Q);
  p_onMount : option (option callback);
  p_onUnmount : option (option callback);
  p_onFrame : option (option callback);
  p_onDetection : option (option callback);
  p_render : option (option callback);
  p_interactive : option (option bool);
  p_onClick : option (option callback);
  p_onHover : option (option callback)
}.

(** What the host can observe of a run: calls of callbacks, of the canvas
    context, of the scheduler and of the console. *)
Inductive consoleMsg : Type :=
| WarnLayerExists (layerId : string)   (* console.warn, useLayer.ts *)
| ErrorProcessingFrame.                (* console.error, useFrameProcessor.ts *)

Inductive event : Type :=
| EvDrawImage
| EvGetImageData
| EvCtxSave
| EvCtxRestore
| EvLayerOnMount (layerId : string)
| EvLayerOnUnmount (layerId : string)
| EvLayerOnFrame (layerId : string)
| EvLayerRender (layerId : string)
| EvLayerOnClick (layerId : string) (px py : Q)
| EvLayerOnHover (layerId : string) (px py : Q)
| EvOnFrame
| EvOnClick (px py : Q)
| EvOnHover (px py : Q)
| EvRequestAnimationFrame
| EvConsole (m : consoleMsg).

(* ===================================================================== *)
(** ** Sequenced calls that may throw *)
(* ===================================================================== *)

Module Eff.

(** The trace produced so far, and the value when the computation
    completed normally ([None]: an exception is propagating). *)
Definition Eff (A : Type) : Type := (list event * option A)%type.

Definition ret {A} (a : A) : Eff A := ([], Some a).

Definition bind {A B} (m : Eff A) (f : A -> Eff B) : Eff B :=
  match m with
  | (t, None) => (t, None)
  | (t, Some a) => let (t', r) := f a in (t ++ t', r)
  end.

Definition emit (e : event) : Eff unit := ([e], Some tt).

(** Calling a host callback: the call is observed, then it returns or
    throws. *)
Definition call (e : event) (cb : callback) : Eff unit :=
  ([e], match cb with Returns => Some tt | Throws => None end).

(** [if (slot) { body }] on an optional handler slot. *)
Definition whenSome {A} (o : option A) (body : A -> Eff unit) : Eff unit :=
  match o with
  | Some a => body a
  | None => ret tt
  end.

(** [for (const a of l) { body }]. *)
Fixpoint forOf {A} (l : list A) (body : A -> Eff unit) : Eff unit :=
  match l with
  | [] => ret tt
  | a :: l' => bind (body a) (fun _ => forOf l' body)
  end.

(** [try { body } catch { handler }] *)
Definition tryCatch {A} (body : Eff A) (handler : Eff A) : Eff A :=
  match body with
  | (t, None) => let (t', r) := handler in (t ++ t', r)
  | (t, Some a) => (t, Some a)
  end.

Definition trace {A} (m : Eff A) : list event := fst m.

Definition completed {A} (m : Eff A) : bool :=
  match snd m with Some _ => true | None => false end.

End Eff.
Import Eff.

Notation "m1 ;; m2" := (bind m1 (fun _ => m2))
  (at level 61, right associativity).

(* ===================================================================== *)
(** ** src/utils/layerContext.ts *)
(* ===================================================================== *)

Module LayerContext.

Definition isPointInBoundingBox (px py : Q) (bbox : BoundingBox) : bool :=
  Qle_bool (x bbox) px &&
  Qle_bool px (x bbox + width bbox) &&
  Qle_bool (y bbox) py &&
  Qle_bool py (y bbox + height bbox).

(** The loop [for (let i = detections.length - 1; i >= 0; i--)], with
    [n = i + 1] indices left to visit.  The index is always in range, so
    [detections[i]] is never [undefined]. *)
Fixpoint findDetectionFrom (px py : Q) (detections : list Detection)
    (n : nat) : option Detection :=
  match n with
  | O => None
  | S i =>
      match nth_error detections i with
      | Some d =>
          if isPointInBoundingBox px py (Det.bbox d) then Some d
          else findDetectionFrom px py detections i
      | None => None
      end
  end.

Definition findDetectionAtPoint (px py : Q) (detections : list Detection)
    : option Detection :=
  findDetectionFrom px py detections (List.length detections).

Definition getDetectionArea (bbox : BoundingBox) : Q :=
  width bbox * height bbox.

Definition doDetectionsOverlap (bbox1 bbox2 : BoundingBox) : bool :=
  negb (Qltb (x bbox1 + width bbox1) (x bbox2) ||
        Qltb (x bbox2 + width bbox2) (x bbox1) ||
        Qltb (y bbox1 + height bbox1) (y bbox2) ||
        Qltb (y bbox2 + height bbox2) (y bbox1)).

Definition getOverlapArea (bbox1 bbox2 : BoundingBox) : Q :=
  if negb (doDetectionsOverlap bbox1 bbox2) then 0
  else
    let xOverlap := Qmin (x bbox1 + width bbox1) (x bbox2 + width bbox2)
                    - Qmax (x bbox1) (x bbox2) in
    let yOverlap := Qmin (y bbox1 + height bbox1) (y bbox2 + height bbox2)
                    - Qmax (y bbox1) (y bbox2) in
    xOverlap * yOverlap.

Definition getIoU (bbox1 bbox2 : BoundingBox) : jsnum :=
  let overlapArea := getOverlapArea bbox1 bbox2 in
  if Qeq_bool overlapArea 0 then Fin 0
  else
    let area1 := getDetectionArea bbox1 in
    let area2 := getDetectionArea bbox2 in
    let unionArea := area1 + area2 - overlapArea in
    jsdiv overlapArea unionArea.

End LayerContext.


(* ===================================================================== *)
(** ** src/hooks/useLayer.ts *)
(* ===================================================================== *)

Module UseLayer.

(** The three mutators hand [setLayers] a function of the previous state.
    Each is modelled by that function, returning the next state together
    with what it wrote to the console. *)

Definition addLayer (layer : Layer) (prevLayers : list Layer)
    : list Layer * list consoleMsg :=
  if existsb (fun l => String.eqb (id l) (id layer)) prevLayers
  then (prevLayers, [WarnLayerExists (id layer)])
  else (prevLayers ++ [layer], []).

Definition removeLayer (layerId : string) (prevLayers : list Layer)
    : list Layer * list consoleMsg :=
  (filter (fun l => negb (String.eqb (id l) layerId)) prevLayers, []).

(** One property of [{ ...layer, ...updates }]. *)
Definition spreadKey {A} (old : A) (upd : option A) : A :=
  match upd with
  | Some v => v
  | None => old
  end.

(** [{ ...layer, ...updates, id: layer.id }]. *)
Definition mergeLayer (layer : Layer) (updates : PartialLayer) : Layer :=
  {| id := id layer;
     type := spreadKey (type layer) (p_type updates);
     visible := spreadKey (visible layer) (p_visible updates);
     zIndex := spreadKey (zIndex layer) (p_zIndex updates);
     onMount := spreadKey (onMount layer) (p_onMount updates);
     onUnmount := spreadKey (onUnmount layer) (p_onUnmount updates);
     onFrame := spreadKey (onFrame layer) (p_onFrame updates);
     onDetection := spreadKey (onDetection layer) (p_onDetection updates);
     render := spreadKey (render layer) (p_render updates);
     interactive := spreadKey (interactive layer) (p_interactive updates);
     onClick := spreadKey (onClick layer) (p_onClick updates);
     onHover := spreadKey (onHover layer) (p_onHover updates) |}.

Definition updateLayer (layerId : string) (updates : PartialLayer)
    (prevLayers : list Layer) : list Layer * list consoleMsg :=
  (map (fun layer =>
          if String.eqb (id layer) layerId
          then mergeLayer layer updates
          else layer) prevLayers,
   []).

Definition getLayerById (layerId : string) (layers : list Layer)
    : option Layer :=
  find (fun l => String.eqb (id l) layerId) layers.

(** [layer.zIndex || 0]. *)
Definition orderKey (l : Layer) : Q :=
  match zIndex l with
  | Some z => z
  | None => 0
  end.

(** The comparator [(a, b) => (a.zIndex || 0) - (b.zIndex || 0)]. *)
Definition compareFn (a b : Layer) : Q := orderKey a - orderKey b.

(** [Array.prototype.sort] belongs to the host, not to the repository.
    ECMAScript requires it to be stable; it is modelled by the stable
    insertion sort: an element goes after the elements that compare
    smaller and before those that compare equal or greater and came
    later in the array. *)
Fixpoint insertSorted {A} (cmp : A -> A -> Q) (a : A) (l : list A) : list A :=
  match l with
  | [] => [a]
  | b :: l' =>
      if Qltb 0 (cmp a b) then b :: insertSorted cmp a l'
      else a :: b :: l'
  end.

Definition arraySort {A} (cmp : A -> A -> Q) (l : list A) : list A :=
  fold_right (insertSorted cmp) [] l.

(** [[...layers].sort(compareFn)]: the copy is sorted, [layers] is not
    touched. *)
Definition sortedLayers (layers : list Layer) : list Layer :=
  arraySort compareFn layers.

(** The calls a client of the hook can make, and a run of them. *)
Inductive registryOp : Type :=
| OpAdd (layer : Layer)
| OpRemove (layerId : string)
| OpUpdate (layerId : string) (updates : PartialLayer).

Definition applyOp (op : registryOp) (layers : list Layer)
    : list Layer * list consoleMsg :=
  match op with
  | OpAdd layer => addLayer layer layers
  | OpRemove layerId => removeLayer layerId layers
  | OpUpdate layerId updates => updateLayer layerId updates layers
  end.

Fixpoint applyOps (ops : list registryOp) (layers : list Layer) : list Layer :=
  match ops with
  | [] => layers
  | op :: ops' => applyOps ops' (fst (applyOp op layers))
  end.

End UseLayer.

(* ===================================================================== *)
(** ** src/hooks/useFrameProcessor.ts *)
(* ===================================================================== *)

Module UseFrameProcessor.

(** [onFrame] is not a field here: how the callback completes can differ
    from one call to the next, so each invocation of [processFrame] is
    told how [onFrame] completes this time. *)
Record FrameProcessorOptions : Type := mkOptions {
  targetFPS : Q;
  enabled : bool
}.

(** The refs of the hook.  [animationFrameRef] only stores the handle of
    the pending request; the request itself is the event
    [EvRequestAnimationFrame]. *)
Record Refs : Type := mkRefs {
  lastFrameTime : jsnum;
  frameCount : Z;
  isProcessing : bool
}.

Definition targetFrameTime (opts : FrameProcessorOptions) : jsnum :=
  jsdiv 1000 (targetFPS opts).

(** The body of the hook up to the effects: the refs are created, the
    frame time is computed, nothing is checked. *)
Definition useFrameProcessor (opts : FrameProcessorOptions) : Eff Refs :=
  ret {| lastFrameTime := Fin 0; frameCount := 0%Z; isProcessing := false |}.

(** The start effect, run at time [now]. *)
Definition startEffect (opts : FrameProcessorOptions) (now : Q) (refs : Refs)
    : Eff Refs :=
  if enabled opts then
    emit EvRequestAnimationFrame ;;
    ret {| lastFrameTime := Fin now;
           frameCount := 0%Z;
           isProcessing := isProcessing refs |}
  else ret refs.

(** One invocation by the scheduler at time [now]. *)
Definition processFrame (opts : FrameProcessorOptions) (onFrame : callback)
    (now : Q) (refs : Refs) : Eff Refs :=
  if negb (enabled opts) then ret refs
  else
    let elapsed := jssub (Fin now) (lastFrameTime refs) in
    if jslt elapsed (targetFrameTime opts) then
      (* skip frame if not enough time has passed *)
      emit EvRequestAnimationFrame ;; ret refs
    else if isProcessing refs then
      (* prevent concurrent processing *)
      emit EvRequestAnimationFrame ;; ret refs
    else
      let lastFrameTime' :=
        jssub (Fin now) (jsrem elapsed (targetFrameTime opts)) in
      let frameCount' := (frameCount refs + 1)%Z in
      (* try { onFrame() } catch { console.error } finally { flag off } *)
      tryCatch (call EvOnFrame onFrame)
               (emit (EvConsole ErrorProcessingFrame)) ;;
      emit EvRequestAnimationFrame ;;
      ret {| lastFrameTime := lastFrameTime';
             frameCount := frameCount';
             isProcessing := false |}.

(** The states the refs can be in when the scheduler calls: the refs as
    created, then any number of runs of the start effect and of
    [processFrame], at any times, under any options (a re-render may
    change them) and with the callback completing either way. *)
Inductive reachable : Refs -> Prop :=
| reach_mount : forall opts refs,
    snd (useFrameProcessor opts) = Some refs ->
    reachable refs
| reach_start : forall opts now refs refs',
    reachable refs ->
    snd (startEffect opts now refs) = Some refs' ->
    reachable refs'
| reach_step : forall opts onFrame now refs refs',
    reachable refs ->
    snd (processFrame opts onFrame now refs) = Some refs' ->
    reachable refs'.

End UseFrameProcessor.

(* ===================================================================== *)
(** ** src/components/Cam *)
(* ===================================================================== *)

Module CamProps.

(** The props the modelled handlers read. *)
Record CamProps : Type := mkCamProps {
  layers : list Layer;
  onFrame : option callback;
  onClick : option callback;
  onHover : option callback;
  targetFPS : Q
}.

End CamProps.

Module Cam.

(** What [processFrame] finds when it looks at the DOM and at the state
    of the component. *)
Record RenderEnv : Type := mkRenderEnv {
  videoMounted : bool;      (* videoRef.current *)
  canvasMounted : bool;     (* canvasRef.current *)
  isReady : bool;
  ctxAvailable : bool;      (* canvas.getContext('2d') *)
  readyState : Z            (* video.readyState *)
}.

Record Refs : Type := mkRefs {
  lastFrameTime : jsnum;
  frameCounter : Z
}.

(** [layer.visible === false]. *)
Definition hidden (layer : Layer) : bool :=
  match visible layer with
  | Some false => true
  | _ => false
  end.

(** The body of [for (const layer of sortedLayers)]. *)
Definition processLayer (layer : Layer) : Eff unit :=
  if hidden layer then ret tt (* continue *)
  else
    whenSome (onFrame layer) (call (EvLayerOnFrame (id layer))) ;;
    whenSome (render layer) (fun renderFn =>
      emit EvCtxSave ;;
      call (EvLayerRender (id layer)) renderFn ;;
      emit EvCtxRestore).

(** What one invocation of [processFrame] does once the frame is
    accepted: capture, layer round, observer, next request. *)
Definition renderFrame (props : CamProps.CamProps)
    (managedLayers : list Layer) : Eff unit :=
  emit EvDrawImage ;;
  emit EvGetImageData ;;
  let sortedLayers := UseLayer.arraySort UseLayer.compareFn managedLayers in
  forOf sortedLayers processLayer ;;
  whenSome (CamProps.onFrame props) (call EvOnFrame) ;;
  emit EvRequestAnimationFrame.

(** One invocation of [processFrame] at time [now].  The refs are written
    before the first call that can throw, so the refs after the invocation
    do not depend on how the calls complete. *)
Definition processFrame (props : CamProps.CamProps) (env : RenderEnv)
    (managedLayers : list Layer) (now : Q) (refs : Refs)
    : Refs * Eff unit :=
  if negb (videoMounted env) || negb (canvasMounted env) || negb (isReady env)
  then (refs, ret tt)
  else if negb (ctxAvailable env) || negb (readyState env =? 4)%Z
  then (refs, ret tt)
  else
    let targetFrameTime := jsdiv 1000 (CamProps.targetFPS props) in
    let elapsed := jssub (Fin now) (lastFrameTime refs) in
    if jslt elapsed targetFrameTime then
      (refs, emit EvRequestAnimationFrame)
    else
      ({| lastFrameTime := jssub (Fin now) (jsrem elapsed targetFrameTime);
          frameCounter := (frameCounter refs + 1)%Z |},
       renderFrame props managedLayers).

(** The layer lifecycle effect and its cleanup; React runs the cleanup of
    the previous run, on the layers that run saw, before every new run. *)
Definition mountLayers (env : RenderEnv) (managedLayers : list Layer)
    : Eff unit :=
  if negb (isReady env) || negb (canvasMounted env) then ret tt
  else
    forOf managedLayers (fun layer =>
      whenSome (onMount layer) (call (EvLayerOnMount (id layer)))).

Definition unmountLayers (env : RenderEnv) (managedLayers : list Layer)
    : Eff unit :=
  if negb (isReady env) || negb (canvasMounted env) then ret tt
  else
    forOf managedLayers (fun layer =>
      whenSome (onUnmount layer) (call (EvLayerOnUnmount (id layer)))).

(** Pointer events. *)
Record ClientPoint : Type := mkClientPoint {
  clientX : Q;
  clientY : Q
}.

(** [canvas.getBoundingClientRect()]. *)
Record DOMRect : Type := mkDOMRect {
  left : Q;
  top : Q
}.

(** [layer.interactive && layer.onClick], and the same for a slot. *)
Definition interactiveWith (slot : Layer -> option callback) (layer : Layer)
    : option callback :=
  match interactive layer with
  | Some true => slot layer
  | _ => None
  end.

Definition handleCanvasClick (props : CamProps.CamProps)
    (canvas : option DOMRect) (managedLayers : list Layer)
    (event : ClientPoint) : Eff unit :=
  match canvas with
  | None => ret tt
  | Some rect =>
      let px := clientX event - left rect in
      let py := clientY event - top rect in
      forOf managedLayers (fun layer =>
        whenSome (interactiveWith onClick layer)
                 (call (EvLayerOnClick (id layer) px py))) ;;
      whenSome (CamProps.onClick props) (call (EvOnClick px py))
  end.

Definition handleCanvasHover (props : CamProps.CamProps)
    (canvas : option DOMRect) (managedLayers : list Layer)
    (event : ClientPoint) : Eff unit :=
  match canvas with
  | None => ret tt
  | Some rect =>
      let px := clientX event - left rect in
      let py := clientY event - top rect in
      forOf managedLayers (fun layer =>
        whenSome (interactiveWith onHover layer)
                 (call (EvLayerOnHover (id layer) px py))) ;;
      whenSome (CamProps.onHover props) (call (EvOnHover px py))
  end.

Definition handleCanvasTouch (props : CamProps.CamProps)
    (canvas : option DOMRect) (managedLayers : list Layer)
    (touches : list ClientPoint) : Eff unit :=
  match canvas, touches with
  | None, _ | _, [] => ret tt
  | Some rect, touch :: _ =>
      let px := clientX touch - left rect in
      let py := clientY touch - top rect in
      forOf managedLayers (fun layer =>
        whenSome (interactiveWith onClick layer)
                 (call (EvLayerOnClick (id layer) px py))) ;;
      whenSome (CamProps.onClick props) (call (EvOnClick px py))
  end.

End Cam.

(* ===================================================================== *)
(** ** Vocabulary of the properties *)
(* ===================================================================== *)

Module Calls.

(** A straight-line sequence of calls, each with the way it completes;
    a call of the canvas context or of the scheduler always returns. *)
Definition callList : Type := list (event * callback).

Fixpoint runCalls (cs : callList) : Eff unit :=
  match cs with
  | [] => ret tt
  | (e, cb) :: cs' => call e cb ;; runCalls cs'
  end.

(** The calls that are made: all of them up to and including the first
    one that throws. *)
Fixpoint untilThrow (cs : callList) : list event :=
  match cs with
  | [] => []
  | (e, Returns) :: cs' => e :: untilThrow cs'
  | (e, Throws) :: _ => [e]
  end.

Definition allReturn (cs : callList) : bool :=
  forallb (fun c => match snd c with Returns => true | Throws => false end) cs.

(** The call of an optional handler slot. *)
Definition slotCall (e : event) (slot : option callback) : callList :=
  match slot with
  | Some cb => [(e, cb)]
  | None => []
  end.

(** The callbacks of one layer in a tick: the per-frame callback, then
    the draw callback, each if present. *)
Definition layerInvocations (layer : Layer) : callList :=
  slotCall (EvLayerOnFrame (id layer)) (onFrame layer) ++
  slotCall (EvLayerRender (id layer)) (render layer).

Definition isLayerFrameCallback (e : event) : bool :=
  match e with
  | EvLayerOnFrame _ | EvLayerRender _ => true
  | _ => false
  end.

Definition isLayerPointerCallback (e : event) : bool :=
  match e with
  | EvLayerOnClick _ _ _ | EvLayerOnHover _ _ _ => true
  | _ => false
  end.

Definition isOnFrame (e : event) : bool :=
  match e with
  | EvOnFrame => true
  | _ => false
  end.

(** The layers a tick visits: the ordered view without the hidden ones. *)
Definition visibleInOrder (layers : list Layer) : list Layer :=
  filter (fun l => negb (Cam.hidden l)) (UseLayer.sortedLayers layers).

(** [a] occurs before [b] in [l]. *)
Definition before {A} (a b : A) (l : list A) : Prop :=
  exists l1 l2 l3, l = l1 ++ a :: l2 ++ b :: l3.

Definition ids (layers : list Layer) : list string := map id layers.

(** Ascending order key, and the layers of one key. *)
Definition keyLe (a b : Layer) : Prop :=
  UseLayer.orderKey a <= UseLayer.orderKey b.

Definition sameKey (k : Q) (l : Layer) : bool :=
  Qeq_bool (UseLayer.orderKey l) k.

(** The calls of one turn of the loop of [processFrame], and of one
    accepted frame. *)
Definition processLayerCalls (layer : Layer) : callList :=
  if Cam.hidden layer then []
  else
    slotCall (EvLayerOnFrame (id layer)) (onFrame layer) ++
    match render layer with
    | Some renderFn =>
        [(EvCtxSave, Returns);
         (EvLayerRender (id layer), renderFn);
         (EvCtxRestore, Returns)]
    | None => []
    end.

Definition renderFrameCalls (props : CamProps.CamProps)
    (managedLayers : list Layer) : callList :=
  [(EvDrawImage, Returns); (EvGetImageData, Returns)] ++
  flat_map processLayerCalls
    (UseLayer.arraySort UseLayer.compareFn managedLayers) ++
  slotCall EvOnFrame (CamProps.onFrame props) ++
  [(EvRequestAnimationFrame, Returns)].

(** The click handler a click reaches in one layer, and the unmount
    callback a cleanup reaches. *)
Definition clickCalls (px py : Q) (layer : Layer) : callList :=
  slotCall (EvLayerOnClick (id layer) px py) (Cam.interactiveWith onClick layer).

Definition unmountCalls (layer : Layer) : callList :=
  slotCall (EvLayerOnUnmount (id layer)) (onUnmount layer).

(** The guards of [processFrame]: the source is ready, and the frame is
    due. *)
Definition sourceReady (env : Cam.RenderEnv) : bool :=
  Cam.videoMounted env && Cam.canvasMounted env && Cam.isReady env &&
  Cam.ctxAvailable env && (Cam.readyState env =? 4)%Z.

Definition frameDue (props : CamProps.CamProps) (now : Q) (refs : Cam.Refs)
    : bool :=
  negb (jslt (jssub (Fin now) (Cam.lastFrameTime refs))
             (jsdiv 1000 (CamProps.targetFPS props))).

End Calls.

(** Sample data of the scenarios. *)
Module Samples.

Definition plainLayer (layerId : string) (z : Q) : Layer :=
  {| id := layerId; type := custom; visible := None; zIndex := Some z;
     onMount := None; onUnmount := None; onFrame := None;
     onDetection := None; render := None; interactive := None;
     onClick := None; onHover := None |}.

(** A layer with a per-frame and a draw callback. *)
Definition drawingLayer (layerId : string) (z : Q) (frameCb renderCb : callback)
    : Layer :=
  {| id := layerId; type := custom; visible := None; zIndex := Some z;
     onMount := None; onUnmount := None; onFrame := Some frameCb;
     onDetection := None; render := Some renderCb; interactive := None;
     onClick := None; onHover := None |}.

(** An interactive layer with a click handler. *)
Definition clickableLayer (layerId : string) (z : Q) : Layer :=
  {| id := layerId; type := interaction; visible := None; zIndex := Some z;
     onMount := None; onUnmount := None; onFrame := None;
     onDetection := None; render := None; interactive := Some true;
     onClick := Some Returns; onHover := None |}.

Definition faceBox : BoundingBox :=
  {| x := 10; y := 10; width := 50; height := 50 |}.

Definition faceDetection : Detection :=
  {| Det.id := "face-1"; Det.type := Det.face; Det.label := "Face";
     Det.confidence := 9 # 10; Det.bbox := faceBox; Det.timestamp := 100 |}.

Definition noProps (fps : Q) : CamProps.CamProps :=
  {| CamProps.layers := []; CamProps.onFrame := None;
     CamProps.onClick := None; CamProps.onHover := None;
     CamProps.targetFPS := fps |}.

Definition readyEnv : Cam.RenderEnv :=
  {| Cam.videoMounted := true; Cam.canvasMounted := true;
     Cam.isReady := true; Cam.ctxAvailable := true; Cam.readyState := 4 |}.

End Samples.

(** The claims that the code does not meet, as stated, so that they can
    be tested on a run. *)
Module Claims.

Import Calls.

(** A failing layer callback is contained: every layer of the sequence
    is still invoked, the tick completes and the next one is requested. *)
Definition layerFailureIsolated (layers : list Layer) (tick : Eff unit)
    : Prop :=
  filter isLayerFrameCallback (trace tick)
    = map fst (flat_map layerInvocations (visibleInOrder layers)) /\
  completed tick = true /\
  In EvRequestAnimationFrame (trace tick).

(** Two readings of the region a layer claims: the whole canvas, and the
    boxes of the current detection batch. *)
Definition claimsWholeCanvas (layer : Layer) (px py : Q) : bool := true.

Definition claimsDetections (detections : list Detection)
    (layer : Layer) (px py : Q) : bool :=
  match LayerContext.findDetectionAtPoint px py detections with
  | Some _ => true
  | None => false
  end.

Definition hasClickHandler (layer : Layer) : bool :=
  match Cam.interactiveWith onClick layer with
  | Some _ => true
  | None => false
  end.

(** The topmost interactive layer whose region holds the point: the last
    such layer of the ascending view. *)
Definition topmostClaiming (claims : Layer -> Q -> Q -> bool)
    (managedLayers : list Layer) (px py : Q) : option Layer :=
  find (fun l => hasClickHandler l && claims l px py) (rev managedLayers).

(** Only the handler of that layer is invoked. *)
Definition onlyTopmostInvoked (claims : Layer -> Q -> Q -> bool)
    (managedLayers : list Layer) (px py : Q) (t : list event) : Prop :=
  filter isLayerPointerCallback t =
  match topmostClaiming claims managedLayers px py with
  | Some l => [EvLayerOnClick (id l) px py]
  | None => []
  end.

(** Unregistering an absent id changes nothing and is reported. *)
Definition reportedNoOp (layers : list Layer)
    (result : list Layer * list consoleMsg) : Prop :=
  fst result = layers /\ snd result <> [].


End Claims.

(* ===================================================================== *)
(** ** src/utils/layerContext.ts, the remaining helpers *)
(* ===================================================================== *)

Module JsArith.

(** The same number: rationals are compared by value, not by the
    fraction that represents them. *)
Definition jsEquiv (a b : jsnum) : Prop :=
  match a, b with
  | Fin x, Fin y => x == y
  | PosInfinity, PosInfinity | NegInfinity, NegInfinity | NaN, NaN => True
  | _, _ => False
  end.

End JsArith.

Module LayerContextUtils.

Import JsArith.


Definition detectionTypeEqb (a b : Det.DetectionType) : bool :=
  match a, b with
  | Det.face, Det.face | Det.object, Det.object | Det.custom, Det.custom => true
  | _, _ => false
  end.

Definition filterDetectionsByType (detections : list Detection)
    (type : Det.DetectionType) : list Detection :=
  filter (fun d => detectionTypeEqb (Det.type d) type) detections.

Definition filterDetectionsByConfidence (detections : list Detection)
    (minConfidence : Q) : list Detection :=
  filter (fun d => Qle_bool minConfidence (Det.confidence d)) detections.

(** [[...detections].sort(...)], with the host's stable sort as in
    [UseLayer.arraySort]. *)
Definition sortDetectionsByConfidence (detections : list Detection)
    (descending : bool) : list Detection :=
  UseLayer.arraySort
    (fun a b => if descending
                then Det.confidence b - Det.confidence a
                else Det.confidence a - Det.confidence b)
    detections.

(** The object [groups] of [groupDetectionsByLabel]: its own properties,
    each an array of detections.  Only lookups are modelled, not the
    order in which the host enumerates the keys. *)
Definition Groups : Type := list (string * list Detection).

Fixpoint ownProperty (key : string) (groups : Groups)
    : option (list Detection) :=
  match groups with
  | [] => None
  | (k, v) :: rest => if String.eqb k key then Some v else ownProperty key rest
  end.

(** [groups[key].push(detection)] on an own property. *)
Fixpoint pushTo (key : string) (d : Detection) (groups : Groups) : Groups :=
  match groups with
  | [] => []
  | (k, v) :: rest =>
      if String.eqb k key then (k, v ++ [d]) :: rest
      else (k, v) :: pushTo key d rest
  end.

(** One step of the [reduce].  [groups] starts as [{}], so a label that
    names a member of the host's [Object.prototype] ([inherited]) reads as
    that member: it is truthy, so no array is created, and it has no
    [push], so the call throws ([None]). *)
Definition groupStep (inherited : string -> bool)
    (groups : Groups) (d : Detection) : option Groups :=
  let label := Det.label d in
  match ownProperty label groups with
  | Some _ => Some (pushTo label d groups)
  | None =>
      if inherited label then None
      else Some (groups ++ [(label, [d])])
  end.

Fixpoint reduceFrom (inherited : string -> bool) (groups : Groups)
    (detections : list Detection) : option Groups :=
  match detections with
  | [] => Some groups
  | d :: rest =>
      match groupStep inherited groups d with
      | Some groups' => reduceFrom inherited groups' rest
      | None => None
      end
  end.

Definition groupDetectionsByLabel (inherited : string -> bool)
    (detections : list Detection) : option Groups :=
  reduceFrom inherited [] detections.

End LayerContextUtils.

(* ===================================================================== *)
(** ** Vocabulary of the further properties *)
(* ===================================================================== *)

Module Observe.

Import Calls.

Definition hoverCalls (px py : Q) (layer : Layer) : callList :=
  slotCall (EvLayerOnHover (id layer) px py) (Cam.interactiveWith onHover layer).

Definition mountCalls (layer : Layer) : callList :=
  slotCall (EvLayerOnMount (id layer)) (onMount layer).

Definition isCapture (e : event) : bool :=
  match e with
  | EvDrawImage | EvGetImageData => true
  | _ => false
  end.

Definition isSave (e : event) : bool :=
  match e with
  | EvCtxSave => true
  | _ => false
  end.

Definition isRestore (e : event) : bool :=
  match e with
  | EvCtxRestore => true
  | _ => false
  end.

Definition isRequest (e : event) : bool :=
  match e with
  | EvRequestAnimationFrame => true
  | _ => false
  end.

(** How often events of one kind occur in a trace. *)
Definition occurrences (p : event -> bool) (t : list event) : nat :=
  List.length (filter p t).

(** The callbacks of the layer round of a tick, each with its
    completion. *)
Definition layerSequence (layers : list Layer) : callList :=
  flat_map layerInvocations (visibleInOrder layers).

(** The visible layers that have a draw callback. *)
Definition drawingLayers (layers : list Layer) : list Layer :=
  filter (fun l => match render l with Some _ => true | None => false end)
         (visibleInOrder layers).

Definition returns (slot : option callback) : bool :=
  match slot with
  | Some Throws => false
  | _ => true
  end.

End Observe.

(* ===================================================================== *)
(** ** src/utils/errorHandling.ts and the error paths of
       src/hooks/useCamera.ts *)
(* ===================================================================== *)

Module ErrorHandling.

Local Open Scope string_scope.

(** What the code reads of a thrown value: whether it is a
    [DOMException], whether it is an [Error], and its [name] and
    [message] properties when it has them. *)
Record JsError : Type := mkJsError {
  isDOMException : bool;
  isError : bool;
  name : option string;
  message : option string
}.

Inductive CameraErrorType : Type := permission | device | stream | detection.

(** [details] is the value the record was made from, if any. *)
Record CameraError : Type := mkCameraError {
  type : CameraErrorType;
  errorMessage : string;
  details : option JsError
}.

(** A non-empty string is truthy. *)
Definition truthy (s : option string) : bool :=
  match s with
  | Some s' => negb (String.eqb s' "")
  | None => false
  end.

(** [s || fallback]. *)
Definition orElse (s : option string) (fallback : string) : string :=
  match s with
  | Some s' => if String.eqb s' "" then fallback else s'
  | None => fallback
  end.

(** [s.includes(sub)]. *)
Definition includes (sub s : string) : bool :=
  match String.index 0 sub s with
  | Some _ => true
  | None => false
  end.

(** [s?.includes(sub)] as a condition. *)
Definition includesOpt (sub : string) (s : option string) : bool :=
  match s with
  | Some s' => includes sub s'
  | None => false
  end.

Definition nameIs (e : JsError) (n : string) : bool :=
  match name e with
  | Some n' => String.eqb n' n
  | None => false
  end.

Definition handleCameraError (error : option JsError) : CameraError :=
  match error with
  | None =>
      {| type := stream; errorMessage := "An unexpected error occurred";
         details := None |}
  | Some e =>
      if isDOMException e || truthy (name e) then
        (* switch (error.name) *)
        if nameIs e "NotAllowedError" || nameIs e "PermissionDeniedError" then
          {| type := permission;
             errorMessage := "Camera permission denied. Please allow camera access and try again.";
             details := Some e |}
        else if nameIs e "NotFoundError" || nameIs e "DevicesNotFoundError" then
          {| type := device;
             errorMessage := "No camera device found. Please connect a camera and try again.";
             details := Some e |}
        else if nameIs e "NotReadableError" || nameIs e "TrackStartError" then
          {| type := device;
             errorMessage := "Camera is already in use by another application.";
             details := Some e |}
        else if nameIs e "OverconstrainedError"
                || nameIs e "ConstraintNotSatisfiedError" then
          {| type := stream;
             errorMessage := "Camera does not support the requested constraints.";
             details := Some e |}
        else if nameIs e "TypeError" then
          {| type := stream;
             errorMessage := "Invalid constraints provided for camera.";
             details := Some e |}
        else
          {| type := stream;
             errorMessage := orElse (message e) "Failed to access camera";
             details := Some e |}
      else if includesOpt "detection" (message e)
              || includesOpt "model" (message e) then
        {| type := detection;
           errorMessage :=
             orElse (message e) "Detection model failed to load or process";
           details := Some e |}
      else if isError e then
        (* an Error without a message of its own reads the empty message
           of Error.prototype *)
        let msg := match message e with Some m => m | None => "" end in
        {| type :=
             if includes "permission" msg then permission
             else if includes "device" msg || includes "camera" msg then device
             else if includes "detection" msg || includes "tensorflow" msg
                  then detection
             else stream;
           errorMessage := msg;
           details := Some e |}
      else
        {| type := stream; errorMessage := "An unexpected error occurred";
           details := Some e |}
  end.

Definition isRecoverableError (error : CameraError) : bool :=
  match type error with
  | permission => false
  | device => true
  | stream => true
  | detection => true
  end.

Definition getErrorRecoveryAction (error : CameraError) : string :=
  match type error with
  | permission =>
      "Please grant camera permission in your browser settings and refresh the page."
  | device =>
      if includes "in use" (errorMessage error)
      then "Please close other applications using the camera and try again."
      else "Please ensure a camera is connected and try again."
  | stream =>
      if includes "constraints" (errorMessage error)
      then "Trying with different camera settings..."
      else "Please try refreshing the page."
  | detection => "Detection models will be reloaded automatically."
  end.

(** useCamera.ts: the record [startCamera] stores when [getUserMedia]
    rejects with [err]. *)
Definition startCameraError (err : JsError) : CameraError :=
  if nameIs err "NotAllowedError" || nameIs err "PermissionDeniedError" then
    {| type := permission;
       errorMessage := "Camera permission denied. Please allow camera access and try again.";
       details := Some err |}
  else if nameIs err "NotFoundError" || nameIs err "DevicesNotFoundError" then
    {| type := device;
       errorMessage := "No camera device found. Please connect a camera and try again.";
       details := Some err |}
  else if nameIs err "NotReadableError" || nameIs err "TrackStartError" then
    {| type := device;
       errorMessage := "Camera is already in use by another application.";
       details := Some err |}
  else if nameIs err "OverconstrainedError"
          || nameIs err "ConstraintNotSatisfiedError" then
    {| type := stream;
       errorMessage := "Camera does not support the requested constraints.";
       details := Some err |}
  else
    {| type := stream; errorMessage := "Failed to access camera";
       details := Some err |}.

(** useCamera.ts: the records stored by [enumerateDevices] and
    [switchCamera] when they fail. *)
Definition enumerateDevicesError (err : JsError) : CameraError :=
  {| type := device; errorMessage := "Failed to enumerate devices";
     details := Some err |}.

Definition switchCameraError (err : JsError) : CameraError :=
  {| type := device; errorMessage := "Failed to switch camera";
     details := Some err |}.

(** The records [useCamera] can hold in its [error] state. *)
Inductive fromUseCamera : CameraError -> Prop :=
| from_startCamera : forall err, fromUseCamera (startCameraError err)
| from_enumerateDevices : forall err, fromUseCamera (enumerateDevicesError err)
| from_switchCamera : forall err, fromUseCamera (switchCameraError err).

(** A [CameraError] record seen as a value handed to
    [handleCameraError], as the component does with the error of
    [useCamera]: a plain object, with a [message] and without a [name]. *)
Definition asValue (c : CameraError) : JsError :=
  {| isDOMException := false; isError := false; name := None;
     message := Some (errorMessage c) |}.

(** The names [handleCameraError] and [startCamera] both know. *)
Definition knownNames : list string :=
  ["NotAllowedError"; "PermissionDeniedError"; "NotFoundError";
   "DevicesNotFoundError"; "NotReadableError"; "TrackStartError";
   "OverconstrainedError"; "ConstraintNotSatisfiedError"].

End ErrorHandling.

(* ===================================================================== *)
(** ** src/hooks/useCamera.ts, the choice of the next camera *)
(* ===================================================================== *)

Module UseCamera.

Record MediaDeviceInfo : Type := mkMediaDeviceInfo {
  deviceId : string;
  label : string
}.

(** [devices.findIndex(d => d.deviceId === id)], -1 when there is none. *)
Fixpoint findIndexFrom (id : string) (devices : list MediaDeviceInfo) (i : Z)
    : Z :=
  match devices with
  | [] => (-1)%Z
  | d :: rest =>
      if String.eqb (deviceId d) id then i
      else findIndexFrom id rest (i + 1)%Z
  end.

Definition findIndex (id : string) (devices : list MediaDeviceInfo) : Z :=
  findIndexFrom id devices 0%Z.

(** The device [switchCamera] asks for: none, with a warning, when there
    are fewer than two. *)
Definition nextDevice (devices : list MediaDeviceInfo)
    (currentDevice : option MediaDeviceInfo) : option MediaDeviceInfo :=
  let n := Z.of_nat (List.length devices) in
  if (n <? 2)%Z then None
  else
    let currentIndex :=
      match currentDevice with
      | Some c => findIndex (deviceId c) devices
      | None => (-1)%Z
      end in
    let nextIndex := Z.rem (currentIndex + 1) n in
    nth_error devices (Z.to_nat nextIndex).

End UseCamera.

(* ===================================================================== *)
(** ** src/utils/constraints.ts *)
(* ===================================================================== *)

Module Range.

(** [ConstrainULongRange] and [ConstrainDoubleRange]. *)
Record ConstrainRange : Type := mkRange {
  min : option Q;
  max : option Q;
  exact : option Q;
  ideal : option Q
}.

End Range.

Module DOMString.

(** A string or an array of strings. *)
Inductive Strings : Type :=
| One (s : string)
| Many (l : list string).

(** [ConstrainDOMStringParameters]. *)
Record Params : Type := mkParams {
  exact : option Strings;
  ideal : option Strings
}.

End DOMString.

Module Constraints.

Local Open Scope string_scope.

Inductive Quality : Type := low | medium | high | auto.

Inductive FacingMode : Type := user | environment.

Definition facingModeName (m : FacingMode) : string :=
  match m with
  | user => "user"
  | environment => "environment"
  end.

(** [ConstrainULong] / [ConstrainDouble]: a number or a range. *)
Inductive NumConstraint : Type :=
| NumValue (q : Q)
| NumRange (r : Range.ConstrainRange).

(** [ConstrainDOMString]: a string, an array of strings, or parameters. *)
Inductive StrConstraint : Type :=
| StrValue (s : DOMString.Strings)
| StrParams (p : DOMString.Params).

(** A property of an object: absent ([None]), present and [undefined]
    ([Some None]), or present with a value. *)
Definition slot (V : Type) : Type := option (option V).

(** [MediaTrackConstraints], with the properties this repository reads
    or writes. *)
Record MediaTrackConstraints : Type := mkConstraints {
  width : slot NumConstraint;
  height : slot NumConstraint;
  frameRate : slot NumConstraint;
  aspectRatio : slot NumConstraint;
  facingMode : slot StrConstraint;
  deviceId : slot StrConstraint;
  resizeMode : slot string
}.

(** [{}]. *)
Definition emptyConstraints : MediaTrackConstraints :=
  {| width := None; height := None; frameRate := None; aspectRatio := None;
     facingMode := None; deviceId := None; resizeMode := None |}.

Definition idealOnly (q : Q) : option (option NumConstraint) :=
  Some (Some (NumRange {| Range.min := None; Range.max := None;
                          Range.exact := None; Range.ideal := Some q |})).

Definition idealAndMax (q : Q) : option (option NumConstraint) :=
  Some (Some (NumRange {| Range.min := None; Range.max := Some q;
                          Range.exact := None; Range.ideal := Some q |})).

(** [QUALITY_PRESETS[quality]]: width, height and frame rate. *)
Definition QUALITY_PRESETS (quality : Quality) : Q * Q * Q :=
  match quality with
  | low => (640, 480, 15)
  | medium => (1280, 720, 30)
  | high => (1920, 1080, 30)
  | auto => (1280, 720, 30)
  end.

(** [quality] defaults to ['medium']. *)
Definition getQualityConstraints (quality : option Quality)
    : MediaTrackConstraints :=
  let '(w, h, f) :=
    QUALITY_PRESETS (match quality with Some q => q | None => medium end) in
  {| width := idealOnly w; height := idealOnly h; frameRate := idealOnly f;
     aspectRatio := idealOnly (16 / 9);
     facingMode := None; deviceId := None;
     resizeMode := Some (Some "crop-and-scale") |}.

Definition getMobileConstraints : MediaTrackConstraints :=
  {| width := idealAndMax 1280; height := idealAndMax 720;
     frameRate := idealAndMax 30; aspectRatio := None;
     facingMode :=
       Some (Some (StrParams
         {| DOMString.exact := None;
            DOMString.ideal := Some (DOMString.One "environment") |}));
     deviceId := None; resizeMode := None |}.

(** [{ ...baseConstraints }] of an optional object. *)
Definition spread (base : option MediaTrackConstraints)
    : MediaTrackConstraints :=
  match base with
  | Some c => c
  | None => emptyConstraints
  end.

Definition getConstraintsWithDeviceId (id : string)
    (baseConstraints : option MediaTrackConstraints) : MediaTrackConstraints :=
  let base := spread baseConstraints in
  {| width := width base; height := height base;
     frameRate := frameRate base; aspectRatio := aspectRatio base;
     facingMode := facingMode base;
     deviceId :=
       Some (Some (StrParams
         {| DOMString.exact := Some (DOMString.One id);
            DOMString.ideal := None |}));
     resizeMode := resizeMode base |}.

Definition getConstraintsWithFacingMode (mode : FacingMode)
    (baseConstraints : option MediaTrackConstraints) : MediaTrackConstraints :=
  let base := spread baseConstraints in
  {| width := width base; height := height base;
     frameRate := frameRate base; aspectRatio := aspectRatio base;
     facingMode :=
       Some (Some (StrParams
         {| DOMString.exact := None;
            DOMString.ideal := Some (DOMString.One (facingModeName mode)) |}));
     deviceId := deviceId base;
     resizeMode := resizeMode base |}.

(** One property of [Object.assign(target, source)]: an own property of
    the source wins, whatever its value. *)
Definition assignKey {V} (target source : slot V) : slot V :=
  match source with
  | Some v => Some v
  | None => target
  end.

Definition assign (target source : MediaTrackConstraints)
    : MediaTrackConstraints :=
  {| width := assignKey (width target) (width source);
     height := assignKey (height target) (height source);
     frameRate := assignKey (frameRate target) (frameRate source);
     aspectRatio := assignKey (aspectRatio target) (aspectRatio source);
     facingMode := assignKey (facingMode target) (facingMode source);
     deviceId := assignKey (deviceId target) (deviceId source);
     resizeMode := assignKey (resizeMode target) (resizeMode source) |}.

(** The loop of [combineConstraints] from a given [combined]. *)
Fixpoint combineFrom (combined : MediaTrackConstraints)
    (constraints : list (option MediaTrackConstraints))
    : MediaTrackConstraints :=
  match constraints with
  | [] => combined
  | Some c :: rest => combineFrom (assign combined c) rest
  | None :: rest => combineFrom combined rest
  end.

Definition combineConstraints
    (constraints : list (option MediaTrackConstraints))
    : MediaTrackConstraints :=
  combineFrom emptyConstraints constraints.

(** A number is truthy when it is not 0. *)
Definition truthyNum (q : option Q) : bool :=
  match q with
  | Some v => negb (Qeq_bool v 0)
  | None => false
  end.

(** [a > b] on optional numbers known to be present. *)
Definition greater (a b : option Q) : bool :=
  match a, b with
  | Some x, Some y => Qltb y x
  | _, _ => false
  end.

Definition lessThan (a : option Q) (b : Q) : bool :=
  match a with
  | Some x => Qltb x b
  | None => false
  end.

(** The range a truthy numeric constraint is read as: a bare number has
    no [min], [max], [exact] or [ideal]. *)
Definition asRange (c : slot NumConstraint) : option Range.ConstrainRange :=
  match c with
  | Some (Some (NumRange r)) => Some r
  | Some (Some (NumValue q)) =>
      if Qeq_bool q 0 then None
      else Some {| Range.min := None; Range.max := None;
                   Range.exact := None; Range.ideal := None |}
  | _ => None
  end.

Definition minMaxError (what : string) (r : Range.ConstrainRange)
    : list string :=
  if truthyNum (Range.min r) && truthyNum (Range.max r)
     && greater (Range.min r) (Range.max r)
  then [what ++ " min value is greater than max value"]
  else [].

Definition exactError (what : string) (r : Range.ConstrainRange)
    : list string :=
  if truthyNum (Range.exact r)
     && (truthyNum (Range.min r) || truthyNum (Range.max r))
  then [what ++ " cannot have both exact and min/max constraints"]
  else [].

Definition idealError (r : Range.ConstrainRange) : list string :=
  if truthyNum (Range.ideal r) && lessThan (Range.ideal r) 1
  then ["FrameRate ideal value must be at least 1"]
  else [].

Definition sizeErrors (what : string) (c : slot NumConstraint) : list string :=
  match asRange c with
  | Some r => (minMaxError what r ++ exactError what r)%list
  | None => []
  end.

Definition frameRateErrors (c : slot NumConstraint) : list string :=
  match asRange c with
  | Some r => (minMaxError "FrameRate" r ++ idealError r)%list
  | None => []
  end.

Definition validModes : list string :=
  ["user"; "environment"; "left"; "right"].

Definition isValidMode (s : string) : bool :=
  existsb (String.eqb s) validModes.

Definition truthyStrings (v : option DOMString.Strings) : bool :=
  match v with
  | Some (DOMString.One s) => negb (String.eqb s "")
  | Some (DOMString.Many _) => true
  | None => false
  end.

(** The text of a value in a template literal: an array is joined with
    commas. *)
Definition stringsText (v : DOMString.Strings) : string :=
  match v with
  | DOMString.One s => s
  | DOMString.Many l => String.concat "," l
  end.

Definition facingModeErrors (c : slot StrConstraint) : list string :=
  match c with
  | Some (Some (StrValue (DOMString.One s))) =>
      if String.eqb s "" then []          (* falsy *)
      else if isValidMode s then []
      else ["Invalid facingMode: " ++ s]
  | Some (Some (StrValue (DOMString.Many _))) =>
      []                                   (* an array has no exact or ideal *)
  | Some (Some (StrParams p)) =>
      let value := if truthyStrings (DOMString.exact p)
                   then DOMString.exact p else DOMString.ideal p in
      match value with
      | Some v =>
          if truthyStrings value
             && negb (match v with
                      | DOMString.One s => isValidMode s
                      | DOMString.Many _ => false
                      end)
          then ["Invalid facingMode value: " ++ stringsText v]
          else []
      | None => []
      end
  | _ => []
  end.

Definition validateConstraints (constraints : MediaTrackConstraints)
    : bool * list string :=
  let errors :=
    (sizeErrors "Width" (width constraints) ++
     sizeErrors "Height" (height constraints) ++
     frameRateErrors (frameRate constraints) ++
     facingModeErrors (facingMode constraints))%list in
  (match errors with [] => true | _ => false end, errors).

End Constraints.

Module CamConstraints.

Import Constraints.

(** Cam, [constraints]: the video constraints built when the caller
    passes none of its own.  [deviceId] is the prop when it is a
    non-empty string. *)
Definition videoConstraints (deviceId : option string)
    (facingMode : FacingMode) (quality : Quality) : MediaTrackConstraints :=
  let qualityConstraints := getQualityConstraints (Some quality) in
  {| width := width qualityConstraints;
     height := height qualityConstraints;
     frameRate := frameRate qualityConstraints;
     aspectRatio := aspectRatio qualityConstraints;
     facingMode :=
       match deviceId with
       | Some _ => Some None
       | None =>
           Some (Some (StrParams
             {| DOMString.exact := None;
                DOMString.ideal :=
                  Some (DOMString.One (facingModeName facingMode)) |}))
       end;
     deviceId :=
       match deviceId with
       | Some id =>
           Some (Some (StrParams
             {| DOMString.exact := Some (DOMString.One id);
                DOMString.ideal := None |}))
       | None => Some None
       end;
     resizeMode := resizeMode qualityConstraints |}.

End CamConstraints.

(* ===================================================================== *)
(** ** JavaScript numbers as IEEE 754 binary64 *)
(* ===================================================================== *)

(** Where a statement depends on what the arithmetic of the code returns,
    a [number] is a binary64 floating-point number and [+], [-], [*], [/]
    are the correctly rounded operations of the Standard Library's
    specification of IEEE 754 ([SpecFloat], precision 53, exponents up to
    1024, rounding to nearest, ties to even). *)
Module Binary64.

Import SpecFloat.

Local Open Scope Z_scope.

Definition float : Type := spec_float.

Definition prec : Z := 53.
Definition emax : Z := 1024.

Definition add : float -> float -> float := SFadd prec emax.
Definition sub : float -> float -> float := SFsub prec emax.
Definition mul : float -> float -> float := SFmul prec emax.
Definition div : float -> float -> float := SFdiv prec emax.

(** The number an integer literal denotes; exact up to [2^53]. *)
Definition ofZ (z : Z) : float := binary_normalize prec emax z 0 false.

(** The number a decimal literal with [k] digits after the point denotes,
    for instance [decimal 1 1] for [0.1]: the binary64 number nearest to
    [n / 10^k], which the correctly rounded quotient of the two integers
    is (both are exact for [k <= 22] and [|n| <= 2^53]). *)
Definition decimal (n : Z) (k : Z) : float := div (ofZ n) (ofZ (10 ^ k)).

Definition zero : float := S754_zero false.

Definition isNaN (a : float) : bool :=
  match a with
  | S754_nan => true
  | _ => false
  end.

(** [Number.isFinite]. *)
Definition isFinite (a : float) : bool :=
  match a with
  | S754_zero _ | S754_finite _ _ _ => true
  | _ => false
  end.

(** The representations the operations return and a literal denotes: a
    finite number has its mantissa of at most 53 bits at the least
    exponent that allows it, not below -1074, and is below [2^1024]. *)
Definition valid (a : float) : bool := valid_binary prec emax a.

(** The mantissa, with its sign, of the finite number [(-1)^s m 2^e]
    written at the exponent [ez <= e]. *)
Definition aligned (s : bool) (m : positive) (e ez : Z) : Z :=
  cond_Zopp s (Zpos (fst (shl_align m e ez))).

(** Comparison of the values of two numbers: [None] when one of them is
    NaN; the two zeros are equal; two finite numbers are compared at
    their smaller exponent.  (On the canonical representations that the
    operations return this is [SFcompare].) *)
Definition compare (a b : float) : option comparison :=
  match a, b with
  | S754_nan, _ | _, S754_nan => None
  | S754_infinity s1, S754_infinity s2 =>
      Some (match s1, s2 with
            | true, true | false, false => Eq
            | true, false => Lt
            | false, true => Gt
            end)
  | S754_infinity s, _ => Some (if s then Lt else Gt)
  | _, S754_infinity s => Some (if s then Gt else Lt)
  | S754_zero _, S754_zero _ => Some Eq
  | S754_finite s _ _, S754_zero _ => Some (if s then Lt else Gt)
  | S754_zero _, S754_finite s _ _ => Some (if s then Gt else Lt)
  | S754_finite s1 m1 e1, S754_finite s2 m2 e2 =>
      let ez := Z.min e1 e2 in
      Some (Z.compare (aligned s1 m1 e1 ez) (aligned s2 m2 e2 ez))
  end.

(** [a < b], [a <= b] and [a === b]; each is false when an operand is
    NaN. *)
Definition ltb (a b : float) : bool :=
  match compare a b with
  | Some Lt => true
  | _ => false
  end.

Definition leb (a b : float) : bool :=
  match compare a b with
  | Some Lt | Some Eq => true
  | _ => false
  end.

Definition eqb (a b : float) : bool :=
  match compare a b with
  | Some Eq => true
  | _ => false
  end.

(** [Math.min(a, b)] and [Math.max(a, b)]: NaN when an operand is NaN,
    and -0 counts as smaller than +0. *)
Definition min (a b : float) : float :=
  match compare a b with
  | None => S754_nan
  | Some Lt => a
  | Some Gt => b
  | Some Eq =>
      match a, b with
      | S754_zero sa, S754_zero sb => S754_zero (sa || sb)
      | _, _ => a
      end
  end.

Definition max (a b : float) : float :=
  match compare a b with
  | None => S754_nan
  | Some Lt => b
  | Some Gt => a
  | Some Eq =>
      match a, b with
      | S754_zero sa, S754_zero sb => S754_zero (sa && sb)
      | _, _ => a
      end
  end.

(** [a % b]: NaN when [a] is infinite or [b] is zero, [a] when [b] is
    infinite or [a] is zero, and otherwise [a - b * q] for the integer [q]
    that is [a / b] rounded towards zero; that number is a binary64
    number, so nothing is rounded, and a zero result has the sign of
    [a]. *)
Definition rem (a b : float) : float :=
  match a, b with
  | S754_nan, _ | _, S754_nan => S754_nan
  | S754_infinity _, _ => S754_nan
  | _, S754_zero _ => S754_nan
  | _, S754_infinity _ => a
  | S754_zero _, _ => a
  | S754_finite sa ma ea, S754_finite _ mb eb =>
      let ez := Z.min ea eb in
      binary_normalize prec emax
        (cond_Zopp sa (Z.rem (aligned false ma ea ez) (aligned false mb eb ez)))
        ez sa
  end.

End Binary64.

(* ===================================================================== *)
(** ** The arithmetic of the sources on binary64 numbers *)
(* ===================================================================== *)

(** The functions whose results depend on rounding, with every [number]
    a binary64 number. *)
Module IEEE.

Import Binary64.

Record BoundingBox : Type := mkBoundingBox {
  x : float;        (* top-left X coordinate *)
  y : float;        (* top-left Y coordinate *)
  width : float;
  height : float
}.

Record Detection : Type := mkDetection {
  id : string;
  type : Det.DetectionType;
  label : string;
  confidence : float;
  bbox : BoundingBox;
  timestamp : float
}.

(** A box at a finite place, of nonnegative width and height. *)
Definition nonnegativeBox (bbox : BoundingBox) : bool :=
  valid (x bbox) && isFinite (x bbox) &&
  valid (y bbox) && isFinite (y bbox) &&
  leb zero (width bbox) && leb zero (height bbox).

(** src/utils/layerContext.ts *)
Module LayerContext.

Definition isPointInBoundingBox (px py : float) (bbox : BoundingBox) : bool :=
  leb (x bbox) px &&
  leb px (add (x bbox) (width bbox)) &&
  leb (y bbox) py &&
  leb py (add (y bbox) (height bbox)).

(** The loop [for (let i = detections.length - 1; i >= 0; i--)], with
    [n = i + 1] indices left to visit. *)
Fixpoint findDetectionFrom (px py : float) (detections : list Detection)
    (n : nat) : option Detection :=
  match n with
  | O => None
  | S i =>
      match nth_error detections i with
      | Some d =>
          if isPointInBoundingBox px py (bbox d) then Some d
          else findDetectionFrom px py detections i
      | None => None
      end
  end.

Definition findDetectionAtPoint (px py : float) (detections : list Detection)
    : option Detection :=
  findDetectionFrom px py detections (List.length detections).

Definition getDetectionArea (bbox : BoundingBox) : float :=
  mul (width bbox) (height bbox).

Definition doDetectionsOverlap (bbox1 bbox2 : BoundingBox) : bool :=
  negb (ltb (add (x bbox1) (width bbox1)) (x bbox2) ||
        ltb (add (x bbox2) (width bbox2)) (x bbox1) ||
        ltb (add (y bbox1) (height bbox1)) (y bbox2) ||
        ltb (add (y bbox2) (height bbox2)) (y bbox1)).

Definition getOverlapArea (bbox1 bbox2 : BoundingBox) : float :=
  if negb (doDetectionsOverlap bbox1 bbox2) then zero
  else
    let xOverlap :=
      sub (min (add (x bbox1) (width bbox1)) (add (x bbox2) (width bbox2)))
          (max (x bbox1) (x bbox2)) in
    let yOverlap :=
      sub (min (add (y bbox1) (height bbox1)) (add (y bbox2) (height bbox2)))
          (max (y bbox1) (y bbox2)) in
    mul xOverlap yOverlap.

Definition getIoU (bbox1 bbox2 : BoundingBox) : float :=
  let overlapArea := getOverlapArea bbox1 bbox2 in
  if eqb overlapArea zero then zero
  else
    let area1 := getDetectionArea bbox1 in
    let area2 := getDetectionArea bbox2 in
    let unionArea := sub (add area1 area2) overlapArea in
    div overlapArea unionArea.

Record Dimensions : Type := mkDimensions {
  dwidth : float;
  dheight : float
}.

Definition scaleCoordinates (px py : float) (fromDimensions toDimensions : Dimensions)
    : float * float :=
  (mul (div px (dwidth fromDimensions)) (dwidth toDimensions),
   mul (div py (dheight fromDimensions)) (dheight toDimensions)).

Definition scaleBoundingBox (bbox : BoundingBox)
    (fromDimensions toDimensions : Dimensions) : BoundingBox :=
  let scaleX := div (dwidth toDimensions) (dwidth fromDimensions) in
  let scaleY := div (dheight toDimensions) (dheight fromDimensions) in
  {| x := mul (x bbox) scaleX;
     y := mul (y bbox) scaleY;
     width := mul (width bbox) scaleX;
     height := mul (height bbox) scaleY |}.

End LayerContext.

(** src/hooks/useFrameProcessor.ts *)
Module UseFrameProcessor.

Record FrameProcessorOptions : Type := mkOptions {
  targetFPS : float;
  enabled : bool
}.

Record Refs : Type := mkRefs {
  lastFrameTime : float;
  frameCount : float;
  isProcessing : bool
}.

Definition targetFrameTime (opts : FrameProcessorOptions) : float :=
  div (ofZ 1000) (targetFPS opts).

(** The body of the hook up to the effects: the refs are created, the
    frame time is computed, nothing is checked. *)
Definition useFrameProcessor (opts : FrameProcessorOptions) : Eff Refs :=
  ret {| lastFrameTime := ofZ 0; frameCount := ofZ 0; isProcessing := false |}.

(** The start effect, run at time [now]. *)
Definition startEffect (opts : FrameProcessorOptions) (now : float)
    (refs : Refs) : Eff Refs :=
  if enabled opts then
    emit EvRequestAnimationFrame ;;
    ret {| lastFrameTime := now;
           frameCount := ofZ 0;
           isProcessing := isProcessing refs |}
  else ret refs.

(** One invocation by the scheduler at time [now]. *)
Definition processFrame (opts : FrameProcessorOptions) (onFrame : callback)
    (now : float) (refs : Refs) : Eff Refs :=
  if negb (enabled opts) then ret refs
  else
    let elapsed := sub now (lastFrameTime refs) in
    if ltb elapsed (targetFrameTime opts) then
      (* skip frame if not enough time has passed *)
      emit EvRequestAnimationFrame ;; ret refs
    else if isProcessing refs then
      (* prevent concurrent processing *)
      emit EvRequestAnimationFrame ;; ret refs
    else
      let lastFrameTime' := sub now (rem elapsed (targetFrameTime opts)) in
      let frameCount' := add (frameCount refs) (ofZ 1) in
      (* try { onFrame() } catch { console.error } finally { flag off } *)
      tryCatch (call EvOnFrame onFrame)
               (emit (EvConsole ErrorProcessingFrame)) ;;
      emit EvRequestAnimationFrame ;;
      ret {| lastFrameTime := lastFrameTime';
             frameCount := frameCount';
             isProcessing := false |}.

(** The states the refs can be in when the scheduler calls: the refs as
    created, then any number of runs of the start effect and of
    [processFrame], at any times, under any options and with the callback
    completing either way. *)
Inductive reachable : Refs -> Prop :=
| reach_mount : forall opts refs,
    snd (useFrameProcessor opts) = Some refs ->
    reachable refs
| reach_start : forall opts now refs refs',
    reachable refs ->
    snd (startEffect opts now refs) = Some refs' ->
    reachable refs'
| reach_step : forall opts onFrame now refs refs',
    reachable refs ->
    snd (processFrame opts onFrame now refs) = Some refs' ->
    reachable refs'.

End UseFrameProcessor.

(** Sample data of the scenarios. *)
Module Samples.

(** The box (10, 10, 50, 50) and a detection with it. *)
Definition faceBox : BoundingBox :=
  {| x := ofZ 10; y := ofZ 10; width := ofZ 50; height := ofZ 50 |}.

Definition faceDetection : Detection :=
  {| id := "face-1"; type := Det.face; label := "Face";
     confidence := decimal 9 1; bbox := faceBox; timestamp := ofZ 100 |}.

(** The box (0.1, 0.1, 0.2, 0.2). *)
Definition tenthBox : BoundingBox :=
  {| x := decimal 1 1; y := decimal 1 1;
     width := decimal 2 1; height := decimal 2 1 |}.

(** The box (9007199254740994, 0, 1, 1), at a place where the numbers are
    2 apart. *)
Definition farBox : BoundingBox :=
  {| x := ofZ 9007199254740994; y := ofZ 0;
     width := ofZ 1; height := ofZ 1 |}.

(** The box (9007199254740994, 9007199254740994, 1, 1). *)
Definition cornerBox : BoundingBox :=
  {| x := ofZ 9007199254740994; y := ofZ 9007199254740994;
     width := ofZ 1; height := ofZ 1 |}.

(** The largest finite number, 1.7976931348623157e308, and the box
    (1.7976931348623157e308, 0, 1.7976931348623157e308, 0). *)
Definition maxValue : float := SpecFloat.S754_finite false 9007199254740991 971.

Definition hugeBox : BoundingBox :=
  {| x := maxValue; y := ofZ 0; width := maxValue; height := ofZ 0 |}.



End Samples.

(** The claims that the arithmetic of the code does not meet, as stated,
    so that they can be tested on a run. *)
Module Claims.

(** The overlap area is nonnegative and at most the area of either box;
    the union area is positive whenever the overlap area is; the
    intersection over union is 0 when the overlap area is 0 and lies in
    [0, 1] otherwise. *)
Definition overlapWithinBounds (bbox1 bbox2 : BoundingBox) : Prop :=
  let overlapArea := LayerContext.getOverlapArea bbox1 bbox2 in
  let unionArea :=
    sub (add (LayerContext.getDetectionArea bbox1)
             (LayerContext.getDetectionArea bbox2)) overlapArea in
  let iou := LayerContext.getIoU bbox1 bbox2 in
  leb zero overlapArea = true /\
  leb overlapArea (LayerContext.getDetectionArea bbox1) = true /\
  leb overlapArea (LayerContext.getDetectionArea bbox2) = true /\
  (ltb zero overlapArea = true -> ltb zero unionArea = true) /\
  (eqb overlapArea zero = true -> eqb iou zero = true) /\
  (eqb overlapArea zero = false ->
   leb zero iou = true /\ leb iou (ofZ 1) = true).

End Claims.

End IEEE.

(* ===================================================================== *)
(** * Properties *)
(* ===================================================================== *)

(** ** Numbers *)

Section NumberFacts.

Lemma Qltb_true (a b : Q) : Qltb a b = true <-> a < b.
Proof.
  unfold Qltb. rewrite negb_true_iff.
  destruct (Qle_bool b a) eqn:E.
  - apply Qle_bool_iff in E. split; [discriminate | intro; lra].
  - split; [intros _ | reflexivity].
    destruct (Qlt_le_dec a b) as [Hlt | Hle]; [exact Hlt |].
    apply Qle_bool_iff in Hle. congruence.
Qed.

Lemma Qltb_false (a b : Q) : Qltb a b = false <-> b <= a.
Proof.
  unfold Qltb. rewrite negb_false_iff. apply Qle_bool_iff.
Qed.

Lemma Qeq_bool_false (a b : Q) : Qeq_bool a b = false <-> ~ a == b.
Proof.
  split.
  - intros E H. apply Qeq_bool_iff in H. congruence.
  - intro H. destruct (Qeq_bool a b) eqn:E; [| reflexivity].
    apply Qeq_bool_iff in E. contradiction.
Qed.

End NumberFacts.

(** ** Bounding boxes (layerContext.ts) *)

Section Geometry.

Import LayerContext.


(** The downward loop, [n] indices left: it answers with the entry of the
    greatest index below [n] whose box holds the point. *)
Lemma findDetectionFrom_Some (px py : Q) (ds : list Detection) :
  forall (n : nat) (d : Detection), (n <= List.length ds)%nat ->
  (findDetectionFrom px py ds n = Some d <->
   exists i, (i < n)%nat /\ nth_error ds i = Some d /\
             isPointInBoundingBox px py (Det.bbox d) = true /\
             forall j d', (i < j < n)%nat -> nth_error ds j = Some d' ->
                          isPointInBoundingBox px py (Det.bbox d') = false).
Proof.
  induction n as [| n IH]; intros d Hn; simpl.
  - split; [discriminate | intros (i & Hi & _); lia].
  - destruct (nth_error ds n) as [dn |] eqn:En.
    2:{ apply nth_error_None in En. lia. }
    destruct (isPointInBoundingBox px py (Det.bbox dn)) eqn:Hhit.
    + split.
      * intros [= <-]. exists n. repeat split; auto. intros j d' Hj. lia.
      * intros (i & Hi & Hnth & Hd & Hlater).
        assert (i = n \/ i < n)%nat as [-> | Hlt] by lia.
        -- congruence.
        -- rewrite (Hlater n dn) in Hhit by (auto; lia). discriminate.
    + rewrite IH by lia. split.
      * intros (i & Hi & Hnth & Hd & Hlater).
        exists i. repeat split; auto.
        intros j d' Hj Hj'.
        assert (j = n \/ j < n)%nat as [-> | Hlt] by lia.
        -- congruence.
        -- apply (Hlater j); auto; lia.
      * intros (i & Hi & Hnth & Hd & Hlater).
        assert (i = n \/ i < n)%nat as [-> | Hlt] by lia.
        -- congruence.
        -- exists i. repeat split; auto.
           intros j d' Hj. apply Hlater. lia.
Qed.


End Geometry.

Section Overlap.

Import LayerContext.

Variables bbox1 bbox2 : BoundingBox.
Hypothesis Hw1 : 0 <= width bbox1.
Hypothesis Hh1 : 0 <= height bbox1.
Hypothesis Hw2 : 0 <= width bbox2.
Hypothesis Hh2 : 0 <= height bbox2.


End Overlap.

(** ** Layer registry (useLayer.ts) *)

Section Registry.

Import UseLayer Calls.

Lemma existsb_id_In (layerId : string) (layers : list Layer) :
  existsb (fun l => String.eqb (id l) layerId) layers = true <->
  In layerId (ids layers).
Proof.
  unfold ids. rewrite existsb_exists, in_map_iff.
  split; intros (l & H1 & H2).
  - apply String.eqb_eq in H2. eauto.
  - exists l. split; [assumption | now apply String.eqb_eq].
Qed.

Lemma addLayer_duplicate (layer : Layer) (layers : list Layer) :
  In (id layer) (ids layers) ->
  addLayer layer layers = (layers, [WarnLayerExists (id layer)]).
Proof.
  intro H. unfold addLayer.
  apply existsb_id_In in H. rewrite H. reflexivity.
Qed.

Lemma addLayer_fresh (layer : Layer) (layers : list Layer) :
  ~ In (id layer) (ids layers) ->
  addLayer layer layers = (layers ++ [layer], []).
Proof.
  intro H. unfold addLayer.
  destruct (existsb _ layers) eqn:E; [| reflexivity].
  apply existsb_id_In in E. contradiction.
Qed.

Lemma addLayer_NoDup (layer : Layer) (layers : list Layer) :
  NoDup (ids layers) -> NoDup (ids (fst (addLayer layer layers))).
Proof.
  intro H.
  destruct (in_dec string_dec (id layer) (ids layers)) as [Hin | Hout].
  - now rewrite addLayer_duplicate.
  - rewrite addLayer_fresh by assumption. simpl.
    unfold ids in *. rewrite map_app. simpl.
    eapply Permutation_NoDup; [apply Permutation_cons_append |].
    now constructor.
Qed.

Lemma ids_filter_incl (p : Layer -> bool) (layers : list Layer) (s : string) :
  In s (ids (filter p layers)) -> In s (ids layers).
Proof.
  unfold ids. rewrite !in_map_iff.
  intros (l & H1 & H2). apply filter_In in H2 as [H2 _]. eauto.
Qed.

Lemma filter_NoDup_ids (p : Layer -> bool) (layers : list Layer) :
  NoDup (ids layers) -> NoDup (ids (filter p layers)).
Proof.
  induction layers as [| l layers IH]; simpl; intro H; [constructor |].
  inversion H as [| ? ? Hnotin Hrest]; subst.
  destruct (p l); simpl; auto.
  constructor; auto.
  intro Hin. apply Hnotin. eapply ids_filter_incl; eauto.
Qed.

Lemma updateLayer_ids (layerId : string) (updates : PartialLayer)
    (layers : list Layer) :
  ids (fst (updateLayer layerId updates layers)) = ids layers.
Proof.
  unfold updateLayer, ids. simpl. rewrite map_map.
  apply map_ext. intro l. now destruct (String.eqb (id l) layerId).
Qed.

Lemma applyOp_NoDup (op : registryOp) (layers : list Layer) :
  NoDup (ids layers) -> NoDup (ids (fst (applyOp op layers))).
Proof.
  destruct op as [layer | layerId | layerId updates]; simpl; intro H.
  - now apply addLayer_NoDup.
  - now apply filter_NoDup_ids.
  - change (NoDup (ids (fst (updateLayer layerId updates layers)))).
    now rewrite updateLayer_ids.
Qed.

End Registry.

(** C5. Starting from pairwise-distinct ids, every run of [addLayer],
    [removeLayer] and [updateLayer] keeps the ids pairwise distinct; and
    adding a layer whose id is already there warns, leaves the list as it
    was, and the list holds exactly one layer with that id. *)
Theorem layer_ids_stay_distinct
    (layers : list Layer) (ops : list UseLayer.registryOp)
    (Hdistinct : NoDup (Calls.ids layers)) :
  NoDup (Calls.ids (UseLayer.applyOps ops layers)) /\
  (forall layer,
     In (id layer) (Calls.ids (UseLayer.applyOps ops layers)) ->
     UseLayer.addLayer layer (UseLayer.applyOps ops layers)
       = (UseLayer.applyOps ops layers, [WarnLayerExists (id layer)]) /\
     count_occ string_dec
       (Calls.ids (fst (UseLayer.addLayer layer (UseLayer.applyOps ops layers))))
       (id layer) = 1%nat).
Proof.
  assert (Hinv : NoDup (Calls.ids (UseLayer.applyOps ops layers))).
  { revert layers Hdistinct.
    induction ops as [| op ops IH]; intros layers H; simpl; [exact H |].
    apply IH. now apply applyOp_NoDup. }
  split; [exact Hinv |].
  intros layer Hin. split; [now apply addLayer_duplicate |].
  rewrite addLayer_duplicate by assumption. simpl.
  apply NoDup_count_occ'; assumption.
Qed.

(** ** The ordered view (useLayer.ts, [sortedLayers]) *)

Section OrderedView.

Import UseLayer Calls.

Lemma compareFn_positive (a b : Layer) :
  Qltb 0 (compareFn a b) = true <-> orderKey b < orderKey a.
Proof.
  rewrite Qltb_true. unfold compareFn. split; intro; lra.
Qed.

Lemma compareFn_not_positive (a b : Layer) :
  Qltb 0 (compareFn a b) = false <-> orderKey a <= orderKey b.
Proof.
  rewrite Qltb_false. unfold compareFn. split; intro; lra.
Qed.

Lemma insertSorted_perm (a : Layer) (l : list Layer) :
  Permutation (a :: l) (insertSorted compareFn a l).
Proof.
  induction l as [| b l IH]; simpl; [reflexivity |].
  destruct (Qltb 0 (compareFn a b)); [| reflexivity].
  rewrite perm_swap. now constructor.
Qed.

Lemma arraySort_perm (l : list Layer) :
  Permutation l (arraySort compareFn l).
Proof.
  induction l as [| a l IH]; simpl; [constructor |].
  rewrite <- insertSorted_perm. now constructor.
Qed.

Lemma insertSorted_sorted (a : Layer) (l : list Layer) :
  StronglySorted keyLe l -> StronglySorted keyLe (insertSorted compareFn a l).
Proof.
  induction 1 as [| b l Hs IH Hb]; simpl.
  - repeat constructor.
  - destruct (Qltb 0 (compareFn a b)) eqn:E.
    + apply compareFn_positive in E.
      constructor; [exact IH |].
      eapply Permutation_Forall; [apply insertSorted_perm |].
      constructor; [unfold keyLe; lra | exact Hb].
    + apply compareFn_not_positive in E.
      constructor; [now constructor |].
      constructor; [exact E |].
      eapply Forall_impl; [| exact Hb].
      unfold keyLe. intros c Hc. lra.
Qed.

Lemma arraySort_sorted (l : list Layer) :
  StronglySorted keyLe (arraySort compareFn l).
Proof.
  induction l as [| a l IH]; simpl; [constructor |].
  now apply insertSorted_sorted.
Qed.

(** Layers of one key keep their relative order: the sort is stable. *)
Lemma insertSorted_sameKey (k : Q) (a : Layer) (l : list Layer) :
  filter (sameKey k) (insertSorted compareFn a l) =
  filter (sameKey k) (a :: l).
Proof.
  induction l as [| b l IH]; [reflexivity |].
  simpl insertSorted.
  destruct (Qltb 0 (compareFn a b)) eqn:E; [| reflexivity].
  apply compareFn_positive in E.
  simpl filter in *. rewrite IH.
  destruct (sameKey k a) eqn:Ea, (sameKey k b) eqn:Eb; try reflexivity.
  unfold sameKey in Ea, Eb. apply Qeq_bool_iff in Ea, Eb. lra.
Qed.

Lemma arraySort_sameKey (k : Q) (l : list Layer) :
  filter (sameKey k) (arraySort compareFn l) = filter (sameKey k) l.
Proof.
  induction l as [| a l IH]; [reflexivity |].
  simpl arraySort. rewrite insertSorted_sameKey. simpl. now rewrite IH.
Qed.

(** Sorting what is sorted changes nothing. *)
Lemma arraySort_of_sorted (l : list Layer) :
  StronglySorted keyLe l -> arraySort compareFn l = l.
Proof.
  induction 1 as [| a l Hs IH Ha]; [reflexivity |].
  simpl. rewrite IH.
  destruct l as [| b l]; [reflexivity |].
  simpl. inversion Ha as [| ? ? Hab _]; subst.
  apply compareFn_not_positive in Hab. now rewrite Hab.
Qed.

Lemma before_filter {A} (p : A -> bool) (a b : A) (l : list A) :
  before a b (filter p l) -> before a b l.
Proof.
  induction l as [| c l IH]; simpl.
  - intros (l1 & l2 & l3 & H). destruct l1; discriminate.
  - destruct (p c) eqn:E.
    + intros (l1 & l2 & l3 & H). destruct l1 as [| c' l1].
      * simpl in H. injection H as -> H.
        assert (Hb : In b (filter p l)).
        { rewrite H. apply in_or_app. right. now left. }
        apply filter_In in Hb as [Hb _].
        apply in_split in Hb as (m1 & m2 & ->).
        now exists [], m1, m2.
      * simpl in H. injection H as -> H.
        destruct IH as (m1 & m2 & m3 & ->); [now exists l1, l2, l3 |].
        now exists (c' :: m1), m2, m3.
    + intro H. destruct (IH H) as (m1 & m2 & m3 & ->).
      now exists (c :: m1), m2, m3.
Qed.

Lemma filter_before {A} (p : A -> bool) (a b : A) (l : list A) :
  p a = true -> p b = true -> before a b l -> before a b (filter p l).
Proof.
  intros Ha Hb (l1 & l2 & l3 & ->).
  exists (filter p l1), (filter p l2), (filter p l3).
  rewrite filter_app. simpl. rewrite Ha, filter_app. simpl. now rewrite Hb.
Qed.

Lemma sorted_before (a b : Layer) (l : list Layer) :
  StronglySorted keyLe l -> before a b l -> orderKey a <= orderKey b.
Proof.
  intros Hs (l1 & l2 & l3 & ->).
  induction l1 as [| c l1 IH]; simpl in Hs.
  - inversion Hs as [| ? ? _ Hall]; subst.
    rewrite Forall_forall in Hall. apply Hall.
    apply in_or_app. right. now left.
  - inversion Hs; subst. auto.
Qed.

(** Order and stability leave no choice: two ascending lists that agree on
    the sequence of layers of every key are the same list. *)
Lemma stable_sorted_unique (l1 : list Layer) :
  forall l2,
  StronglySorted keyLe l1 -> StronglySorted keyLe l2 ->
  (forall k, filter (sameKey k) l1 = filter (sameKey k) l2) ->
  l1 = l2.
Proof.
  assert (Hself : forall c, sameKey (orderKey c) c = true)
    by (intro c; apply Qeq_bool_iff; reflexivity).
  assert (Hhead : forall a l b m,
            StronglySorted keyLe (a :: l) -> StronglySorted keyLe (b :: m) ->
            (forall k, filter (sameKey k) (a :: l) = filter (sameKey k) (b :: m)) ->
            orderKey a <= orderKey b).
  { intros a l b m Hs1 Hs2 H.
    destruct (sameKey (orderKey b) a) eqn:E.
    - apply Qeq_bool_iff in E. lra.
    - assert (Hin : In b (filter (sameKey (orderKey b)) (a :: l))).
      { rewrite H. simpl. rewrite Hself. now left. }
      simpl in Hin. rewrite E in Hin.
      apply filter_In in Hin as [Hin _].
      inversion Hs1 as [| ? ? _ Hall]; subst.
      rewrite Forall_forall in Hall. now apply Hall. }
  induction l1 as [| a l1 IH]; intros l2 Hs1 Hs2 H.
  - destruct l2 as [| b l2]; [reflexivity |].
    specialize (H (orderKey b)). simpl in H. rewrite Hself in H. discriminate.
  - destruct l2 as [| b l2].
    { specialize (H (orderKey a)). simpl in H. rewrite Hself in H.
      discriminate. }
    pose proof (Hhead _ _ _ _ Hs1 Hs2 H) as Hab.
    pose proof (Hhead _ _ _ _ Hs2 Hs1 (fun k => eq_sym (H k))) as Hba.
    assert (Eb : sameKey (orderKey a) b = true)
      by (apply Qeq_bool_iff; lra).
    pose proof (H (orderKey a)) as Ha. simpl in Ha.
    rewrite Hself, Eb in Ha. injection Ha as <- _.
    f_equal. inversion Hs1; inversion Hs2; subst.
    apply IH; auto.
    intro k. specialize (H k). simpl in H.
    destruct (sameKey k a); [now injection H | exact H].
Qed.

End OrderedView.

(** C6. The ordered view is the registered layers sorted by order key
    ([zIndex], a missing one counting as 0) ascending, layers of equal key
    staying in registration order; it is the only arrangement of the
    layers that is so.  Sorting the view again, as every tick does, gives
    the view itself, so repeated queries of an unchanged registry give
    the identical order. *)
Theorem sortedLayers_ascending_stable (layers : list Layer) :
  let key := fun l : Layer =>
               match zIndex l with
               | Some z => z
               | None => 0
               end in
  let view := UseLayer.sortedLayers layers in
  Permutation layers view /\
  StronglySorted (fun a b => key a <= key b) view /\
  (forall k, filter (fun l => Qeq_bool (key l) k) view
             = filter (fun l => Qeq_bool (key l) k) layers) /\
  (forall a b, Calls.before a b view ->
     key a < key b \/ (key a == key b /\ Calls.before a b layers)) /\
  (forall v,
     StronglySorted (fun a b => key a <= key b) v ->
     (forall k, filter (fun l => Qeq_bool (key l) k) v
                = filter (fun l => Qeq_bool (key l) k) layers) ->
     v = view) /\
  UseLayer.arraySort UseLayer.compareFn view = view /\
  UseLayer.sortedLayers view = view.
Proof.
  intros key view.
  change key with UseLayer.orderKey. clear key.
  subst view. unfold UseLayer.sortedLayers.
  pose proof (arraySort_sorted layers) as Hs.
  split; [apply arraySort_perm |].
  split; [exact Hs |].
  split; [intro k; apply (arraySort_sameKey k) |].
  split.
  - intros a b Hab.
    pose proof (sorted_before a b _ Hs Hab) as Hle.
    destruct (Qlt_le_dec (UseLayer.orderKey a) (UseLayer.orderKey b))
      as [Hlt | Hge]; [now left | right].
    assert (Heq : UseLayer.orderKey a == UseLayer.orderKey b) by lra.
    split; [exact Heq |].
    apply (before_filter (Calls.sameKey (UseLayer.orderKey b))).
    rewrite <- arraySort_sameKey.
    apply filter_before; auto; unfold Calls.sameKey; apply Qeq_bool_iff;
      [exact Heq | reflexivity].
  - split; [| split; now apply arraySort_of_sorted].
    intros v Hv Hk. apply stable_sorted_unique; auto.
    intro k. rewrite (arraySort_sameKey k). apply Hk.
Qed.

(** ** Sequences of calls *)

Section CallSequences.

Import Calls.

Lemma bind_assoc {A B C} (m : Eff A) (f : A -> Eff B) (g : B -> Eff C) :
  bind (bind m f) g = bind m (fun a => bind (f a) g).
Proof.
  destruct m as [t [a |]]; simpl; [| reflexivity].
  destruct (f a) as [t1 [b |]]; simpl; [| reflexivity].
  destruct (g b) as [t2 r]. now rewrite app_assoc.
Qed.

Lemma bind_ret_l {A} (m : Eff A) : ret tt ;; m = m.
Proof. unfold bind, ret. now destruct m. Qed.

Lemma bind_ret_r (m : Eff unit) : m ;; ret tt = m.
Proof.
  destruct m as [t [[] |]]; simpl; [| reflexivity]. now rewrite app_nil_r.
Qed.

Lemma runCalls_app (cs1 cs2 : callList) :
  runCalls (cs1 ++ cs2) = runCalls cs1 ;; runCalls cs2.
Proof.
  induction cs1 as [| [e cb] cs1 IH]; cbn [runCalls app].
  - symmetry. apply bind_ret_l.
  - now rewrite IH, bind_assoc.
Qed.

Lemma runCalls_one (e : event) (cb : callback) :
  runCalls [(e, cb)] = call e cb.
Proof. cbn [runCalls]. apply bind_ret_r. Qed.

Lemma whenSome_calls (e : event) (slot : option callback) :
  whenSome slot (call e) = runCalls (slotCall e slot).
Proof.
  destruct slot as [cb |]; cbn [whenSome slotCall runCalls]; [| reflexivity].
  symmetry. apply bind_ret_r.
Qed.

Lemma forOf_calls (body : Layer -> Eff unit) (calls : Layer -> callList)
    (layers : list Layer) :
  (forall l, body l = runCalls (calls l)) ->
  forOf layers body = runCalls (flat_map calls layers).
Proof.
  intro H. induction layers as [| l layers IH]; cbn [forOf flat_map];
    [reflexivity |].
  now rewrite runCalls_app, H, IH.
Qed.

Lemma trace_runCalls (cs : callList) : trace (runCalls cs) = untilThrow cs.
Proof.
  induction cs as [| [e [|]] cs IH]; simpl; try reflexivity.
  unfold trace in *. destruct (runCalls cs) as [t r]. simpl in *. now subst.
Qed.

Lemma completed_runCalls (cs : callList) :
  completed (runCalls cs) = allReturn cs.
Proof.
  induction cs as [| [e [|]] cs IH]; simpl; try reflexivity.
  unfold completed in *. destruct (runCalls cs) as [t r]. simpl in *.
  exact IH.
Qed.

Lemma untilThrow_allReturn (cs : callList) :
  allReturn cs = true -> untilThrow cs = map fst cs.
Proof.
  induction cs as [| [e [|]] cs IH]; simpl; intro H;
    [reflexivity | now rewrite IH | discriminate].
Qed.

(** The calls made are an initial part of the calls listed. *)
Lemma untilThrow_prefix (cs : callList) :
  exists rest, map fst cs = untilThrow cs ++ rest.
Proof.
  induction cs as [| [e [|]] cs [rest IH]]; simpl.
  - now exists [].
  - exists rest. now rewrite IH.
  - now exists (map fst cs).
Qed.

(** Looking only at the calls that satisfy [p], when every other call of
    [cs] returns and nothing of [post] satisfies [p]. *)
Lemma filter_untilThrow (p : event -> bool) (cs post : callList) :
  Forall (fun c => p (fst c) = false -> snd c = Returns) cs ->
  Forall (fun c => p (fst c) = false) post ->
  filter p (untilThrow (cs ++ post)) =
  untilThrow (filter (fun c => p (fst c)) cs).
Proof.
  intros Hcs Hpost. induction Hcs as [| [e cb] cs Hc _ IH]; simpl.
  - induction Hpost as [| [e cb] post He _ IH]; simpl; [reflexivity |].
    simpl in He. destruct cb; simpl; rewrite He; [exact IH | reflexivity].
  - simpl in Hc. destruct (p e) eqn:E.
    + destruct cb; simpl; rewrite E; [now rewrite IH | reflexivity].
    + rewrite (Hc eq_refl). simpl. rewrite E. exact IH.
Qed.

End CallSequences.

(** ** The composition pipeline (Cam, [processFrame]) *)

Section Pipeline.

Import Calls.

Lemma processLayer_calls (layer : Layer) :
  Cam.processLayer layer = runCalls (processLayerCalls layer).
Proof.
  unfold Cam.processLayer, processLayerCalls.
  destruct (Cam.hidden layer); [reflexivity |].
  destruct (onFrame layer) as [[|] |], (render layer) as [[|] |];
    reflexivity.
Qed.

Lemma renderFrame_calls (props : CamProps.CamProps) (managed : list Layer) :
  Cam.renderFrame props managed = runCalls (renderFrameCalls props managed).
Proof.
  unfold Cam.renderFrame, renderFrameCalls.
  rewrite (forOf_calls _ processLayerCalls) by apply processLayer_calls.
  rewrite whenSome_calls.
  cbn [app runCalls]. rewrite !runCalls_app, runCalls_one.
  reflexivity.
Qed.

(** An accepted frame: the source is ready and the frame is due. *)
Lemma processFrame_accepted (props : CamProps.CamProps) (env : Cam.RenderEnv)
    (managed : list Layer) (now : Q) (refs : Cam.Refs) :
  sourceReady env = true -> frameDue props now refs = true ->
  snd (Cam.processFrame props env managed now refs)
  = Cam.renderFrame props managed.
Proof.
  unfold sourceReady, frameDue, Cam.processFrame.
  rewrite !andb_true_iff, negb_true_iff.
  intros [[[[-> ->] ->] ->] ->] ->. reflexivity.
Qed.

Lemma processLayerCalls_others_return (layers : list Layer) :
  Forall (fun c => isLayerFrameCallback (fst c) = false -> snd c = Returns)
         (flat_map processLayerCalls layers).
Proof.
  apply Forall_flat_map, Forall_forall. intros layer _.
  unfold processLayerCalls.
  destruct (Cam.hidden layer); [constructor |].
  destruct (onFrame layer), (render layer); simpl;
    repeat constructor; simpl; discriminate.
Qed.

Lemma processLayerCalls_callbacks (layers : list Layer) :
  filter (fun c => isLayerFrameCallback (fst c))
         (flat_map processLayerCalls layers)
  = flat_map layerInvocations (filter (fun l => negb (Cam.hidden l)) layers).
Proof.
  induction layers as [| layer layers IH]; [reflexivity |].
  cbn [flat_map filter]. rewrite filter_app, IH.
  unfold processLayerCalls, layerInvocations.
  destruct (Cam.hidden layer); [reflexivity |].
  cbn [negb flat_map]. f_equal.
  destruct (onFrame layer), (render layer); reflexivity.
Qed.

Lemma filter_sorted (p : Layer -> bool) (l : list Layer) :
  StronglySorted keyLe l -> StronglySorted keyLe (filter p l).
Proof.
  induction 1 as [| a l Hs IH Ha]; simpl; [constructor |].
  destruct (p a); [| exact IH].
  constructor; [exact IH |].
  rewrite Forall_forall in *. intros b Hb.
  apply filter_In in Hb as [Hb _]. auto.
Qed.

Lemma filter_swap (p q : Layer -> bool) (l : list Layer) :
  filter p (filter q l) = filter q (filter p l).
Proof.
  induction l as [| a l IH]; simpl; [reflexivity |].
  destruct (q a) eqn:Eq, (p a) eqn:Ep; simpl; rewrite ?Eq, ?Ep, IH;
    reflexivity.
Qed.

(** The callbacks of layers that an accepted frame invokes. *)
Lemma renderFrame_layer_callbacks (props : CamProps.CamProps)
    (layers : list Layer) :
  filter isLayerFrameCallback
    (trace (Cam.renderFrame props (UseLayer.sortedLayers layers)))
  = untilThrow (flat_map layerInvocations (visibleInOrder layers)).
Proof.
  rewrite renderFrame_calls, trace_runCalls.
  unfold renderFrameCalls, visibleInOrder.
  rewrite (arraySort_of_sorted (UseLayer.sortedLayers layers))
    by apply arraySort_sorted.
  cbn [app untilThrow filter isLayerFrameCallback].
  rewrite filter_untilThrow.
  - now rewrite processLayerCalls_callbacks.
  - apply processLayerCalls_others_return.
  - destruct (CamProps.onFrame props); repeat constructor.
Qed.

End Pipeline.

(** C7. On an accepted tick the layers visited are the registered layers
    whose visible flag is not false, in ascending order of [zIndex] (a
    missing one counting as 0) and, for equal keys, in registration
    order; each visited layer has its per-frame callback, if present,
    invoked before its draw callback, if present: the layer callbacks
    invoked are an initial part of that sequence, and all of it when no
    callback throws.  Layers A (order 1) and B (order 2), registered in
    either order, give the sequence A.onFrame, A.draw, B.onFrame,
    B.draw. *)
Theorem tick_invokes_visible_layers_in_order
    (props : CamProps.CamProps) (env : Cam.RenderEnv) (layers : list Layer)
    (now : Q) (refs : Cam.Refs)
    (Hready : Calls.sourceReady env = true)
    (Hdue : Calls.frameDue props now refs = true) :
  let key := fun l : Layer =>
               match zIndex l with
               | Some z => z
               | None => 0
               end in
  let shown := fun l : Layer =>
                 match visible l with
                 | Some false => false
                 | _ => true
                 end in
  let tick :=
    snd (Cam.processFrame props env (UseLayer.sortedLayers layers) now refs) in
  let invoked := filter Calls.isLayerFrameCallback (trace tick) in
  let visited := Calls.visibleInOrder layers in
  let sequence := flat_map Calls.layerInvocations visited in
  (forall l, In l visited <-> In l layers /\ visible l <> Some false) /\
  StronglySorted (fun a b => key a <= key b) visited /\
  (forall k, filter (fun l => Qeq_bool (key l) k) visited
             = filter (fun l => Qeq_bool (key l) k) (filter shown layers)) /\
  (exists rest, map fst sequence = invoked ++ rest) /\
  (Calls.allReturn sequence = true -> invoked = map fst sequence) /\
  (layers = [Samples.drawingLayer "A" 1 Returns Returns;
             Samples.drawingLayer "B" 2 Returns Returns] \/
   layers = [Samples.drawingLayer "B" 2 Returns Returns;
             Samples.drawingLayer "A" 1 Returns Returns] ->
   invoked = [EvLayerOnFrame "A"; EvLayerRender "A";
              EvLayerOnFrame "B"; EvLayerRender "B"]).
Proof.
  intros key shown tick invoked visited sequence.
  assert (Hinv : invoked = Calls.untilThrow sequence).
  { subst invoked tick sequence visited.
    rewrite processFrame_accepted by assumption.
    apply renderFrame_layer_callbacks. }
  assert (Hshown : forall l, shown l = negb (Cam.hidden l)).
  { intro l. unfold shown, Cam.hidden. now destruct (visible l) as [[|] |]. }
  split; [| split; [| split; [| split; [| split]]]].
  - intro l. subst visited. unfold Calls.visibleInOrder. rewrite filter_In.
    assert (Hperm := arraySort_perm layers).
    unfold Cam.hidden. split.
    + intros [Hin Hvis]. split.
      * eapply Permutation_in; [symmetry; exact Hperm | exact Hin].
      * intro E. rewrite E in Hvis. discriminate.
    + intros [Hin Hvis]. split.
      * eapply Permutation_in; [exact Hperm | exact Hin].
      * destruct (visible l) as [[|] |]; auto; try (now elim Hvis).
  - subst visited. unfold Calls.visibleInOrder.
    change key with UseLayer.orderKey.
    apply filter_sorted. apply arraySort_sorted.
  - intro k. subst visited. unfold Calls.visibleInOrder.
    change key with UseLayer.orderKey.
    rewrite (filter_ext shown (fun l => negb (Cam.hidden l)) Hshown).
    rewrite !(filter_swap (fun l => Qeq_bool (UseLayer.orderKey l) k)).
    f_equal. apply (arraySort_sameKey k).
  - rewrite Hinv. apply untilThrow_prefix.
  - intro H. rewrite Hinv. now apply untilThrow_allReturn.
  - intros [E | E]; rewrite Hinv; subst sequence visited; rewrite E;
      reflexivity.
Qed.

(** ** A layer callback that throws *)

Section ClockCompletes.

Import UseFrameProcessor.

(** The three ways an invocation of the clock can go. *)
Lemma processFrame_cases (opts : FrameProcessorOptions) (onFrame : callback)
    (now : Q) (refs : Refs) :
  enabled opts = true ->
  let elapsed := jssub (Fin now) (lastFrameTime refs) in
  processFrame opts onFrame now refs =
    if jslt elapsed (targetFrameTime opts) || isProcessing refs
    then ([EvRequestAnimationFrame], Some refs)
    else
      (match onFrame with
       | Returns => [EvOnFrame]
       | Throws => [EvOnFrame; EvConsole ErrorProcessingFrame]
       end ++ [EvRequestAnimationFrame],
       Some {| lastFrameTime :=
                 jssub (Fin now) (jsrem elapsed (targetFrameTime opts));
               frameCount := (frameCount refs + 1)%Z;
               isProcessing := false |}).
Proof.
  intros He elapsed. unfold processFrame. rewrite He. cbn [negb].
  fold elapsed.
  destruct (jslt elapsed (targetFrameTime opts)); [reflexivity |].
  destruct (isProcessing refs); [reflexivity |].
  destruct onFrame; reflexivity.
Qed.

End ClockCompletes.

(** C2, as the code has it.  In the component's tick the layer callbacks
    invoked are those of the ordered visible layers up to and including
    the first one that throws; no callback of a later layer is invoked in
    that tick.  In the frame clock, an error thrown by the tick callback is
    caught and reported on the console, the invocation completes, the
    processing flag is cleared and the next tick is requested. *)
Theorem layer_failure_ends_round_and_clock_catches
    (props : CamProps.CamProps) (env : Cam.RenderEnv) (layers : list Layer)
    (now : Q) (refs : Cam.Refs)
    (opts : UseFrameProcessor.FrameProcessorOptions) (onFrame : callback)
    (clock : UseFrameProcessor.Refs)
    (Hready : Calls.sourceReady env = true)
    (Hdue : Calls.frameDue props now refs = true)
    (Henabled : UseFrameProcessor.enabled opts = true) :
  let tick :=
    snd (Cam.processFrame props env (UseLayer.sortedLayers layers) now refs) in
  let invocation := UseFrameProcessor.processFrame opts onFrame now clock in
  filter Calls.isLayerFrameCallback (trace tick)
    = Calls.untilThrow
        (flat_map Calls.layerInvocations (Calls.visibleInOrder layers)) /\
  completed invocation = true /\
  (exists t, trace invocation = t ++ [EvRequestAnimationFrame]) /\
  (forall refs', snd invocation = Some refs' ->
                 In EvOnFrame (trace invocation) ->
                 UseFrameProcessor.isProcessing refs' = false) /\
  (In EvOnFrame (trace invocation) -> onFrame = Throws ->
   trace invocation
     = [EvOnFrame; EvConsole ErrorProcessingFrame; EvRequestAnimationFrame]).
Proof.
  intros tick invocation. split.
  - subst tick. rewrite processFrame_accepted by assumption.
    apply renderFrame_layer_callbacks.
  - subst invocation. rewrite processFrame_cases by assumption.
    destruct (jslt _ _ || UseFrameProcessor.isProcessing clock) eqn:E.
    + repeat split.
      * now exists [].
      * intros refs' _ [H | []]. discriminate.
      * intros [H | []]. discriminate.
    + apply orb_false_iff in E as [_ E]. repeat split.
      * eexists. reflexivity.
      * now intros refs' [= <-] _.
      * intros _ ->. reflexivity.
Qed.

(** C2 fails as stated: layer A throws in its per-frame callback, and
    layer B, next in order, is not invoked in that tick. *)
Lemma failing_layer_stops_later_layers :
  let layers := [Samples.drawingLayer "A" 1 Throws Returns;
                 Samples.drawingLayer "B" 2 Returns Returns] in
  let tick :=
    snd (Cam.processFrame (Samples.noProps 20) Samples.readyEnv
           (UseLayer.sortedLayers layers) 100
           {| Cam.lastFrameTime := Fin 0; Cam.frameCounter := 0 |}) in
  trace tick = [EvDrawImage; EvGetImageData; EvLayerOnFrame "A"] /\
  ~ In (EvLayerOnFrame "B") (trace tick) /\
  ~ Claims.layerFailureIsolated layers tick.
Proof.
  assert (E : trace (snd (Cam.processFrame (Samples.noProps 20)
                Samples.readyEnv
                (UseLayer.sortedLayers
                   [Samples.drawingLayer "A" 1 Throws Returns;
                    Samples.drawingLayer "B" 2 Returns Returns]) 100
                {| Cam.lastFrameTime := Fin 0; Cam.frameCounter := 0 |}))
              = [EvDrawImage; EvGetImageData; EvLayerOnFrame "A"])
    by (vm_compute; reflexivity).
  cbv zeta. split; [exact E |]. split.
  - rewrite E. simpl. intuition discriminate.
  - intros (H & _). rewrite E in H. vm_compute in H. discriminate.
Qed.

(** ** Pointer events (Cam, [handleCanvasClick], [handleCanvasTouch]) *)

Section Pointer.

Import Calls.

Lemma handleCanvasClick_calls (props : CamProps.CamProps) (rect : Cam.DOMRect)
    (managed : list Layer) (event : Cam.ClientPoint) :
  let px := Cam.clientX event - Cam.left rect in
  let py := Cam.clientY event - Cam.top rect in
  Cam.handleCanvasClick props (Some rect) managed event
  = runCalls (flat_map (clickCalls px py) managed ++
              slotCall (EvOnClick px py) (CamProps.onClick props)).
Proof.
  intros px py. unfold Cam.handleCanvasClick. fold px py.
  rewrite (forOf_calls _ (clickCalls px py))
    by (intro l; apply whenSome_calls).
  now rewrite whenSome_calls, runCalls_app.
Qed.

Lemma clickCalls_only_layer_handlers (px py : Q) (managed : list Layer) :
  Forall (fun c => isLayerPointerCallback (fst c) = false -> snd c = Returns)
         (flat_map (clickCalls px py) managed).
Proof.
  apply Forall_flat_map, Forall_forall. intros layer _.
  unfold clickCalls. destruct (Cam.interactiveWith onClick layer);
    repeat constructor; simpl; discriminate.
Qed.

Lemma clickCalls_filter (px py : Q) (managed : list Layer) :
  filter (fun c => isLayerPointerCallback (fst c))
         (flat_map (clickCalls px py) managed)
  = flat_map (clickCalls px py) managed.
Proof.
  induction managed as [| l managed IH]; [reflexivity |].
  cbn [flat_map]. rewrite filter_app, IH. f_equal.
  unfold clickCalls. now destruct (Cam.interactiveWith onClick l).
Qed.

Lemma clickCalls_handlers (px py : Q) (managed : list Layer) :
  map fst (flat_map (clickCalls px py) managed)
  = map (fun l => EvLayerOnClick (id l) px py)
        (filter Claims.hasClickHandler managed).
Proof.
  induction managed as [| l managed IH]; [reflexivity |].
  cbn [flat_map filter]. rewrite map_app, IH.
  unfold clickCalls, Claims.hasClickHandler.
  now destruct (Cam.interactiveWith onClick l).
Qed.

End Pointer.

(** C1, as the code has it.  A click (and a touch, through its first touch
    point) invokes the click handler of every layer that is flagged
    interactive and has one, in the ascending order of the view and
    whatever the point is, up to the first handler that throws; when none
    throws the top-level click observer, if configured, is called last. *)
Theorem click_invokes_every_interactive_layer
    (props : CamProps.CamProps) (rect : Cam.DOMRect) (layers : list Layer)
    (event : Cam.ClientPoint) (moreTouches : list Cam.ClientPoint) :
  let managed := UseLayer.sortedLayers layers in
  let px := Cam.clientX event - Cam.left rect in
  let py := Cam.clientY event - Cam.top rect in
  let click := Cam.handleCanvasClick props (Some rect) managed event in
  let handlers := flat_map (Calls.clickCalls px py) managed in
  Cam.handleCanvasTouch props (Some rect) managed (event :: moreTouches)
    = click /\
  filter Calls.isLayerPointerCallback (trace click)
    = Calls.untilThrow handlers /\
  (Calls.allReturn handlers = true ->
   filter Calls.isLayerPointerCallback (trace click)
     = map (fun l => EvLayerOnClick (id l) px py)
           (filter Claims.hasClickHandler managed) /\
   exists observer,
     trace click
       = map (fun l => EvLayerOnClick (id l) px py)
             (filter Claims.hasClickHandler managed) ++ observer /\
     observer = match CamProps.onClick props with
                | Some _ => [EvOnClick px py]
                | None => []
                end).
Proof.
  intros managed px py click handlers.
  split; [reflexivity |].
  assert (Hfilter : filter Calls.isLayerPointerCallback (trace click)
                    = Calls.untilThrow handlers).
  { subst click. rewrite handleCanvasClick_calls, trace_runCalls.
    fold px py handlers. rewrite filter_untilThrow.
    - subst handlers. now rewrite clickCalls_filter.
    - apply clickCalls_only_layer_handlers.
    - destruct (CamProps.onClick props); repeat constructor. }
  split; [exact Hfilter |].
  intro Hret. split.
  - rewrite Hfilter, (untilThrow_allReturn _ Hret).
    apply clickCalls_handlers.
  - eexists. split; [| reflexivity].
    subst click. rewrite handleCanvasClick_calls, trace_runCalls.
    fold px py handlers.
    rewrite <- clickCalls_handlers. fold handlers.
    clear Hfilter. induction handlers as [| [e [|]] hs IH]; simpl in *.
    + now destruct (CamProps.onClick props) as [[|] |].
    + now rewrite IH.
    + discriminate.
Qed.

(** C1 fails as stated: a click at (30, 30) with interactive layers A
    (order 1) and B (order 2) invokes the handlers of both, A first,
    where only B, the topmost, should be invoked; and a click at
    (200, 200), outside the box of the only detection, still invokes
    both. *)
Lemma click_reaches_layers_underneath :
  let managed := UseLayer.sortedLayers
                   [Samples.clickableLayer "A" 1;
                    Samples.clickableLayer "B" 2] in
  let rect := {| Cam.left := 0; Cam.top := 0 |} in
  let click px py :=
    trace (Cam.handleCanvasClick (Samples.noProps 20) (Some rect) managed
             {| Cam.clientX := px; Cam.clientY := py |}) in
  click 30 30 = [EvLayerOnClick "A" (30 - 0) (30 - 0);
                 EvLayerOnClick "B" (30 - 0) (30 - 0)] /\
  ~ Claims.onlyTopmostInvoked Claims.claimsWholeCanvas managed
      (30 - 0) (30 - 0) (click 30 30) /\
  ~ Claims.onlyTopmostInvoked
      (Claims.claimsDetections [Samples.faceDetection]) managed
      (200 - 0) (200 - 0) (click 200 200).
Proof.
  cbv zeta. split; [reflexivity |]. split.
  - unfold Claims.onlyTopmostInvoked. vm_compute. discriminate.
  - unfold Claims.onlyTopmostInvoked. vm_compute. discriminate.
Qed.

(** ** Unregistering a layer ([removeLayer], lifecycle cleanup) *)

Section Unregister.

Import UseLayer Calls.

Lemma removeLayer_absent (layerId : string) (layers : list Layer) :
  ~ In layerId (ids layers) -> fst (removeLayer layerId layers) = layers.
Proof.
  unfold removeLayer, ids. simpl.
  induction layers as [| l layers IH]; simpl; intro H; [reflexivity |].
  destruct (String.eqb_spec (id l) layerId) as [E | E]; simpl.
  - elim H. now left.
  - rewrite IH; auto.
Qed.

Lemma removeLayer_present (layerId : string) (layers : list Layer) :
  NoDup (ids layers) -> In layerId (ids layers) ->
  exists l1 layer l2,
    layers = l1 ++ layer :: l2 /\ id layer = layerId /\
    fst (removeLayer layerId layers) = l1 ++ l2.
Proof.
  induction layers as [| l layers IH]; simpl; intros Hnd Hin; [contradiction |].
  inversion Hnd as [| ? ? Hnotin Hnd']; subst.
  destruct (String.eqb (id l) layerId) eqn:E.
  - apply String.eqb_eq in E.
    exists [], l, layers. repeat split; auto.
    apply (removeLayer_absent layerId layers). now rewrite <- E.
  - apply String.eqb_neq in E.
    destruct Hin as [Hin | Hin]; [contradiction |].
    destruct (IH Hnd' Hin) as (l1 & layer & l2 & -> & Hid & Hrm).
    exists (l :: l1), layer, l2. repeat split; auto.
    simpl in *. now rewrite Hrm.
Qed.

Lemma unmountLayers_calls (env : Cam.RenderEnv) (managed : list Layer) :
  Cam.isReady env = true -> Cam.canvasMounted env = true ->
  Cam.unmountLayers env managed = runCalls (flat_map unmountCalls managed).
Proof.
  intros Hr Hc. unfold Cam.unmountLayers. rewrite Hr, Hc. cbn [negb orb].
  apply forOf_calls. intro l. apply whenSome_calls.
Qed.

End Unregister.

(** C8, as the code has it.  With pairwise-distinct ids, [removeLayer]
    removes exactly the layer of the given id and leaves every other layer
    as it was and where it was; for an absent id the list is unchanged;
    in both cases nothing is written to the console and no callback is
    invoked by [removeLayer].  Unmount callbacks are invoked by the
    cleanup of the component's lifecycle effect, which visits every layer
    of the previous view in view order, up to the first callback that
    throws: a layer of that view with an unmount callback has it invoked
    when the callbacks return. *)
Theorem removeLayer_removes_exactly_one_silently
    (layers : list Layer) (layerId : string) (env : Cam.RenderEnv)
    (Hdistinct : NoDup (Calls.ids layers))
    (Hready : Cam.isReady env = true)
    (Hcanvas : Cam.canvasMounted env = true) :
  let cleanup := Cam.unmountLayers env (UseLayer.sortedLayers layers) in
  (In layerId (Calls.ids layers) ->
   exists l1 layer l2,
     layers = l1 ++ layer :: l2 /\ id layer = layerId /\
     fst (UseLayer.removeLayer layerId layers) = l1 ++ l2) /\
  (~ In layerId (Calls.ids layers) ->
   fst (UseLayer.removeLayer layerId layers) = layers) /\
  snd (UseLayer.removeLayer layerId layers) = [] /\
  trace cleanup
    = Calls.untilThrow
        (flat_map Calls.unmountCalls (UseLayer.sortedLayers layers)) /\
  (Calls.allReturn
     (flat_map Calls.unmountCalls (UseLayer.sortedLayers layers)) = true ->
   forall layer cb, In layer layers -> onUnmount layer = Some cb ->
                    In (EvLayerOnUnmount (id layer)) (trace cleanup)).
Proof.
  intro cleanup.
  assert (Htrace : trace cleanup = Calls.untilThrow
            (flat_map Calls.unmountCalls (UseLayer.sortedLayers layers))).
  { subst cleanup. rewrite unmountLayers_calls by assumption.
    apply trace_runCalls. }
  split; [now apply removeLayer_present |].
  split; [apply removeLayer_absent |].
  split; [reflexivity |].
  split; [exact Htrace |].
  intros Hret layer cb Hin Hcb.
  rewrite Htrace, (untilThrow_allReturn _ Hret).
  apply in_map_iff. exists (EvLayerOnUnmount (id layer), cb).
  split; [reflexivity |].
  apply in_flat_map. exists layer. split.
  - eapply Permutation_in; [apply arraySort_perm | exact Hin].
  - unfold Calls.unmountCalls. rewrite Hcb. now left.
Qed.

(** C8 fails as stated: unregistering the absent id "ghost" leaves the
    registry unchanged but reports nothing. *)
Lemma removeLayer_absent_id_not_reported :
  let layers := [Samples.plainLayer "A" 1; Samples.plainLayer "B" 2] in
  UseLayer.removeLayer "ghost" layers = (layers, []) /\
  ~ Claims.reportedNoOp layers (UseLayer.removeLayer "ghost" layers).
Proof.
  cbv zeta. split; [reflexivity |].
  intros [_ H]. now apply H.
Qed.

(** ** The frame clock (useFrameProcessor.ts) *)


(** ** Binary64 numbers *)

Section Binary64Facts.

Import SpecFloat Binary64.

Local Open Scope Z_scope.

Lemma compare_refl (a : float) :
  isNaN a = false -> compare a a = Some Eq.
Proof.
  destruct a as [s | s | | s m e]; simpl; try discriminate; intros _.
  - reflexivity.
  - now destruct s.
  - now rewrite Z.compare_refl.
Qed.

Lemma compare_antisym (a b : float) :
  compare b a = option_map CompOpp (compare a b).
Proof.
  destruct a as [sa | sa | | sa ma ea], b as [sb | sb | | sb mb eb]; simpl;
    try reflexivity;
    try (destruct sa; reflexivity); try (destruct sb; reflexivity);
    try (destruct sa, sb; reflexivity).
  rewrite (Z.min_comm eb ea), Z.compare_antisym. reflexivity.
Qed.

Lemma leb_refl (a : float) : isNaN a = false -> leb a a = true.
Proof. intro H. unfold leb. now rewrite compare_refl. Qed.

Lemma leb_not_NaN (a b : float) :
  leb a b = true -> isNaN a = false /\ isNaN b = false.
Proof.
  unfold leb. destruct a, b; simpl; try discriminate; now split.
Qed.

Lemma compare_not_NaN (a b : float) :
  isNaN a = false -> isNaN b = false -> exists c, compare a b = Some c.
Proof.
  destruct a, b; simpl; try discriminate; intros _ _; eauto.
Qed.


Lemma ltb_false_leb (a b : float) :
  isNaN a = false -> isNaN b = false -> ltb a b = false -> leb b a = true.
Proof.
  intros Ha Hb. destruct (compare_not_NaN a b Ha Hb) as [c Hc].
  unfold leb, ltb. rewrite (compare_antisym a b), Hc.
  destruct c; simpl; congruence.
Qed.

(** The sign of a rounded result is the sign it was given. *)
Lemma binary_round_aux_sign (s : bool) (m e : Z) (l : location) :
  let r := binary_round_aux prec emax s m e l in
  r = S754_zero s \/ r = S754_infinity s \/ r = S754_nan \/
  exists m' e', r = S754_finite s m' e'.
Proof.
  unfold binary_round_aux.
  destruct (shr_fexp prec emax m e l) as [mrs' e'].
  destruct (shr_fexp prec emax _ e' loc_Exact) as [mrs'' e''].
  destruct (shr_m mrs''); [now left | | now right; right; left].
  destruct (e'' <=? emax - prec); [| now right; left].
  right; right; right. eauto.
Qed.

Lemma shr_1_nonneg (mrs : shr_record) :
  0 <= shr_m mrs -> 0 <= shr_m (shr_1 mrs).
Proof.
  destruct mrs as [m r s]. simpl.
  destruct m as [| [p | p |] | p]; simpl; lia.
Qed.

Lemma iter_shr_1_nonneg (p : positive) :
  forall mrs, 0 <= shr_m mrs -> 0 <= shr_m (iter_pos shr_1 p mrs).
Proof.
  induction p as [p IH | p IH |]; intros mrs H; simpl.
  - apply IH, IH, shr_1_nonneg, H.
  - apply IH, IH, H.
  - apply shr_1_nonneg, H.
Qed.

Lemma shr_fexp_nonneg (m e : Z) (l : location) :
  0 <= m -> 0 <= shr_m (fst (shr_fexp prec emax m e l)).
Proof.
  intro H. unfold shr_fexp, shr.
  assert (H0 : 0 <= shr_m (shr_record_of_loc m l))
    by (destruct l as [| []]; exact H).
  destruct (fexp prec emax (Zdigits2 m + e) - e); simpl;
    [exact H0 | apply iter_shr_1_nonneg, H0 | exact H0].
Qed.

Lemma round_nearest_even_nonneg (m : Z) (l : location) :
  0 <= m -> 0 <= round_nearest_even m l.
Proof.
  intro H. destruct l as [| []]; simpl; try lia.
  destruct (Z.even m); lia.
Qed.

(** Rounding a mantissa that is not negative never gives NaN. *)
Lemma binary_round_aux_number (s : bool) (m e : Z) (l : location) :
  0 <= m -> isNaN (binary_round_aux prec emax s m e l) = false.
Proof.
  intro H. unfold binary_round_aux.
  pose proof (shr_fexp_nonneg m e l H) as H1.
  destruct (shr_fexp prec emax m e l) as [mrs' e']. simpl in H1.
  pose proof (shr_fexp_nonneg _ e' loc_Exact
                (round_nearest_even_nonneg _ (loc_of_shr_record mrs') H1))
    as H2.
  destruct (shr_fexp prec emax _ e' loc_Exact) as [mrs'' e'']. simpl in H2.
  destruct (shr_m mrs''); [reflexivity | | lia].
  now destruct (e'' <=? emax - prec).
Qed.

Lemma binary_round_sign (s : bool) (m : positive) (e : Z) :
  let r := binary_round prec emax s m e in
  isNaN r = false /\
  (r = S754_zero s \/ r = S754_infinity s \/
   exists m' e', r = S754_finite s m' e').
Proof.
  unfold binary_round.
  destruct (shl_align m e _) as [mz ez].
  pose proof (binary_round_aux_number s (Zpos mz) ez loc_Exact) as Hn.
  pose proof (binary_round_aux_sign s (Zpos mz) ez loc_Exact) as Hs.
  cbv zeta in Hs. rewrite Hn by lia. split; [reflexivity |].
  destruct Hs as [-> | [-> | [E | Hs]]]; auto.
  rewrite E in Hn. simpl in Hn. specialize (Hn ltac:(lia)). discriminate.
Qed.

(** A number that is not negative: [a < 0] is false (so is NaN). *)
Lemma not_negative_cases (a : float) :
  ltb a zero = false <->
  a = S754_nan \/ (exists s, a = S754_zero s) \/ a = S754_infinity false \/
  exists m e, a = S754_finite false m e.
Proof.
  split.
  - destruct a as [s | [] | | [] m e]; simpl; try discriminate; intros _;
      eauto 6.
  - intros [-> | [[s ->] | [-> | (m & e & ->)]]]; reflexivity.
Qed.

(** The difference [a - b] of two numbers with [b <= a] is not
    negative. *)
Lemma sub_finite_not_negative (sa sb : bool) (ma mb : positive) (ea eb : Z) :
  leb (S754_finite sb mb eb) (S754_finite sa ma ea) = true ->
  ltb (sub (S754_finite sa ma ea) (S754_finite sb mb eb)) zero = false.
Proof.
  unfold leb, compare. intro H.
  assert (Hle : aligned sb mb eb (Z.min eb ea)
                <= aligned sa ma ea (Z.min eb ea)).
  { destruct (Z.compare_spec (aligned sb mb eb (Z.min eb ea))
                             (aligned sa ma ea (Z.min eb ea))) as [E | E | E];
      [lia | lia | discriminate]. }
  unfold sub, SFsub. rewrite (Z.min_comm eb ea) in Hle.
  unfold aligned in Hle.
  set (d := cond_Zopp sa _ - cond_Zopp sb _) in *.
  assert (Hd : 0 <= d) by (subst d; lia).
  unfold binary_normalize.
  destruct d as [| p | p]; [reflexivity | | lia].
  destruct (binary_round_sign false p (Z.min ea eb))
    as (_ & [-> | [-> | (m' & e' & ->)]]); reflexivity.
Qed.

Lemma sub_not_negative (a b : float) :
  leb b a = true -> ltb (sub a b) zero = false.
Proof.
  destruct a as [sa | sa | | sa ma ea], b as [sb | sb | | sb mb eb];
    try apply sub_finite_not_negative;
    try discriminate;
    try (destruct sa; try destruct sb; simpl; (discriminate || reflexivity));
    try (destruct sb; simpl; (discriminate || reflexivity)).
Qed.

(** The product of two numbers that are not negative is not negative. *)
Lemma mul_not_negative (a b : float) :
  ltb a zero = false -> ltb b zero = false -> ltb (mul a b) zero = false.
Proof.
  intros Ha Hb.
  apply not_negative_cases in Ha, Hb.
  destruct Ha as [-> | [[sa ->] | [-> | (ma & ea & ->)]]];
    destruct Hb as [-> | [[sb ->] | [-> | (mb & eb & ->)]]];
    try reflexivity.
  unfold mul, SFmul. cbn [xorb].
  destruct (binary_round_aux_sign false (Zpos (ma * mb)) (ea + eb) loc_Exact)
    as [-> | [-> | [-> | (m' & e' & ->)]]]; reflexivity.
Qed.



End Binary64Facts.

(** ** Rounding of binary64 sums *)

Section Rounding64.

Import SpecFloat Binary64.

Local Open Scope Z_scope.

Lemma digits2_pos_size (p : positive) : digits2_pos p = Pos.size p.
Proof. induction p as [p IH | p IH |]; simpl; now rewrite ?IH. Qed.

Lemma digits_log2 (p : positive) :
  Zpos (digits2_pos p) = Z.log2 (Zpos p) + 1.
Proof.
  rewrite digits2_pos_size. destruct p as [p | p |]; simpl; try reflexivity;
    rewrite Pos.add_1_r; reflexivity.
Qed.

Lemma digits_bounds (p : positive) :
  2 ^ (Zpos (digits2_pos p) - 1) <= Zpos p < 2 ^ Zpos (digits2_pos p).
Proof.
  rewrite digits_log2.
  destruct (Z.log2_spec (Zpos p) ltac:(lia)) as [H1 H2].
  replace (Z.log2 (Zpos p) + 1 - 1) with (Z.log2 (Zpos p)) by lia.
  replace (Z.log2 (Zpos p) + 1) with (Z.succ (Z.log2 (Zpos p))) by lia.
  split; assumption.
Qed.

Lemma iter_xO (d m : positive) :
  Zpos (Pos.iter xO m d) = Zpos m * 2 ^ Zpos d.
Proof.
  induction d as [| d IH] using Pos.peano_ind.
  - simpl. lia.
  - rewrite Pos.iter_succ, Pos2Z.inj_xO, IH, Pos2Z.inj_succ, Z.pow_succ_r by lia.
    ring.
Qed.

(** Writing a mantissa at a smaller exponent. *)
Lemma shl_align_spec (m : positive) (e e' : Z) :
  e' <= e ->
  Zpos (fst (shl_align m e e')) = Zpos m * 2 ^ (e - e') /\
  snd (shl_align m e e') = e'.
Proof.
  intro H. unfold shl_align.
  destruct (e' - e) as [| d | d] eqn:E; cbn [fst snd].
  - assert (e = e') by lia. subst. rewrite Z.sub_diag, Z.pow_0_r. lia.
  - lia.
  - rewrite iter_xO. replace (e - e') with (Zpos d) by lia. now split.
Qed.

Lemma shl_align_id (m : positive) (e e' : Z) :
  e <= e' -> shl_align m e e' = (m, e).
Proof.
  intro H. unfold shl_align. destruct (e' - e) eqn:E; try reflexivity. lia.
Qed.

Lemma shr_1_div (mrs : shr_record) :
  0 <= shr_m mrs -> shr_m (shr_1 mrs) = shr_m mrs / 2.
Proof.
  destruct mrs as [m r s]. simpl. intro H.
  destruct m as [| [p | p |] | p]; simpl; try reflexivity; try lia.
  - apply (Z.div_unique (Zpos p~1) 2 (Zpos p) 1); lia.
  - apply (Z.div_unique (Zpos p~0) 2 (Zpos p) 0); lia.
Qed.

Lemma pow2_xO (p : positive) : 2 ^ Zpos p~0 = 2 ^ Zpos p * 2 ^ Zpos p.
Proof.
  replace (Zpos p~0) with (Zpos p + Zpos p) by lia.
  apply Z.pow_add_r; lia.
Qed.

Lemma pow2_xI (p : positive) : 2 ^ Zpos p~1 = 2 * (2 ^ Zpos p * 2 ^ Zpos p).
Proof.
  replace (Zpos p~1) with (1 + (Zpos p + Zpos p)) by lia.
  rewrite !Z.pow_add_r by lia. rewrite Z.pow_1_r. reflexivity.
Qed.

Lemma iter_shr_1_div (p : positive) :
  forall mrs, 0 <= shr_m mrs ->
  shr_m (iter_pos shr_1 p mrs) = shr_m mrs / 2 ^ Zpos p.
Proof.
  induction p as [p IH | p IH |]; intros mrs H.
  - cbn [iter_pos].
    rewrite IH by (apply iter_shr_1_nonneg, shr_1_nonneg, H).
    rewrite IH by (apply shr_1_nonneg, H).
    rewrite shr_1_div by exact H.
    assert (Hp : 0 < 2 ^ Zpos p) by (apply Z.pow_pos_nonneg; lia).
    rewrite !Z.div_div by lia. now rewrite pow2_xI.
  - cbn [iter_pos].
    rewrite IH by (apply iter_shr_1_nonneg, H).
    rewrite IH by exact H.
    assert (Hp : 0 < 2 ^ Zpos p) by (apply Z.pow_pos_nonneg; lia).
    rewrite !Z.div_div by lia. now rewrite pow2_xO.
  - cbn [iter_pos]. rewrite shr_1_div by exact H. reflexivity.
Qed.

Lemma shr_spec (mrs : shr_record) (e n : Z) :
  0 <= shr_m mrs ->
  (n <= 0 -> shr mrs e n = (mrs, e)) /\
  (0 < n -> shr_m (fst (shr mrs e n)) = shr_m mrs / 2 ^ n /\
            snd (shr mrs e n) = e + n).
Proof.
  intro H. unfold shr. destruct n as [| p | p]; split; intro Hn;
    try reflexivity; try lia.
  simpl. split; [apply iter_shr_1_div, H | reflexivity].
Qed.


Lemma fexp_spec (z : Z) : fexp prec emax z = Z.max (z - 53) (-1074).
Proof. reflexivity. Qed.

Lemma round_nearest_even_bounds (m : Z) (l : location) :
  m <= round_nearest_even m l <= m + 1.
Proof.
  destruct l as [| []]; simpl; try lia. destruct (Z.even m); lia.
Qed.

Lemma digits_bounds' (q : positive) (d : Z) :
  Zpos (digits2_pos q) = d -> d <= 53 -> Zpos q < 2 ^ 53.
Proof.
  intros Hd H53. destruct (digits_bounds q) as [_ H2]. rewrite Hd in H2.
  assert (2 ^ d <= 2 ^ 53) by (apply Z.pow_le_mono_r; lia). lia.
Qed.

Lemma digits_le_53 (q : positive) :
  Zpos q < 2 ^ 53 -> Zpos (digits2_pos q) <= 53.
Proof.
  intro H. destruct (digits_bounds q) as [H1 _].
  destruct (Z_le_gt_dec (Zpos (digits2_pos q)) 53) as [Hle | Hgt]; [exact Hle |].
  assert (2 ^ 53 <= 2 ^ (Zpos (digits2_pos q) - 1))
    by (apply Z.pow_le_mono_r; lia).
  lia.
Qed.

(** The last step of rounding: a mantissa of at most 53 bits is kept, the
    mantissa [2^53] is halved and the exponent goes up by one. *)
Lemma renormalise (s : bool) (m2 E : Z) :
  0 <= m2 <= 2 ^ 53 -> -1074 <= E ->
  let r :=
    let '(mrs'', e'') := shr_fexp prec emax m2 E loc_Exact in
    match shr_m mrs'' with
    | Z0 => S754_zero s
    | Zpos m => if e'' <=? emax - prec then S754_finite s m e''
                else S754_infinity s
    | Zneg _ => S754_nan
    end in
  (r = S754_zero s /\ m2 = 0) \/
  (exists m3 e3, r = S754_finite s m3 e3 /\
                 Zpos m3 * 2 ^ (e3 - E) = m2 /\ E <= e3 <= E + 1 /\
                 (e3 = E + 1 -> m2 = 2 ^ 53) /\ e3 <= 971) \/
  (r = S754_infinity s /\ (971 < E \/ (971 < E + 1 /\ m2 = 2 ^ 53))).
Proof.
  intros Hm HE r. subst r. unfold shr_fexp. rewrite fexp_spec.
  change (emax - prec) with 971.
  destruct m2 as [| q | q]; [| | lia].
  - left. simpl Zdigits2.
    destruct (shr_spec (shr_record_of_loc 0 loc_Exact) E
                (Z.max (0 + E - 53) (-1074) - E) ltac:(simpl; lia))
      as [Hno _].
    rewrite Hno by lia. simpl. now split.
  - right. simpl Zdigits2.
    destruct (digits_bounds q) as [Hq1 Hq2].
    destruct (Z_lt_le_dec (Zpos q) (2 ^ 53)) as [Hlt | Hge].
    + pose proof (digits_le_53 q Hlt) as Hd.
      destruct (shr_spec (shr_record_of_loc (Zpos q) loc_Exact) E
                  (Z.max (Zpos (digits2_pos q) + E - 53) (-1074) - E)
                  ltac:(simpl; lia)) as [Hno _].
      rewrite Hno by lia. simpl shr_m.
      destruct (E <=? 971) eqn:Ele.
      * left. exists q, E. apply Z.leb_le in Ele.
        rewrite Z.sub_diag, Z.pow_0_r. repeat split; lia.
      * right. apply Z.leb_gt in Ele. split; [reflexivity | lia].
    + assert (Hq : Zpos q = 2 ^ 53) by lia.
      assert (Hd : Zpos (digits2_pos q) = 54).
      { rewrite digits_log2, Hq, Z.log2_pow2 by lia. reflexivity. }
      rewrite Hd.
      destruct (shr_spec (shr_record_of_loc (Zpos q) loc_Exact) E
                  (Z.max (54 + E - 53) (-1074) - E)
                  ltac:(simpl; lia)) as [_ Hsh].
      replace (Z.max (54 + E - 53) (-1074) - E) with 1 in * by lia.
      destruct (Hsh ltac:(lia)) as [Hm3 He3].
      destruct (shr _ E 1) as [mrs'' e''].
      cbn [fst snd] in Hm3, He3. subst e''.
      simpl shr_m in Hm3. rewrite Hq in Hm3.
      change (2 ^ 53 / 2 ^ 1) with 4503599627370496 in Hm3.
      rewrite Hm3.
      destruct (E + 1 <=? 971) eqn:Ele.
      * left. exists 4503599627370496%positive, (E + 1).
        apply Z.leb_le in Ele.
        replace (E + 1 - E) with 1 by lia.
        repeat split; lia.
      * right. apply Z.leb_gt in Ele. split; [reflexivity |].
        right. split; lia.
Qed.

Lemma binary_round_aux_stages (s : bool) (m e : Z) (l : location)
    (mrs' : shr_record) (e' : Z) :
  shr_fexp prec emax m e l = (mrs', e') ->
  binary_round_aux prec emax s m e l =
  let '(mrs'', e'') :=
    shr_fexp prec emax
      (round_nearest_even (shr_m mrs') (loc_of_shr_record mrs')) e' loc_Exact in
  match shr_m mrs'' with
  | Z0 => S754_zero s
  | Zpos m => if e'' <=? emax - prec then S754_finite s m e''
              else S754_infinity s
  | Zneg _ => S754_nan
  end.
Proof. unfold binary_round_aux. intros ->. reflexivity. Qed.

(** What rounding the positive mantissa [M] at exponent [e] returns: with
    [E] the exponent of the result's binade, a mantissa [m2] at [E] that
    is [M] written at [E] when that loses nothing, and otherwise the
    quotient of [M] by [2^(E - e)] or the next integer. *)
Lemma binary_round_cases (s : bool) (M : positive) (e : Z) :
  let E := fexp prec emax (Zpos (digits2_pos M) + e) in
  let r := binary_round prec emax s M e in
  exists m2 : Z,
    (E <= e -> m2 = Zpos M * 2 ^ (e - E)) /\
    (e < E -> Zpos M / 2 ^ (E - e) <= m2 <= Zpos M / 2 ^ (E - e) + 1) /\
    ((r = S754_zero s /\ m2 = 0) \/
     (exists m3 e3, r = S754_finite s m3 e3 /\
                    Zpos m3 * 2 ^ (e3 - E) = m2 /\ E <= e3 <= E + 1 /\
                    (e3 = E + 1 -> m2 = 2 ^ 53) /\ e3 <= 971) \/
     (r = S754_infinity s /\ (971 < E \/ (971 < E + 1 /\ m2 = 2 ^ 53)))).
Proof.
  intros E r. subst r.
  assert (HE : -1074 <= E) by (subst E; rewrite fexp_spec; lia).
  assert (HED : Zpos (digits2_pos M) + e - 53 <= E)
    by (subst E; rewrite fexp_spec; lia).
  destruct (digits_bounds M) as [HM1 HM2].
  unfold binary_round. fold E.
  destruct (Z_le_gt_dec E e) as [Hle | Hgt].
  - (* the mantissa is written at [E] exactly *)
    destruct (shl_align_spec M e E Hle) as [Hmz Hez].
    destruct (shl_align M e E) as [mz ez]. cbn [fst snd] in Hmz, Hez.
    subst ez.
    assert (Hdz : Zpos (digits2_pos mz) + E = Zpos (digits2_pos M) + e).
    { rewrite !digits_log2, Hmz, Z.log2_mul_pow2 by lia. lia. }
    assert (Hmz53 : Zpos mz < 2 ^ 53).
    { apply digits_bounds' with (d := Zpos (digits2_pos mz)); lia. }
    exists (Zpos mz).
    split; [intros _; exact Hmz |]. split; [lia |].
    assert (H1 : shr_fexp prec emax (Zpos mz) E loc_Exact
                 = (shr_record_of_loc (Zpos mz) loc_Exact, E)).
    { unfold shr_fexp. simpl Zdigits2. rewrite Hdz. fold E.
      apply (shr_spec (shr_record_of_loc (Zpos mz) loc_Exact) E (E - E));
        simpl; lia. }
    rewrite (binary_round_aux_stages s _ _ _ _ _ H1).
    cbn [shr_record_of_loc shr_m loc_of_shr_record round_nearest_even].
    apply renormalise; lia.
  - (* the mantissa is cut at [E] *)
    rewrite shl_align_id by lia.
    destruct (shr_spec (shr_record_of_loc (Zpos M) loc_Exact) e (E - e)
                ltac:(simpl; lia)) as [_ Hsh].
    destruct (Hsh ltac:(lia)) as [Hm1 He1].
    assert (H1 : shr_fexp prec emax (Zpos M) e loc_Exact
                 = shr (shr_record_of_loc (Zpos M) loc_Exact) e (E - e))
      by reflexivity.
    destruct (shr _ e (E - e)) as [mrs' e']. cbn [fst snd] in Hm1, He1.
    simpl shr_m in Hm1.
    rewrite (binary_round_aux_stages s _ _ _ _ _ H1).
    replace e' with E by lia.
    set (m1 := shr_m mrs') in *.
    pose proof (round_nearest_even_bounds m1 (loc_of_shr_record mrs')) as Hr.
    set (m2 := round_nearest_even m1 (loc_of_shr_record mrs')) in *.
    assert (Hp : 0 < 2 ^ (E - e)) by (apply Z.pow_pos_nonneg; lia).
    assert (Hm1a : 0 <= m1) by (rewrite Hm1; apply Z.div_pos; lia).
    assert (Hm1b : m1 < 2 ^ 53).
    { rewrite Hm1. apply Z.div_lt_upper_bound; [lia |].
      rewrite <- Z.pow_add_r by lia.
      assert (2 ^ Zpos (digits2_pos M) <= 2 ^ (E - e + 53))
        by (apply Z.pow_le_mono_r; lia).
      lia. }
    exists m2. split; [lia |]. split; [intros _; rewrite <- Hm1; exact Hr |].
    apply renormalise; lia.
Qed.

End Rounding64.

Section Sums64.

Import SpecFloat Binary64.

Local Open Scope Z_scope.

Lemma leb_finite (s1 s2 : bool) (m1 m2 : positive) (e1 e2 : Z) :
  leb (S754_finite s1 m1 e1) (S754_finite s2 m2 e2) = true <->
  cond_Zopp s1 (Zpos m1 * 2 ^ (e1 - Z.min e1 e2))
  <= cond_Zopp s2 (Zpos m2 * 2 ^ (e2 - Z.min e1 e2)).
Proof.
  unfold leb, compare, aligned.
  destruct (shl_align_spec m1 e1 (Z.min e1 e2) ltac:(lia)) as [-> _].
  destruct (shl_align_spec m2 e2 (Z.min e1 e2) ltac:(lia)) as [-> _].
  destruct (Z.compare_spec
              (cond_Zopp s1 (Zpos m1 * 2 ^ (e1 - Z.min e1 e2)))
              (cond_Zopp s2 (Zpos m2 * 2 ^ (e2 - Z.min e1 e2))));
    split; (lia || discriminate || reflexivity).
Qed.

(** A valid finite number: its exponent is that of its binade, and its
    mantissa has at most 53 bits. *)
Lemma valid_finite (s : bool) (m : positive) (e : Z) :
  valid (S754_finite s m e) = true ->
  fexp prec emax (Zpos (digits2_pos m) + e) = e /\ e <= 971 /\
  Zpos m < 2 ^ 53.
Proof.
  unfold valid, valid_binary, bounded, canonical_mantissa.
  rewrite andb_true_iff, Z.eqb_eq, Z.leb_le. intros [Hc Hb].
  split; [exact Hc |]. split; [exact Hb |].
  apply digits_bounds' with (d := Zpos (digits2_pos m)); [reflexivity |].
  rewrite fexp_spec in Hc. lia.
Qed.

Lemma digits_mono (p q : positive) :
  Zpos p <= Zpos q -> Zpos (digits2_pos p) <= Zpos (digits2_pos q).
Proof.
  intro H. rewrite !digits_log2.
  pose proof (Z.log2_le_mono _ _ H). lia.
Qed.

Lemma digits_shift (p q : positive) (k : Z) :
  0 <= k -> Zpos q = Zpos p * 2 ^ k ->
  Zpos (digits2_pos q) = Zpos (digits2_pos p) + k.
Proof.
  intros Hk H. rewrite !digits_log2, H, Z.log2_mul_pow2 by lia. lia.
Qed.

Lemma fexp_mono (a b : Z) :
  a <= b -> fexp prec emax a <= fexp prec emax b.
Proof. rewrite !fexp_spec. lia. Qed.

(** Rounding a positive sum does not go below a valid summand. *)
Lemma round_up_not_below (mx T : positive) (ex ez : Z) :
  valid (S754_finite false mx ex) = true ->
  ez <= ex -> Zpos mx * 2 ^ (ex - ez) <= Zpos T ->
  leb (S754_finite false mx ex) (binary_round prec emax false T ez) = true.
Proof.
  intros Hv Hez HT.
  destruct (valid_finite _ _ _ Hv) as (Hc & Hb & Hmx).
  assert (Hk : 0 < 2 ^ (ex - ez)) by (apply Z.pow_pos_nonneg; lia).
  destruct (binary_round_cases false T ez) as (m2 & Hexact & Hcut & Hr).
  set (E := fexp prec emax (Zpos (digits2_pos T) + ez)) in *.
  assert (HE : ex <= E).
  { rewrite <- Hc. subst E. apply fexp_mono.
    assert (Hd : Zpos (digits2_pos (Z.to_pos (Zpos mx * 2 ^ (ex - ez))))
                 = Zpos (digits2_pos mx) + (ex - ez))
      by (apply digits_shift; [lia | rewrite Z2Pos.id; lia]).
    pose proof (digits_mono (Z.to_pos (Zpos mx * 2 ^ (ex - ez))) T
                  ltac:(rewrite Z2Pos.id; lia)).
    lia. }
  assert (Hlow : Zpos mx <= m2 * 2 ^ (E - ex)).
  { destruct (Z_le_gt_dec E ez) as [Hle | Hgt].
    - rewrite (Hexact Hle).
      replace (ez - E) with 0 by lia. replace (E - ex) with 0 by lia.
      replace (ex - ez) with 0 in HT by lia.
      rewrite !Z.pow_0_r in *. lia.
    - destruct (Hcut ltac:(lia)) as [Hm1 _].
      assert (Hn : 0 < 2 ^ (E - ez)) by (apply Z.pow_pos_nonneg; lia).
      destruct (Z.eq_dec E ex) as [Heq | Hne].
      + replace (E - ex) with 0 by lia. rewrite Z.pow_0_r, Z.mul_1_r.
        etransitivity; [| exact Hm1].
        apply Z.div_le_lower_bound; [lia |].
        replace (E - ez) with (ex - ez) by lia. lia.
      + assert (HE53 : E = Zpos (digits2_pos T) + ez - 53)
          by (subst E; rewrite fexp_spec in *; lia).
        destruct (digits_bounds T) as [HT1 _].
        assert (H52 : 2 ^ 52 <= Zpos T / 2 ^ (E - ez)).
        { apply Z.div_le_lower_bound; [lia |].
          rewrite <- Z.pow_add_r by lia.
          replace (E - ez + 52) with (Zpos (digits2_pos T) - 1) by lia.
          exact HT1. }
        assert (H2 : 2 <= 2 ^ (E - ex)).
        { change 2 with (2 ^ 1) at 1. apply Z.pow_le_mono_r; lia. }
        assert (2 ^ 52 * 2 <= m2 * 2 ^ (E - ex)) by nia.
        change (2 ^ 52 * 2) with (2 ^ 53) in *. lia. }
  assert (HpE : 0 < 2 ^ (E - ex)) by (apply Z.pow_pos_nonneg; lia).
  destruct Hr as [[_ Hz] | [(m3 & e3 & -> & Hm3 & He3 & _ & _) | [-> _]]].
  - subst m2. lia.
  - apply leb_finite. cbn [cond_Zopp].
    replace (Z.min ex e3) with ex by lia.
    rewrite Z.sub_diag, Z.pow_0_r, Z.mul_1_r.
    replace (e3 - ex) with ((e3 - E) + (E - ex)) by lia.
    rewrite Z.pow_add_r by lia. rewrite Z.mul_assoc, Hm3. exact Hlow.
  - reflexivity.
Qed.

(** Rounding a negative sum of smaller magnitude than a valid negative
    summand does not go below the summand. *)
Lemma round_down_not_below (mx M : positive) (ex ez : Z) :
  valid (S754_finite true mx ex) = true ->
  ez <= ex -> Zpos M < Zpos mx * 2 ^ (ex - ez) ->
  leb (S754_finite true mx ex) (binary_round prec emax true M ez) = true.
Proof.
  intros Hv Hez HM.
  destruct (valid_finite _ _ _ Hv) as (Hc & Hb & Hmx).
  assert (Hk : 0 < 2 ^ (ex - ez)) by (apply Z.pow_pos_nonneg; lia).
  destruct (binary_round_cases true M ez) as (m2 & Hexact & Hcut & Hr).
  set (E := fexp prec emax (Zpos (digits2_pos M) + ez)) in *.
  assert (HE : E <= ex).
  { rewrite <- Hc. subst E. apply fexp_mono.
    assert (Hd : Zpos (digits2_pos (Z.to_pos (Zpos mx * 2 ^ (ex - ez))))
                 = Zpos (digits2_pos mx) + (ex - ez))
      by (apply digits_shift; [lia | rewrite Z2Pos.id; lia]).
    pose proof (digits_mono M (Z.to_pos (Zpos mx * 2 ^ (ex - ez)))
                  ltac:(rewrite Z2Pos.id; lia)).
    lia. }
  assert (HpE : 0 < 2 ^ (ex - E)) by (apply Z.pow_pos_nonneg; lia).
  assert (Hup : m2 <= Zpos mx * 2 ^ (ex - E)).
  { destruct (Z_le_gt_dec E ez) as [Hle | Hgt].
    - rewrite (Hexact Hle).
      replace (ex - E) with ((ex - ez) + (ez - E)) by lia.
      rewrite Z.pow_add_r, Z.mul_assoc by lia.
      assert (0 < 2 ^ (ez - E)) by (apply Z.pow_pos_nonneg; lia). nia.
    - destruct (Hcut ltac:(lia)) as [_ Hm1].
      assert (Hn : 0 < 2 ^ (E - ez)) by (apply Z.pow_pos_nonneg; lia).
      assert (Zpos M / 2 ^ (E - ez) < Zpos mx * 2 ^ (ex - E)).
      { apply Z.div_lt_upper_bound; [lia |].
        replace (2 ^ (E - ez) * (Zpos mx * 2 ^ (ex - E)))
          with (Zpos mx * 2 ^ (ex - ez)); [exact HM |].
        replace (ex - ez) with ((E - ez) + (ex - E)) by lia.
        rewrite Z.pow_add_r by lia. ring. }
      lia. }
  destruct Hr as [[-> _] | [(m3 & e3 & -> & Hm3 & He3 & He3' & _) | [-> Hinf]]].
  - reflexivity.
  - apply leb_finite. cbn [cond_Zopp].
    destruct (Z_le_gt_dec e3 ex) as [Hle | Hgt].
    + replace (Z.min ex e3) with e3 by lia.
      rewrite Z.sub_diag, Z.pow_0_r, Z.mul_1_r.
      assert (Hp3 : 0 < 2 ^ (e3 - E)) by (apply Z.pow_pos_nonneg; lia).
      assert (Hsplit : Zpos mx * 2 ^ (ex - E)
                       = Zpos mx * 2 ^ (ex - e3) * 2 ^ (e3 - E)).
      { replace (ex - E) with ((ex - e3) + (e3 - E)) by lia.
        rewrite Z.pow_add_r by lia. ring. }
      rewrite Hsplit, <- Hm3 in Hup.
      apply Z.mul_le_mono_pos_r in Hup; lia.
    + rewrite (He3' ltac:(lia)) in Hup.
      replace (ex - E) with 0 in Hup by lia. rewrite Z.pow_0_r in Hup. lia.
  - exfalso. destruct Hinf as [Hinf | [Hinf H53]]; [lia |].
    rewrite H53 in Hup.
    replace (ex - E) with 0 in Hup by lia. rewrite Z.pow_0_r in Hup. lia.
Qed.

(** Adding a number that is not negative to a valid finite number does
    not give less: [x <= x + w]. *)
Lemma add_not_below (a w : float) :
  valid a = true -> isFinite a = true -> leb zero w = true ->
  leb a (add a w) = true.
Proof.
  intros Hv Hf Hw.
  destruct w as [sw | [] | | [] mw ew]; try discriminate.
  - (* w is a zero *)
    destruct a as [sa | sa | | sa ma ea]; try discriminate.
    + destruct sa, sw; reflexivity.
    + apply leb_refl. reflexivity.
  - (* w is +Infinity *)
    destruct a as [sa | sa | | [] ma ea]; try discriminate; reflexivity.
  - (* w is finite and positive *)
    destruct a as [sa | sa | | sa ma ea]; try discriminate;
      [reflexivity |].
    unfold add, SFadd.
    destruct (shl_align_spec ma ea (Z.min ea ew) ltac:(lia)) as [HA _].
    destruct (shl_align_spec mw ew (Z.min ea ew) ltac:(lia)) as [HB _].
    set (A := Zpos (fst (shl_align ma ea (Z.min ea ew)))) in *.
    set (B := Zpos (fst (shl_align mw ew (Z.min ea ew)))) in *.
    assert (HB0 : 0 < B) by (subst B; lia).
    destruct sa; cbn [cond_Zopp].
    + (* a is negative *)
      destruct (- A + B) as [| T | M] eqn:ET; cbn [binary_normalize].
      * reflexivity.
      * destruct (binary_round_sign false T (Z.min ea ew))
          as (_ & [-> | [-> | (m' & e' & ->)]]); reflexivity.
      * apply round_down_not_below; [exact Hv | lia |]. lia.
    + (* a is positive *)
      destruct (A + B) as [| T | M] eqn:ET; cbn [binary_normalize]; try lia.
      apply round_up_not_below; [exact Hv | lia |]. lia.
Qed.

(** On valid numbers the comparison by value is the comparison of the
    representations of [SpecFloat]. *)
Lemma compare_is_SFcompare (a b : float) :
  valid a = true -> valid b = true -> compare a b = SFcompare a b.
Proof.
  destruct a as [sa | sa | | sa ma ea], b as [sb | sb | | sb mb eb];
    try reflexivity.
  intros Ha Hb.
  destruct (valid_finite _ _ _ Ha) as (Hca & _ & Hma).
  destruct (valid_finite _ _ _ Hb) as (Hcb & _ & Hmb).
  rewrite fexp_spec in Hca, Hcb.
  destruct (digits_bounds ma) as [Ha1 _].
  destruct (digits_bounds mb) as [Hb1 _].
  unfold compare, SFcompare, aligned. f_equal.
  destruct (shl_align_spec ma ea (Z.min ea eb) ltac:(lia)) as [-> _].
  destruct (shl_align_spec mb eb (Z.min ea eb) ltac:(lia)) as [-> _].
  change (Pos.compare_cont Eq ma mb) with (Z.compare (Zpos ma) (Zpos mb)).
  destruct (Z.compare_spec ea eb) as [Heq | Hlt | Hgt].
  - subst eb. rewrite Z.min_id, Z.sub_diag, Z.pow_0_r, !Z.mul_1_r.
    destruct sa, sb; reflexivity.
  - (* the second number is in a higher binade *)
    replace (Z.min ea eb) with ea by lia.
    rewrite Z.sub_diag, Z.pow_0_r, Z.mul_1_r.
    assert (Hd : Zpos (digits2_pos mb) = 53) by lia.
    rewrite Hd in Hb1. change (2 ^ (53 - 1)) with (2 ^ 52) in Hb1.
    assert (H2 : 2 <= 2 ^ (eb - ea)).
    { change 2 with (2 ^ 1) at 1. apply Z.pow_le_mono_r; lia. }
    assert (Hbig : Zpos ma < Zpos mb * 2 ^ (eb - ea)).
    { assert (2 ^ 52 * 2 <= Zpos mb * 2 ^ (eb - ea)) by nia.
      change (2 ^ 52 * 2) with (2 ^ 53) in *. lia. }
    destruct sa, sb; cbn [cond_Zopp]; try reflexivity;
      first [apply Z.compare_gt_iff; lia | apply Z.compare_lt_iff; lia].
  - (* the first number is in a higher binade *)
    replace (Z.min ea eb) with eb by lia.
    rewrite Z.sub_diag, Z.pow_0_r, Z.mul_1_r.
    assert (Hd : Zpos (digits2_pos ma) = 53) by lia.
    rewrite Hd in Ha1. change (2 ^ (53 - 1)) with (2 ^ 52) in Ha1.
    assert (H2 : 2 <= 2 ^ (ea - eb)).
    { change 2 with (2 ^ 1) at 1. apply Z.pow_le_mono_r; lia. }
    assert (Hbig : Zpos mb < Zpos ma * 2 ^ (ea - eb)).
    { assert (2 ^ 52 * 2 <= Zpos ma * 2 ^ (ea - eb)) by nia.
      change (2 ^ 52 * 2) with (2 ^ 53) in *. lia. }
    destruct sa, sb; cbn [cond_Zopp]; try reflexivity;
      first [apply Z.compare_gt_iff; lia | apply Z.compare_lt_iff; lia].
Qed.

End Sums64.

(** ** Bounding boxes in binary64 arithmetic (layerContext.ts) *)

Section Geometry64.

Import SpecFloat Binary64 IEEE IEEE.LayerContext.




(** The far edges of a box at a finite place, of nonnegative width and
    height, are not before its near edges. *)
Lemma nonnegativeBox_edges (b : BoundingBox) :
  nonnegativeBox b = true ->
  leb (x b) (add (x b) (width b)) = true /\
  leb (y b) (add (y b) (height b)) = true.
Proof.
  unfold nonnegativeBox. rewrite !andb_true_iff.
  intros [[[[[Hx Hxf] Hy] Hyf] Hw] Hh].
  split; apply add_not_below; assumption.
Qed.


End Geometry64.

Section Overlap64.

Import SpecFloat Binary64 IEEE IEEE.LayerContext.

Lemma min_is_an_operand (a b : float) :
  isNaN a = false -> isNaN b = false ->
  forall c, leb c a = true -> leb c b = true -> leb c (min a b) = true.
Proof.
  intros Ha Hb c Hca Hcb. unfold min.
  destruct (compare a b) as [[] |] eqn:E; auto.
  - destruct a as [sa | | |], b as [sb | | |]; auto;
      destruct c as [sc | [] | | [] mc ec]; auto.
  - destruct (compare_not_NaN a b Ha Hb). congruence.
Qed.

Lemma max_is_an_operand (a b : float) :
  isNaN a = false -> isNaN b = false ->
  forall c, leb a c = true -> leb b c = true -> leb (max a b) c = true.
Proof.
  intros Ha Hb c Hca Hcb. unfold max.
  destruct (compare a b) as [[] |] eqn:E; auto.
  - destruct a as [sa | | |], b as [sb | | |]; auto;
      destruct c as [sc | [] | | [] mc ec]; auto.
  - destruct (compare_not_NaN a b Ha Hb). congruence.
Qed.

(** The extent of the overlap on one axis: the far edges [r1], [r2] are
    not before the near edges [x1], [x2], and neither box lies wholly
    before the other. *)
Lemma axis_extent_not_negative (x1 r1 x2 r2 : float) :
  leb x1 r1 = true -> leb x2 r2 = true ->
  ltb r1 x2 = false -> ltb r2 x1 = false ->
  ltb (sub (min r1 r2) (max x1 x2)) zero = false.
Proof.
  intros H1 H2 H12 H21.
  destruct (leb_not_NaN _ _ H1) as [Nx1 Nr1].
  destruct (leb_not_NaN _ _ H2) as [Nx2 Nr2].
  apply ltb_false_leb in H12; auto. apply ltb_false_leb in H21; auto.
  apply sub_not_negative.
  apply max_is_an_operand; auto; apply min_is_an_operand; auto.
Qed.

(** C10, as the arithmetic of the code has it.  For boxes at finite
    places, of nonnegative width and height, [getOverlapArea] never
    returns a negative number, and returns 0 when the boxes do not
    overlap; [getIoU] returns 0 when the overlap area is 0 (of either
    sign) and otherwise the binary64 quotient of the overlap area by
    [area1 + area2 - overlapArea], whatever that union is. *)
Theorem getOverlapArea_not_negative_and_getIoU_guards_zero_overlap
    (bbox1 bbox2 : BoundingBox)
    (H1 : nonnegativeBox bbox1 = true)
    (H2 : nonnegativeBox bbox2 = true) :
  let overlapArea := getOverlapArea bbox1 bbox2 in
  let unionArea :=
    sub (add (getDetectionArea bbox1) (getDetectionArea bbox2)) overlapArea in
  ltb overlapArea zero = false /\
  (doDetectionsOverlap bbox1 bbox2 = false ->
   overlapArea = zero /\ getIoU bbox1 bbox2 = zero) /\
  (eqb overlapArea zero = true -> getIoU bbox1 bbox2 = zero) /\
  (eqb overlapArea zero = false ->
   getIoU bbox1 bbox2 = div overlapArea unionArea).
Proof.
  intros overlapArea unionArea.
  destruct (nonnegativeBox_edges bbox1 H1) as [Hw1 Hh1].
  destruct (nonnegativeBox_edges bbox2 H2) as [Hw2 Hh2].
  assert (Hno : doDetectionsOverlap bbox1 bbox2 = false ->
                overlapArea = zero).
  { intro H. subst overlapArea. unfold getOverlapArea. now rewrite H. }
  split.
  { subst overlapArea. unfold getOverlapArea.
    destruct (doDetectionsOverlap bbox1 bbox2) eqn:E; [| reflexivity].
    cbn [negb]. unfold doDetectionsOverlap in E.
    apply negb_true_iff in E.
    repeat (apply orb_false_iff in E as [E ?]).
    apply mul_not_negative; apply axis_extent_not_negative; assumption. }
  split.
  { intro H. split; [auto |]. unfold getIoU.
    fold overlapArea. now rewrite (Hno H). }
  split.
  - intro H. unfold getIoU. fold overlapArea. now rewrite H.
  - intro H. unfold getIoU. fold overlapArea. now rewrite H.
Qed.

(** C10 fails as stated, on boxes at finite places with nonnegative width
    and height, each taken with itself.  For the box (0.1, 0.1, 0.2, 0.2)
    the overlap area, 0.040000000000000015, is larger than the area of the
    box, 0.04000000000000001, and the intersection over union is
    1.0000000000000004.  For the box (9007199254740994, 0, 1, 1) the
    overlap area is 2 and the union area 0, and the quotient is infinite.
    For the box (9007199254740994, 9007199254740994, 1, 1) the overlap
    area is 4 and the union area -2, and the quotient is -2.  For the box
    (1.7976931348623157e308, 0, 1.7976931348623157e308, 0) the overlap
    area, the product of an infinite extent and 0, is not a number. *)
Lemma rounded_overlap_exceeds_the_box :
  let b := Samples.tenthBox in
  let far := Samples.farBox in
  let corner := Samples.cornerBox in
  let huge := Samples.hugeBox in
  let unionArea := fun c : BoundingBox =>
    sub (add (getDetectionArea c) (getDetectionArea c))
        (getOverlapArea c c) in
  (nonnegativeBox b = true /\ nonnegativeBox far = true /\
   nonnegativeBox corner = true /\ nonnegativeBox huge = true) /\
  (getDetectionArea b = S754_finite false 5764607523034236 (-57) /\
   getOverlapArea b b = S754_finite false 5764607523034237 (-57) /\
   ltb (getDetectionArea b) (getOverlapArea b b) = true /\
   getIoU b b = S754_finite false 4503599627370498 (-52) /\
   ltb (ofZ 1) (getIoU b b) = true) /\
  (getOverlapArea far far = ofZ 2 /\
   unionArea far = zero /\
   getIoU far far = S754_infinity false) /\
  (getOverlapArea corner corner = ofZ 4 /\
   unionArea corner = ofZ (-2) /\
   getIoU corner corner = ofZ (-2)) /\
  (getOverlapArea huge huge = S754_nan /\
   leb zero (getOverlapArea huge huge) = false /\
   getIoU huge huge = S754_nan) /\
  ~ Claims.overlapWithinBounds b b /\
  ~ Claims.overlapWithinBounds far far /\
  ~ Claims.overlapWithinBounds corner corner /\
  ~ Claims.overlapWithinBounds huge huge.
Proof.
  cbv zeta.
  split; [repeat split |].
  split; [repeat split; vm_compute; reflexivity |].
  split; [repeat split; vm_compute; reflexivity |].
  split; [repeat split; vm_compute; reflexivity |].
  split; [repeat split; vm_compute; reflexivity |].
  split; [| split; [| split]].
  - intros (_ & H & _). vm_compute in H. discriminate.
  - intros (_ & H & _). vm_compute in H. discriminate.
  - intros (_ & H & _). vm_compute in H. discriminate.
  - intros (H & _). vm_compute in H. discriminate.
Qed.

End Overlap64.

(** ** The frame clock in binary64 arithmetic (useFrameProcessor.ts) *)

Section Clock64.

Import SpecFloat Binary64 IEEE IEEE.UseFrameProcessor.





End Clock64.

(** ** The properties on the sample data *)

(** Layers A and B; adding A again, removing B, hiding A. *)
Lemma registry_run_keeps_ids_distinct :
  let layers := [Samples.plainLayer "A" 1; Samples.plainLayer "B" 2] in
  let hide :=
    {| p_id := Some "B"%string; p_type := None; p_visible := Some (Some false);
       p_zIndex := None; p_onMount := None; p_onUnmount := None;
       p_onFrame := None; p_onDetection := None; p_render := None;
       p_interactive := None; p_onClick := None; p_onHover := None |} in
  let ops := [UseLayer.OpAdd (Samples.clickableLayer "A" 5);
              UseLayer.OpRemove "B";
              UseLayer.OpUpdate "A" hide] in
  NoDup (Calls.ids layers) /\
  NoDup (Calls.ids (UseLayer.applyOps ops layers)).
Proof.
  intros layers hide ops.
  assert (Hd : NoDup (Calls.ids layers)).
  { repeat constructor; simpl; intuition discriminate. }
  split; [exact Hd |].
  exact (proj1 (layer_ids_stay_distinct layers ops Hd)).
Defined.

(** B, A, a layer without [zIndex] and a second layer of order 2,
    registered in this order: the view is the layer without [zIndex], A,
    B and then the second layer of order 2. *)
Lemma view_of_layers_registered_out_of_order :
  let a := Samples.plainLayer "A" 1 in
  let b := Samples.plainLayer "B" 2 in
  let b' := Samples.plainLayer "B2" 2 in
  let c := UseLayer.mergeLayer (Samples.plainLayer "C" 5)
             {| p_id := None; p_type := None; p_visible := None;
                p_zIndex := Some None; p_onMount := None;
                p_onUnmount := None; p_onFrame := None;
                p_onDetection := None; p_render := None;
                p_interactive := None; p_onClick := None;
                p_onHover := None |} in
  zIndex c = None /\
  UseLayer.sortedLayers [b; a; c; b'] = [c; a; b; b'].
Proof.
  intros a b b' c. split; [reflexivity |].
  destruct (sortedLayers_ascending_stable [b; a; c; b'])
    as (_ & _ & _ & _ & Hunique & _).
  symmetry. apply Hunique.
  - repeat (apply SSorted_cons || apply SSorted_nil
            || apply Forall_cons || apply Forall_nil); cbn; lra.
  - intro k.
    set (p := fun l : Layer =>
                Qeq_bool match zIndex l with
                         | Some z => z
                         | None => 0
                         end k).
    assert (Ha : p a = Qeq_bool 1 k) by reflexivity.
    assert (Hb : p b = Qeq_bool 2 k) by reflexivity.
    assert (Hb' : p b' = Qeq_bool 2 k) by reflexivity.
    assert (Hc : p c = Qeq_bool 0 k) by reflexivity.
    cbn [filter]. rewrite Ha, Hb, Hb', Hc.
    destruct (Qeq_bool 0 k) eqn:E0, (Qeq_bool 1 k) eqn:E1,
             (Qeq_bool 2 k) eqn:E2; try reflexivity; exfalso;
      repeat match goal with
             | H : Qeq_bool _ _ = true |- _ => apply Qeq_bool_iff in H
             end; lra.
Defined.

(** The scenario of the tick, with B (order 2) registered before A
    (order 1): one tick. *)
Lemma tick_scenario :
  let layers := [Samples.drawingLayer "B" 2 Returns Returns;
                 Samples.drawingLayer "A" 1 Returns Returns] in
  let refs := {| Cam.lastFrameTime := Fin 0; Cam.frameCounter := 0 |} in
  Calls.sourceReady Samples.readyEnv = true /\
  Calls.frameDue (Samples.noProps 20) 100 refs = true /\
  filter Calls.isLayerFrameCallback
    (trace (snd (Cam.processFrame (Samples.noProps 20) Samples.readyEnv
                   (UseLayer.sortedLayers layers) 100 refs)))
  = [EvLayerOnFrame "A"; EvLayerRender "A";
     EvLayerOnFrame "B"; EvLayerRender "B"].
Proof.
  intros layers refs.
  assert (Hready : Calls.sourceReady Samples.readyEnv = true)
    by reflexivity.
  assert (Hdue : Calls.frameDue (Samples.noProps 20) 100 refs = true)
    by (vm_compute; reflexivity).
  split; [exact Hready |]. split; [exact Hdue |].
  destruct (tick_invokes_visible_layers_in_order
              (Samples.noProps 20) Samples.readyEnv layers 100 refs
              Hready Hdue) as (_ & _ & _ & _ & _ & Hscenario).
  apply Hscenario. right. reflexivity.
Defined.

(** A throws in its per-frame callback: the round ends there; the clock
    completes even when its callback throws. *)
Lemma failing_layer_scenario :
  let layers := [Samples.drawingLayer "A" 1 Throws Returns;
                 Samples.drawingLayer "B" 2 Returns Returns] in
  let refs := {| Cam.lastFrameTime := Fin 0; Cam.frameCounter := 0 |} in
  let opts := {| UseFrameProcessor.targetFPS := 20;
                 UseFrameProcessor.enabled := true |} in
  let clock := {| UseFrameProcessor.lastFrameTime := Fin 0;
                  UseFrameProcessor.frameCount := 0;
                  UseFrameProcessor.isProcessing := false |} in
  (Calls.sourceReady Samples.readyEnv = true /\
   Calls.frameDue (Samples.noProps 20) 100 refs = true /\
   UseFrameProcessor.enabled opts = true) /\
  filter Calls.isLayerFrameCallback
    (trace (snd (Cam.processFrame (Samples.noProps 20) Samples.readyEnv
                   (UseLayer.sortedLayers layers) 100 refs)))
  = Calls.untilThrow
      (flat_map Calls.layerInvocations (Calls.visibleInOrder layers)) /\
  completed (UseFrameProcessor.processFrame opts Throws 100 clock) = true.
Proof.
  intros layers refs opts clock.
  assert (Hready : Calls.sourceReady Samples.readyEnv = true)
    by reflexivity.
  assert (Hdue : Calls.frameDue (Samples.noProps 20) 100 refs = true)
    by (vm_compute; reflexivity).
  assert (Hen : UseFrameProcessor.enabled opts = true) by reflexivity.
  split; [repeat split; assumption |].
  destruct (layer_failure_ends_round_and_clock_catches
              (Samples.noProps 20) Samples.readyEnv layers 100 refs
              opts Throws clock Hready Hdue Hen) as (Hround & Hdone & _).
  split; [exact Hround | exact Hdone].
Defined.

(** A touch at (30, 30) on the layers A and B is the click at (30, 30). *)
Lemma touch_scenario :
  let managed := UseLayer.sortedLayers
                   [Samples.clickableLayer "A" 1;
                    Samples.clickableLayer "B" 2] in
  let rect := {| Cam.left := 0; Cam.top := 0 |} in
  let point := {| Cam.clientX := 30; Cam.clientY := 30 |} in
  Cam.handleCanvasTouch (Samples.noProps 20) (Some rect) managed [point]
  = Cam.handleCanvasClick (Samples.noProps 20) (Some rect) managed point.
Proof.
  intros managed rect point.
  exact (proj1 (click_invokes_every_interactive_layer
                  (Samples.noProps 20) rect
                  [Samples.clickableLayer "A" 1;
                   Samples.clickableLayer "B" 2] point [])).
Defined.

(** Removing the absent id "ghost" from A, B. *)
Lemma removeLayer_scenario :
  let layers := [Samples.plainLayer "A" 1; Samples.plainLayer "B" 2] in
  (NoDup (Calls.ids layers) /\
   Cam.isReady Samples.readyEnv = true /\
   Cam.canvasMounted Samples.readyEnv = true) /\
  snd (UseLayer.removeLayer "ghost" layers) = [] /\
  (~ In "ghost"%string (Calls.ids layers) ->
   fst (UseLayer.removeLayer "ghost" layers) = layers).
Proof.
  intro layers.
  assert (Hd : NoDup (Calls.ids layers)).
  { repeat constructor; simpl; intuition discriminate. }
  assert (Hr : Cam.isReady Samples.readyEnv = true) by reflexivity.
  assert (Hc : Cam.canvasMounted Samples.readyEnv = true) by reflexivity.
  split; [repeat split; assumption |].
  destruct (removeLayer_removes_exactly_one_silently
              layers "ghost" Samples.readyEnv Hd Hr Hc)
    as (_ & Habsent & Hsilent & _).
  split; [exact Hsilent | exact Habsent].
Defined.


(** The face box and the same box moved by (20, 20): the overlap area is
    900 and the intersection over union the binary64 quotient
    900 / 4100. *)
Lemma shifted_boxes_iou :
  let shifted :=
    {| IEEE.x := Binary64.ofZ 30; IEEE.y := Binary64.ofZ 30;
       IEEE.width := Binary64.ofZ 50; IEEE.height := Binary64.ofZ 50 |} in
  let face := IEEE.Samples.faceBox in
  (IEEE.nonnegativeBox face = true /\ IEEE.nonnegativeBox shifted = true) /\
  IEEE.LayerContext.getOverlapArea face shifted = Binary64.ofZ 900 /\
  Binary64.ltb (IEEE.LayerContext.getOverlapArea face shifted) Binary64.zero
    = false /\
  IEEE.LayerContext.getIoU face shifted
    = Binary64.div (Binary64.ofZ 900) (Binary64.ofZ 4100).
Proof.
  intros shifted face.
  assert (H1 : IEEE.nonnegativeBox face = true) by (vm_compute; reflexivity).
  assert (H2 : IEEE.nonnegativeBox shifted = true)
    by (vm_compute; reflexivity).
  split; [split; assumption |].
  destruct (getOverlapArea_not_negative_and_getIoU_guards_zero_overlap
              face shifted H1 H2) as (Hnn & _ & _ & Hq).
  split; [vm_compute; reflexivity |].
  split; [exact Hnn |].
  rewrite Hq by (vm_compute; reflexivity).
  vm_compute. reflexivity.
Defined.



(** ** Runs of the embedding *)

(** Equal keys keep the order of registration. *)
Example sortedLayers_keeps_ties_in_registration_order :
  map id (UseLayer.sortedLayers
            [Samples.plainLayer "c" 2; Samples.plainLayer "a" 1;
             Samples.plainLayer "d" 1; Samples.plainLayer "b" 0;
             Samples.plainLayer "e" 2])
  = ["b"; "a"; "d"; "c"; "e"]%string.
Proof. vm_compute. reflexivity. Qed.

(** A tick over A and B whose draw callback of B throws: the context is
    saved for B and not restored, the observer and the next request are
    not reached. *)
Example tick_with_failing_draw :
  snd (Cam.processFrame (Samples.noProps 20) Samples.readyEnv
         (UseLayer.sortedLayers
            [Samples.drawingLayer "B" 2 Returns Throws;
             Samples.drawingLayer "A" 1 Returns Returns])
         100 {| Cam.lastFrameTime := Fin 0; Cam.frameCounter := 0 |})
  = ([EvDrawImage; EvGetImageData;
      EvLayerOnFrame "A"; EvCtxSave; EvLayerRender "A"; EvCtxRestore;
      EvLayerOnFrame "B"; EvCtxSave; EvLayerRender "B"],
     None).
Proof. vm_compute. reflexivity. Qed.

(* ===================================================================== *)
(** * Further properties of the code *)
(* ===================================================================== *)

(** ** Bounding boxes, continued (layerContext.ts) *)

Section GeometryMore.

Import LayerContext LayerContextUtils.



End GeometryMore.



Section IoUFacts.

Import LayerContext JsArith.

Lemma Qeq_bool_compat (a a' b : Q) : a == a' -> Qeq_bool a b = Qeq_bool a' b.
Proof.
  intro E. destruct (Qeq_bool a' b) eqn:E'.
  - apply Qeq_bool_iff. apply Qeq_bool_iff in E'. now rewrite E.
  - apply Qeq_bool_false. apply Qeq_bool_false in E'. now rewrite E.
Qed.

Lemma Qltb_compat (a a' b b' : Q) :
  a == a' -> b == b' -> Qltb a b = Qltb a' b'.
Proof.
  intros Ea Eb. destruct (Qltb a' b') eqn:E'.
  - apply Qltb_true. apply Qltb_true in E'. lra.
  - apply Qltb_false. apply Qltb_false in E'. lra.
Qed.

Lemma jsdiv_compat (a a' b b' : Q) :
  a == a' -> b == b' -> jsEquiv (jsdiv a b) (jsdiv a' b').
Proof.
  intros Ea Eb. unfold jsdiv.
  rewrite (Qeq_bool_compat b b' 0 Eb), (Qeq_bool_compat a a' 0 Ea),
          (Qltb_compat 0 0 a a' (Qeq_refl 0) Ea).
  destruct (Qeq_bool b' 0); [destruct (Qeq_bool a' 0), (Qltb 0 a'); exact I |].
  simpl. now rewrite Ea, Eb.
Qed.

Lemma doDetectionsOverlap_sym (b1 b2 : BoundingBox) :
  doDetectionsOverlap b1 b2 = doDetectionsOverlap b2 b1.
Proof.
  unfold doDetectionsOverlap.
  destruct (Qltb (x b1 + width b1) (x b2)), (Qltb (x b2 + width b2) (x b1)),
           (Qltb (y b1 + height b1) (y b2)), (Qltb (y b2 + height b2) (y b1));
    reflexivity.
Qed.

Lemma getOverlapArea_sym (b1 b2 : BoundingBox) :
  getOverlapArea b1 b2 == getOverlapArea b2 b1.
Proof.
  unfold getOverlapArea. rewrite (doDetectionsOverlap_sym b1 b2).
  destruct (doDetectionsOverlap b2 b1); simpl; [| reflexivity].
  rewrite (Q.min_comm (x b1 + width b1)), (Q.max_comm (x b1)),
          (Q.min_comm (y b1 + height b1)), (Q.max_comm (y b1)).
  reflexivity.
Qed.

End IoUFacts.

(** X3. The overlap test, the overlap area and the intersection over union
    do not depend on the order of the two boxes. *)
Theorem overlap_measures_are_symmetric (bbox1 bbox2 : BoundingBox) :
  LayerContext.doDetectionsOverlap bbox1 bbox2
    = LayerContext.doDetectionsOverlap bbox2 bbox1 /\
  LayerContext.getOverlapArea bbox1 bbox2
    == LayerContext.getOverlapArea bbox2 bbox1 /\
  JsArith.jsEquiv (LayerContext.getIoU bbox1 bbox2)
                  (LayerContext.getIoU bbox2 bbox1).
Proof.
  split; [apply doDetectionsOverlap_sym |].
  split; [apply getOverlapArea_sym |].
  unfold LayerContext.getIoU.
  rewrite (Qeq_bool_compat _ _ 0 (getOverlapArea_sym bbox1 bbox2)).
  destruct (Qeq_bool (LayerContext.getOverlapArea bbox2 bbox1) 0);
    [simpl; reflexivity |].
  apply jsdiv_compat; [apply getOverlapArea_sym |].
  rewrite (getOverlapArea_sym bbox1 bbox2). ring.
Qed.

(** ** Scaling between coordinate systems (layerContext.ts) *)

Section Scaling64.

Import SpecFloat Binary64 IEEE IEEE.LayerContext.

(** Dividing by a zero gives an infinity or NaN, and a product with one
    of these is one of these. *)
Lemma div_by_zero_not_finite (a b : float) :
  eqb b zero = true -> isFinite (div a b) = false.
Proof.
  destruct b as [sb | [] | | [] mb eb]; try discriminate; intros _;
    destruct a as [sa | sa | | sa ma ea]; reflexivity.
Qed.

Lemma mul_not_finite_l (a b : float) :
  isFinite a = false -> isFinite (mul a b) = false.
Proof.
  destruct a as [sa | sa | | sa ma ea]; try discriminate; intros _;
    destruct b as [sb | sb | | sb mb eb]; reflexivity.
Qed.

Lemma mul_not_finite_r (a b : float) :
  isFinite b = false -> isFinite (mul a b) = false.
Proof.
  destruct b as [sb | sb | | sb mb eb]; try discriminate; intros _;
    destruct a as [sa | sa | | sa ma ea]; reflexivity.
Qed.

End Scaling64.

(** X5. Neither [scaleCoordinates] nor [scaleBoundingBox] checks the
    source dimensions, and nothing is thrown: when the source width is a
    zero, the scaled x coordinate of a point and the scaled x and width
    of a box are not finite numbers (an infinity or NaN), whatever the
    point, the box and the target dimensions are; likewise for the source
    height. *)
Theorem scaling_from_a_zero_dimension_is_not_finite
    (px py : Binary64.float) (bbox : IEEE.BoundingBox)
    (fromD toD : IEEE.LayerContext.Dimensions) :
  let point := IEEE.LayerContext.scaleCoordinates px py fromD toD in
  let box := IEEE.LayerContext.scaleBoundingBox bbox fromD toD in
  (Binary64.eqb (IEEE.LayerContext.dwidth fromD) Binary64.zero = true ->
   Binary64.isFinite (fst point) = false /\
   Binary64.isFinite (IEEE.x box) = false /\
   Binary64.isFinite (IEEE.width box) = false) /\
  (Binary64.eqb (IEEE.LayerContext.dheight fromD) Binary64.zero = true ->
   Binary64.isFinite (snd point) = false /\
   Binary64.isFinite (IEEE.y box) = false /\
   Binary64.isFinite (IEEE.height box) = false).
Proof.
  intros point box. split; intro H.
  - repeat split.
    + apply mul_not_finite_l, div_by_zero_not_finite, H.
    + apply mul_not_finite_r, div_by_zero_not_finite, H.
    + apply mul_not_finite_r, div_by_zero_not_finite, H.
  - repeat split.
    + apply mul_not_finite_l, div_by_zero_not_finite, H.
    + apply mul_not_finite_r, div_by_zero_not_finite, H.
    + apply mul_not_finite_r, div_by_zero_not_finite, H.
Qed.

(** A source that has no width yet (0 x 480) scaled to 1920 x 1440: the x
    coordinate of the point (41, 0) and of the box at x = 41 are not
    finite. *)
Lemma unsized_source_scenario :
  let unsized := {| IEEE.LayerContext.dwidth := Binary64.ofZ 0;
                    IEEE.LayerContext.dheight := Binary64.ofZ 480 |} in
  let canvas := {| IEEE.LayerContext.dwidth := Binary64.ofZ 1920;
                   IEEE.LayerContext.dheight := Binary64.ofZ 1440 |} in
  let box := {| IEEE.x := Binary64.ofZ 41; IEEE.y := Binary64.ofZ 0;
                IEEE.width := Binary64.ofZ 10;
                IEEE.height := Binary64.ofZ 10 |} in
  Binary64.eqb (IEEE.LayerContext.dwidth unsized) Binary64.zero = true /\
  Binary64.isFinite
    (fst (IEEE.LayerContext.scaleCoordinates
            (Binary64.ofZ 41) (Binary64.ofZ 0) unsized canvas)) = false /\
  Binary64.isFinite
    (IEEE.x (IEEE.LayerContext.scaleBoundingBox box unsized canvas)) = false.
Proof.
  intros unsized canvas box.
  assert (H : Binary64.eqb (IEEE.LayerContext.dwidth unsized) Binary64.zero
              = true) by (vm_compute; reflexivity).
  split; [exact H |].
  destruct (scaling_from_a_zero_dimension_is_not_finite
              (Binary64.ofZ 41) (Binary64.ofZ 0) box unsized canvas)
    as [Hwidth _].
  destruct (Hwidth H) as (Hpoint & Hx & _).
  split; assumption.
Defined.

(** A 640 x 480 frame scaled to 1920 x 1440: the point x = 41 goes to
    122.99999999999999 while the left edge x = 41 of a box goes to 123,
    so the two functions round differently; from a frame without width
    the point goes to +Infinity. *)
Example scaling_rounds_twice :
  let video := {| IEEE.LayerContext.dwidth := Binary64.ofZ 640;
                  IEEE.LayerContext.dheight := Binary64.ofZ 480 |} in
  let canvas := {| IEEE.LayerContext.dwidth := Binary64.ofZ 1920;
                   IEEE.LayerContext.dheight := Binary64.ofZ 1440 |} in
  let unsized := {| IEEE.LayerContext.dwidth := Binary64.ofZ 0;
                    IEEE.LayerContext.dheight := Binary64.ofZ 480 |} in
  let box := {| IEEE.x := Binary64.ofZ 41; IEEE.y := Binary64.ofZ 0;
                IEEE.width := Binary64.ofZ 10;
                IEEE.height := Binary64.ofZ 10 |} in
  fst (IEEE.LayerContext.scaleCoordinates
         (Binary64.ofZ 41) (Binary64.ofZ 0) video canvas)
    = SpecFloat.S754_finite false 8655355533852671 (-46) /\
  IEEE.x (IEEE.LayerContext.scaleBoundingBox box video canvas)
    = Binary64.ofZ 123 /\
  Binary64.ltb
    (fst (IEEE.LayerContext.scaleCoordinates
            (Binary64.ofZ 41) (Binary64.ofZ 0) video canvas))
    (IEEE.x (IEEE.LayerContext.scaleBoundingBox box video canvas)) = true /\
  fst (IEEE.LayerContext.scaleCoordinates
         (Binary64.ofZ 41) (Binary64.ofZ 0) unsized canvas)
    = SpecFloat.S754_infinity false.
Proof. vm_compute. repeat split. Qed.

(** ** Sorting by a numeric key ([Array.prototype.sort] with a comparator
       that is a difference of keys) *)

Section KeyedSort.

Import UseLayer.

Variable A : Type.
Variable key : A -> Q.
Variable cmp : A -> A -> Q.
Hypothesis cmp_key : forall a b, Qltb 0 (cmp a b) = Qltb (key b) (key a).

Local Abbreviation keyAscending := (fun a b : A => key a <= key b).

Lemma keyed_insert_perm (a : A) (l : list A) :
  Permutation (a :: l) (insertSorted cmp a l).
Proof.
  induction l as [| b l IH]; simpl; [reflexivity |].
  destruct (Qltb 0 (cmp a b)); [| reflexivity].
  rewrite perm_swap. now constructor.
Qed.

Lemma keyed_sort_perm (l : list A) : Permutation l (arraySort cmp l).
Proof.
  induction l as [| a l IH]; simpl; [constructor |].
  rewrite <- keyed_insert_perm. now constructor.
Qed.

Lemma keyed_insert_sorted (a : A) (l : list A) :
  StronglySorted keyAscending l ->
  StronglySorted keyAscending (insertSorted cmp a l).
Proof.
  induction 1 as [| b l Hs IH Hb]; simpl.
  - repeat constructor.
  - rewrite cmp_key. destruct (Qltb (key b) (key a)) eqn:E.
    + apply Qltb_true in E.
      constructor; [exact IH |].
      eapply Permutation_Forall; [apply keyed_insert_perm |].
      constructor; [cbv beta; lra | exact Hb].
    + apply Qltb_false in E.
      constructor; [now constructor |].
      constructor; [exact E |].
      eapply Forall_impl; [| exact Hb].
      cbv beta. intros c Hc. lra.
Qed.

Lemma keyed_sort_sorted (l : list A) :
  StronglySorted keyAscending (arraySort cmp l).
Proof.
  induction l as [| a l IH]; simpl; [constructor |].
  now apply keyed_insert_sorted.
Qed.

Lemma keyed_insert_stable (k : Q) (a : A) (l : list A) :
  filter (fun c => Qeq_bool (key c) k) (insertSorted cmp a l) =
  filter (fun c => Qeq_bool (key c) k) (a :: l).
Proof.
  induction l as [| b l IH]; [reflexivity |].
  simpl insertSorted. rewrite cmp_key.
  destruct (Qltb (key b) (key a)) eqn:E; [| reflexivity].
  apply Qltb_true in E.
  simpl filter in *. rewrite IH.
  destruct (Qeq_bool (key a) k) eqn:Ea, (Qeq_bool (key b) k) eqn:Eb;
    try reflexivity.
  apply Qeq_bool_iff in Ea, Eb. lra.
Qed.

Lemma keyed_sort_stable (k : Q) (l : list A) :
  filter (fun c => Qeq_bool (key c) k) (arraySort cmp l) =
  filter (fun c => Qeq_bool (key c) k) l.
Proof.
  induction l as [| a l IH]; [reflexivity |].
  simpl arraySort. rewrite keyed_insert_stable. simpl. now rewrite IH.
Qed.

Lemma keyed_insert_least (a : A) (l : list A) :
  Forall (keyAscending a) l -> insertSorted cmp a l = a :: l.
Proof.
  destruct 1 as [| b l Hab _]; [reflexivity |].
  simpl. rewrite cmp_key.
  apply Qltb_false in Hab. now rewrite Hab.
Qed.

Lemma keyed_insert_filter (p : A -> bool) (a : A) (l : list A) :
  StronglySorted keyAscending l ->
  filter p (insertSorted cmp a l) =
  if p a then insertSorted cmp a (filter p l) else filter p l.
Proof.
  induction 1 as [| b l Hs IH Hb].
  - simpl. now destruct (p a).
  - simpl insertSorted. rewrite cmp_key.
    destruct (Qltb (key b) (key a)) eqn:E.
    + simpl filter. rewrite IH.
      destruct (p b), (p a); try reflexivity.
      simpl insertSorted. now rewrite cmp_key, E.
    + apply Qltb_false in E.
      change (filter p (a :: b :: l))
        with (if p a then a :: filter p (b :: l) else filter p (b :: l)).
      destruct (p a); [| reflexivity].
      symmetry. apply keyed_insert_least.
      apply incl_Forall with (l1 := b :: l);
        [intros c Hc; apply filter_In in Hc; tauto |].
      constructor; [exact E |].
      eapply Forall_impl; [| exact Hb].
      cbv beta. intros c Hc. lra.
Qed.

(** Filtering before sorting or after gives the same list. *)
Lemma keyed_sort_filter (p : A -> bool) (l : list A) :
  arraySort cmp (filter p l) = filter p (arraySort cmp l).
Proof.
  induction l as [| a l IH]; [reflexivity |].
  simpl arraySort. rewrite keyed_insert_filter by apply keyed_sort_sorted.
  simpl filter. destruct (p a); simpl; now rewrite IH.
Qed.

End KeyedSort.

Section DirectedSort.

Import UseLayer.

Variable A : Type.
Variable key : A -> Q.

Local Abbreviation directed descending :=
  (fun a b : A => if descending : bool then key b - key a else key a - key b).

Local Abbreviation inOrder descending :=
  (fun a b : A => if descending : bool then key b <= key a
                  else key a <= key b).

Lemma StronglySorted_impl (R R' : A -> A -> Prop) (l : list A) :
  (forall a b, R a b -> R' a b) ->
  StronglySorted R l -> StronglySorted R' l.
Proof.
  intros H. induction 1 as [| a l Hs IH Ha]; constructor; auto.
  eapply Forall_impl; [| exact Ha]. auto.
Qed.

Lemma ascending_cmp (a b : A) :
  Qltb 0 (key a - key b) = Qltb (key b) (key a).
Proof.
  destruct (Qltb (key b) (key a)) eqn:E.
  - apply Qltb_true. apply Qltb_true in E. lra.
  - apply Qltb_false. apply Qltb_false in E. lra.
Qed.

Lemma descending_cmp (a b : A) :
  Qltb 0 (key b - key a) = Qltb (- key b) (- key a).
Proof.
  destruct (Qltb (- key b) (- key a)) eqn:E.
  - apply Qltb_true. apply Qltb_true in E. lra.
  - apply Qltb_false. apply Qltb_false in E. lra.
Qed.

Lemma negated_key_filter (k : Q) (l : list A) :
  filter (fun c => Qeq_bool (- key c) (- k)) l
  = filter (fun c => Qeq_bool (key c) k) l.
Proof.
  apply filter_ext. intro c.
  destruct (Qeq_bool (key c) k) eqn:E.
  - apply Qeq_bool_iff. apply Qeq_bool_iff in E. lra.
  - apply Qeq_bool_false. apply Qeq_bool_false in E. lra.
Qed.

(** What the sort with the comparator [b - a] or [a - b] on keys does. *)
Lemma directed_sort_spec (descending : bool) (l : list A) :
  let r := arraySort (directed descending) l in
  Permutation l r /\
  StronglySorted (inOrder descending) r /\
  (forall k, filter (fun c => Qeq_bool (key c) k) r
             = filter (fun c => Qeq_bool (key c) k) l) /\
  (forall p, arraySort (directed descending) (filter p l) = filter p r).
Proof.
  intro r. subst r. destruct descending.
  - split; [apply keyed_sort_perm |]. split; [| split].
    + eapply StronglySorted_impl;
        [| apply (keyed_sort_sorted A (fun c => - key c) _ descending_cmp)].
      cbv beta. intros a b H. lra.
    + intro k. rewrite <- !negated_key_filter.
      apply (keyed_sort_stable A (fun c => - key c) _ descending_cmp).
    + intro p.
      apply (keyed_sort_filter A (fun c => - key c) _ descending_cmp).
  - split; [apply keyed_sort_perm |]. split; [| split].
    + apply (keyed_sort_sorted A key _ ascending_cmp).
    + intro k. apply (keyed_sort_stable A key _ ascending_cmp).
    + intro p. apply (keyed_sort_filter A key _ ascending_cmp).
Qed.

Lemma directed_sort_best_first (l : list A) (first : A) (rest : list A) :
  arraySort (directed true) l = first :: rest ->
  forall c, In c l -> key c <= key first.
Proof.
  intros E c Hin.
  destruct (directed_sort_spec true l) as (Hperm & Hs & _).
  cbv zeta in Hperm, Hs. rewrite E in Hperm, Hs.
  apply (Permutation_in _ Hperm) in Hin.
  destruct Hin as [<- | Hin]; [lra |].
  inversion Hs as [| ? ? _ Hall]; subst.
  rewrite Forall_forall in Hall. now apply Hall.
Qed.

End DirectedSort.

(** X6. [sortDetectionsByConfidence] returns a permutation of the batch in
    descending (by default) or ascending order of confidence, detections
    of equal confidence staying in their order of the batch; so the first
    detection of the default order has the highest confidence, and
    filtering the batch before sorting or after gives the same list. *)
Theorem sortDetectionsByConfidence_is_a_stable_ordering
    (ds : list Detection) (descending : bool) :
  let r := LayerContextUtils.sortDetectionsByConfidence ds descending in
  Permutation ds r /\
  StronglySorted
    (fun a b => if descending then Det.confidence b <= Det.confidence a
                else Det.confidence a <= Det.confidence b) r /\
  (forall k, filter (fun d => Qeq_bool (Det.confidence d) k) r
             = filter (fun d => Qeq_bool (Det.confidence d) k) ds) /\
  (forall first rest d,
     LayerContextUtils.sortDetectionsByConfidence ds true = first :: rest ->
     In d ds -> Det.confidence d <= Det.confidence first) /\
  (forall m,
     LayerContextUtils.sortDetectionsByConfidence
       (LayerContextUtils.filterDetectionsByConfidence ds m) descending
     = LayerContextUtils.filterDetectionsByConfidence r m) /\
  (forall t,
     LayerContextUtils.sortDetectionsByConfidence
       (LayerContextUtils.filterDetectionsByType ds t) descending
     = LayerContextUtils.filterDetectionsByType r t).
Proof.
  intro r.
  destruct (directed_sort_spec Detection Det.confidence descending ds)
    as (Hperm & Hsorted & Hstable & Hfilter).
  split; [exact Hperm |]. split; [exact Hsorted |]. split; [exact Hstable |].
  split.
  - intros first rest d E.
    exact (directed_sort_best_first Detection Det.confidence ds first rest E d).
  - split; intro; apply Hfilter.
Qed.

(** ** Filtering and grouping a batch (layerContext.ts) *)

Section Batches.

Import LayerContext LayerContextUtils.

Lemma Qle_bool_max (m1 m2 c : Q) :
  Qle_bool (Qmax m1 m2) c = Qle_bool m1 c && Qle_bool m2 c.
Proof.
  apply Bool.eq_iff_eq_true.
  rewrite andb_true_iff, !Qle_bool_iff.
  destruct (Q.max_spec m1 m2) as [[? ->] | [? ->]]; split; intros; try split; lra.
Qed.

Lemma filter_twice {A} (p q : A -> bool) (l : list A) :
  filter q (filter p l) = filter (fun a => p a && q a) l.
Proof.
  induction l as [| a l IH]; [reflexivity |].
  simpl. destruct (p a); simpl; [destruct (q a) |]; now rewrite IH.
Qed.

Lemma ownProperty_pushTo (key l : string) (d : Detection) (groups : Groups) :
  ownProperty l (pushTo key d groups) =
  if String.eqb key l
  then option_map (fun v => v ++ [d]) (ownProperty l groups)
  else ownProperty l groups.
Proof.
  induction groups as [| [k v] groups IH]; simpl.
  - now destruct (String.eqb key l).
  - destruct (String.eqb_spec k key) as [-> | Hk]; simpl.
    + now destruct (String.eqb key l).
    + rewrite IH. destruct (String.eqb_spec k l) as [-> | Hl];
        [| reflexivity].
      destruct (String.eqb_spec key l) as [-> | _]; [congruence | reflexivity].
Qed.

Lemma ownProperty_app_new (key l : string) (v : list Detection)
    (groups : Groups) :
  ownProperty l (groups ++ [(key, v)]) =
  match ownProperty l groups with
  | Some w => Some w
  | None => if String.eqb key l then Some v else None
  end.
Proof.
  induction groups as [| [k w] groups IH]; simpl; [reflexivity |].
  now destruct (String.eqb k l).
Qed.

(** After the reduce, a label holds what it held before followed by the
    detections of that label, in the order of the batch. *)
Lemma reduceFrom_lookup (inherited : string -> bool) (ds : list Detection) :
  forall groups,
  (forall d, In d ds -> inherited (Det.label d) = false) ->
  exists groups',
    reduceFrom inherited groups ds = Some groups' /\
    forall l,
      ownProperty l groups' =
      match ownProperty l groups,
            filter (fun d => String.eqb (Det.label d) l) ds with
      | Some v, f => Some (v ++ f)
      | None, [] => None
      | None, f => Some f
      end.
Proof.
  induction ds as [| d ds IH]; intros groups Hok.
  - exists groups. split; [reflexivity |]. intro l. simpl.
    destruct (ownProperty l groups); [now rewrite app_nil_r | reflexivity].
  - assert (Hd : inherited (Det.label d) = false) by (apply Hok; now left).
    assert (Hrest : forall d', In d' ds -> inherited (Det.label d') = false)
      by (intros; apply Hok; now right).
    simpl. unfold groupStep.
    destruct (ownProperty (Det.label d) groups) as [v |] eqn:Eown.
    + destruct (IH (pushTo (Det.label d) d groups) Hrest) as (g' & Hg' & Hl).
      exists g'. split; [exact Hg' |]. intro l. rewrite Hl.
      rewrite ownProperty_pushTo.
      destruct (String.eqb_spec (Det.label d) l) as [<- | Hne].
      * rewrite Eown. simpl. now rewrite <- app_assoc.
      * reflexivity.
    + rewrite Hd.
      destruct (IH (groups ++ [(Det.label d, [d])]) Hrest) as (g' & Hg' & Hl).
      exists g'. split; [exact Hg' |]. intro l. rewrite Hl.
      rewrite ownProperty_app_new.
      destruct (String.eqb_spec (Det.label d) l) as [<- | Hne].
      * rewrite Eown. reflexivity.
      * destruct (ownProperty l groups); reflexivity.
Qed.

Lemma reduceFrom_throws (inherited : string -> bool) (ds : list Detection) :
  forall groups,
  (forall l v, ownProperty l groups = Some v -> inherited l = false) ->
  (exists d, In d ds /\ inherited (Det.label d) = true) ->
  reduceFrom inherited groups ds = None.
Proof.
  induction ds as [| d ds IH]; intros groups Hown (d0 & Hin & Hbad);
    [contradiction |].
  simpl. unfold groupStep.
  destruct (ownProperty (Det.label d) groups) as [v |] eqn:Eown.
  - assert (Hd : inherited (Det.label d) = false) by eauto.
    destruct Hin as [-> | Hin]; [congruence |].
    apply IH; [| eauto].
    intros l w. rewrite ownProperty_pushTo.
    destruct (String.eqb_spec (Det.label d) l) as [<- | _]; [auto |].
    apply Hown.
  - destruct (inherited (Det.label d)) eqn:Hd; [reflexivity |].
    destruct Hin as [-> | Hin]; [congruence |].
    apply IH; [| eauto].
    intros l w. rewrite ownProperty_app_new.
    destruct (ownProperty l groups) eqn:El; [intros _; eauto |].
    destruct (String.eqb_spec (Det.label d) l) as [<- | _];
      [auto | discriminate].
Qed.

End Batches.

(** X8. Filtering by confidence twice is filtering once by the larger
    threshold, the type filter and the confidence filter can be applied
    in either order, and a hit test on a filtered batch only ever returns
    a detection of the batch that meets the threshold. *)
Theorem detection_filters_compose
    (ds : list Detection) (m1 m2 : Q) (t : Det.DetectionType) :
  LayerContextUtils.filterDetectionsByConfidence
    (LayerContextUtils.filterDetectionsByConfidence ds m1) m2
  = LayerContextUtils.filterDetectionsByConfidence ds (Qmax m1 m2) /\
  LayerContextUtils.filterDetectionsByType
    (LayerContextUtils.filterDetectionsByConfidence ds m1) t
  = LayerContextUtils.filterDetectionsByConfidence
      (LayerContextUtils.filterDetectionsByType ds t) m1 /\
  (forall px py d,
     LayerContext.findDetectionAtPoint px py
       (LayerContextUtils.filterDetectionsByConfidence ds m1) = Some d ->
     In d ds /\ m1 <= Det.confidence d /\
     LayerContext.isPointInBoundingBox px py (Det.bbox d) = true).
Proof.
  unfold LayerContextUtils.filterDetectionsByConfidence,
         LayerContextUtils.filterDetectionsByType.
  split; [| split].
  - rewrite filter_twice. apply filter_ext. intro d.
    now rewrite Qle_bool_max.
  - rewrite !filter_twice. apply filter_ext. intro d. apply andb_comm.
  - intros px py d E. unfold LayerContext.findDetectionAtPoint in E.
    apply (proj1 (findDetectionFrom_Some px py _ _ d (Nat.le_refl _))) in E.
    destruct E as (i & _ & Hnth & Hhit & _).
    apply nth_error_In, filter_In in Hnth as [Hin Hc].
    apply Qle_bool_iff in Hc. auto.
Qed.

(** X9. When no label of the batch names a member of the host's
    [Object.prototype], [groupDetectionsByLabel] returns an object in
    which every label of the batch holds exactly the detections with that
    label, in the order of the batch, and no other label is present; when
    some label does name such a member (for instance [constructor]), the
    call throws. *)
Theorem groupDetectionsByLabel_groups_or_throws
    (inherited : string -> bool) (ds : list Detection) :
  ((forall d, In d ds -> inherited (Det.label d) = false) ->
   exists groups,
     LayerContextUtils.groupDetectionsByLabel inherited ds = Some groups /\
     forall l,
       LayerContextUtils.ownProperty l groups =
       match filter (fun d => String.eqb (Det.label d) l) ds with
       | [] => None
       | f => Some f
       end) /\
  ((exists d, In d ds /\ inherited (Det.label d) = true) ->
   LayerContextUtils.groupDetectionsByLabel inherited ds = None).
Proof.
  split.
  - intro Hok.
    destruct (reduceFrom_lookup inherited ds [] Hok) as (g & Hg & Hl).
    exists g. split; [exact Hg |]. intro l. rewrite Hl. reflexivity.
  - intro Hbad. apply reduceFrom_throws; [| exact Hbad].
    intros l v. discriminate.
Qed.

(** ** The registry, continued (useLayer.ts) *)

Section RegistryLookup.

Import UseLayer Calls.

Lemma getLayerById_absent (layerId : string) (layers : list Layer) :
  getLayerById layerId layers = None <-> ~ In layerId (ids layers).
Proof.
  unfold getLayerById, ids. induction layers as [| l layers IH]; simpl.
  - tauto.
  - destruct (String.eqb_spec (id l) layerId) as [E | E].
    + split; [discriminate | intro H; elim H; now left].
    + rewrite IH. tauto.
Qed.

Lemma getLayerById_app (layerId : string) (l1 l2 : list Layer) :
  getLayerById layerId (l1 ++ l2) =
  match getLayerById layerId l1 with
  | Some l => Some l
  | None => getLayerById layerId l2
  end.
Proof.
  unfold getLayerById. induction l1 as [| l l1 IH]; simpl; [reflexivity |].
  now destruct (String.eqb (id l) layerId).
Qed.

Lemma getLayerById_id (layerId : string) (layers : list Layer) (l : Layer) :
  getLayerById layerId layers = Some l -> id l = layerId /\ In l layers.
Proof.
  unfold getLayerById. intro H. apply find_some in H as [Hin E].
  apply String.eqb_eq in E. auto.
Qed.

Lemma getLayerById_removeLayer (layerId other : string) (layers : list Layer) :
  getLayerById other (fst (removeLayer layerId layers)) =
  if String.eqb other layerId then None else getLayerById other layers.
Proof.
  unfold getLayerById, removeLayer. simpl.
  induction layers as [| l layers IH]; simpl.
  - now destruct (String.eqb other layerId).
  - destruct (String.eqb_spec (id l) layerId) as [E | E]; simpl.
    + rewrite IH. destruct (String.eqb_spec other layerId) as [-> | Ho];
        [reflexivity |].
      destruct (String.eqb_spec (id l) other) as [E' | _];
        [congruence | reflexivity].
    + destruct (String.eqb_spec (id l) other) as [E' | _]; [| exact IH].
      destruct (String.eqb_spec other layerId) as [-> | _];
        [contradiction | reflexivity].
Qed.

Lemma getLayerById_updateLayer (layerId other : string)
    (updates : PartialLayer) (layers : list Layer) :
  getLayerById other (fst (updateLayer layerId updates layers)) =
  if String.eqb other layerId
  then option_map (fun l => mergeLayer l updates) (getLayerById other layers)
  else getLayerById other layers.
Proof.
  unfold getLayerById, updateLayer. simpl.
  induction layers as [| l layers IH]; simpl.
  - now destruct (String.eqb other layerId).
  - destruct (String.eqb_spec (id l) layerId) as [E | E]; simpl.
    + destruct (String.eqb_spec (id l) other) as [E' | E'].
      * rewrite <- E', E, String.eqb_refl. reflexivity.
      * rewrite IH. reflexivity.
    + destruct (String.eqb_spec (id l) other) as [E' | E'].
      * destruct (String.eqb_spec other layerId) as [-> | _];
          [contradiction | reflexivity].
      * exact IH.
Qed.

Lemma updateLayer_absent (layerId : string) (updates : PartialLayer)
    (layers : list Layer) :
  ~ In layerId (ids layers) ->
  fst (updateLayer layerId updates layers) = layers.
Proof.
  unfold updateLayer, ids. simpl.
  induction layers as [| l layers IH]; simpl; intro H; [reflexivity |].
  destruct (String.eqb_spec (id l) layerId) as [E | E].
  - elim H. now left.
  - rewrite IH; auto.
Qed.

End RegistryLookup.

(** X10. After [addLayer], looking up the id of the added layer finds that
    layer when the id was new, and the layer that was already registered
    under the id otherwise (it is never overwritten); the layers of every
    other id are found as before. *)
Theorem addLayer_then_getLayerById (layers : list Layer) (layer : Layer) :
  let layers' := fst (UseLayer.addLayer layer layers) in
  (~ In (id layer) (Calls.ids layers) ->
   UseLayer.getLayerById (id layer) layers' = Some layer /\
   layers' = layers ++ [layer]) /\
  (forall old,
     UseLayer.getLayerById (id layer) layers = Some old ->
     UseLayer.getLayerById (id layer) layers' = Some old /\
     layers' = layers) /\
  (forall other, other <> id layer ->
     UseLayer.getLayerById other layers' = UseLayer.getLayerById other layers).
Proof.
  intro layers'. subst layers'. split; [| split].
  - intro Hnew. rewrite addLayer_fresh by assumption. simpl.
    split; [| reflexivity].
    rewrite getLayerById_app.
    apply getLayerById_absent in Hnew. rewrite Hnew.
    unfold UseLayer.getLayerById. simpl. now rewrite String.eqb_refl.
  - intros old Hold.
    assert (Hin : In (id layer) (Calls.ids layers)).
    { destruct (in_dec string_dec (id layer) (Calls.ids layers)) as [H | H];
        [exact H |].
      apply getLayerById_absent in H. congruence. }
    rewrite addLayer_duplicate by assumption. simpl. auto.
  - intros other Hother.
    destruct (in_dec string_dec (id layer) (Calls.ids layers)) as [H | H].
    + now rewrite addLayer_duplicate.
    + rewrite addLayer_fresh by assumption. simpl.
      rewrite getLayerById_app.
      destruct (UseLayer.getLayerById other layers); [reflexivity |].
      unfold UseLayer.getLayerById. simpl.
      destruct (String.eqb_spec (id layer) other); [congruence | reflexivity].
Qed.

(** X11. After [removeLayer] no layer is found under the removed id, even
    if several layers carried it; the layers of every other id are found
    as before; removing again changes nothing; and removing a layer that
    was just added under a new id gives back the list as it was. *)
Theorem removeLayer_then_getLayerById
    (layers : list Layer) (layerId : string) (layer : Layer) :
  let layers' := fst (UseLayer.removeLayer layerId layers) in
  UseLayer.getLayerById layerId layers' = None /\
  ~ In layerId (Calls.ids layers') /\
  (forall other, other <> layerId ->
     UseLayer.getLayerById other layers' = UseLayer.getLayerById other layers) /\
  fst (UseLayer.removeLayer layerId layers') = layers' /\
  (~ In (id layer) (Calls.ids layers) ->
   fst (UseLayer.removeLayer (id layer)
          (fst (UseLayer.addLayer layer layers))) = layers).
Proof.
  intro layers'. subst layers'.
  assert (Hnone : UseLayer.getLayerById layerId
                    (fst (UseLayer.removeLayer layerId layers)) = None)
    by (rewrite getLayerById_removeLayer; now rewrite String.eqb_refl).
  split; [exact Hnone |].
  split; [now apply getLayerById_absent |].
  split.
  - intros other Hother. rewrite getLayerById_removeLayer.
    destruct (String.eqb_spec other layerId); [contradiction | reflexivity].
  - split.
    + apply removeLayer_absent. now apply getLayerById_absent.
    + intro Hnew. rewrite addLayer_fresh by assumption.
      unfold UseLayer.removeLayer. simpl. rewrite filter_app. simpl.
      rewrite String.eqb_refl. simpl. rewrite app_nil_r.
      now apply (removeLayer_absent (id layer) layers).
Qed.

(** X12. After [updateLayer] the layer found under the id is the old one
    with the given properties replaced and its id kept, whatever id the
    update carried; the layers of every other id are found as before;
    the ids stay in the same positions; and an update of an id that is
    not registered leaves the list as it was. *)
Theorem updateLayer_then_getLayerById
    (layers : list Layer) (layerId : string) (updates : PartialLayer) :
  let layers' := fst (UseLayer.updateLayer layerId updates layers) in
  (forall old,
     UseLayer.getLayerById layerId layers = Some old ->
     UseLayer.getLayerById layerId layers'
       = Some (UseLayer.mergeLayer old updates) /\
     id (UseLayer.mergeLayer old updates) = layerId) /\
  (forall other, other <> layerId ->
     UseLayer.getLayerById other layers' = UseLayer.getLayerById other layers) /\
  Calls.ids layers' = Calls.ids layers /\
  (~ In layerId (Calls.ids layers) -> layers' = layers).
Proof.
  intro layers'. subst layers'. split; [| split; [| split]].
  - intros old Hold. rewrite getLayerById_updateLayer, String.eqb_refl, Hold.
    split; [reflexivity |]. simpl.
    now apply getLayerById_id in Hold.
  - intros other Hother. rewrite getLayerById_updateLayer.
    destruct (String.eqb_spec other layerId); [contradiction | reflexivity].
  - apply updateLayer_ids.
  - apply updateLayer_absent.
Qed.

Section ViewUnderChange.

Import UseLayer Calls.

Lemma sortedLayers_filter (p : Layer -> bool) (layers : list Layer) :
  sortedLayers (filter p layers) = filter p (sortedLayers layers).
Proof.
  apply (keyed_sort_filter Layer orderKey compareFn).
  intros a b. apply (ascending_cmp Layer orderKey).
Qed.

Lemma insertSorted_map (f : Layer -> Layer) (a : Layer) (l : list Layer) :
  (forall c, orderKey (f c) = orderKey c) ->
  insertSorted compareFn (f a) (map f l) = map f (insertSorted compareFn a l).
Proof.
  intro Hf. induction l as [| b l IH]; [reflexivity |].
  simpl. unfold compareFn at 1 3. rewrite !Hf.
  destruct (Qltb 0 (orderKey a - orderKey b)); simpl; [now rewrite IH |].
  reflexivity.
Qed.

Lemma sortedLayers_map (f : Layer -> Layer) (layers : list Layer) :
  (forall c, orderKey (f c) = orderKey c) ->
  sortedLayers (map f layers) = map f (sortedLayers layers).
Proof.
  intro Hf. unfold sortedLayers.
  induction layers as [| a l IH]; [reflexivity |].
  simpl. rewrite IH. now apply insertSorted_map.
Qed.

Lemma sorted_app (l1 l2 : list Layer) :
  StronglySorted keyLe l1 -> StronglySorted keyLe l2 ->
  (forall a b, In a l1 -> In b l2 -> keyLe a b) ->
  StronglySorted keyLe (l1 ++ l2).
Proof.
  induction 1 as [| a l1 Hs IH Ha]; intros H2 Hcross; [exact H2 |].
  simpl. constructor.
  - apply IH; [exact H2 |]. intros; apply Hcross; [now right | assumption].
  - apply Forall_app. split; [exact Ha |].
    apply Forall_forall. intros b Hb. apply Hcross; [now left | exact Hb].
Qed.

(** A test that depends only on the key keeps or drops a whole key
    class. *)
Lemma sameKey_class (k : Q) (p : Layer -> bool) (b : bool) (l : list Layer) :
  (forall c, sameKey k c = true -> p c = b) ->
  filter (sameKey k) (filter p l) = if b then filter (sameKey k) l else [].
Proof.
  intro H. induction l as [| c l IH]; simpl; [now destruct b |].
  destruct (sameKey k c) eqn:Ek.
  - rewrite (H c Ek). destruct b; simpl; rewrite ?Ek, IH; reflexivity.
  - destruct (p c); simpl; rewrite ?Ek; exact IH.
Qed.

End ViewUnderChange.

(** X13. The view changes only where the registry does.  Removing a layer
    removes it from the view and leaves the others in their order; an
    update that does not touch [zIndex] replaces the layer in place in
    the view; and a layer added under a new id enters the view after all
    layers whose order key is at most its own and before all layers of
    greater key. *)
Theorem view_follows_registry_changes
    (layers : list Layer) (layerId : string) (updates : PartialLayer)
    (layer : Layer) :
  let view := UseLayer.sortedLayers layers in
  UseLayer.sortedLayers (fst (UseLayer.removeLayer layerId layers))
    = fst (UseLayer.removeLayer layerId view) /\
  (p_zIndex updates = None ->
   UseLayer.sortedLayers (fst (UseLayer.updateLayer layerId updates layers))
     = fst (UseLayer.updateLayer layerId updates view)) /\
  (~ In (id layer) (Calls.ids layers) ->
   UseLayer.sortedLayers (fst (UseLayer.addLayer layer layers))
     = filter (fun l => Qle_bool (UseLayer.orderKey l)
                                 (UseLayer.orderKey layer)) view
       ++ layer ::
       filter (fun l => negb (Qle_bool (UseLayer.orderKey l)
                                       (UseLayer.orderKey layer))) view).
Proof.
  intro view. subst view. split; [| split].
  - unfold UseLayer.removeLayer. simpl. apply sortedLayers_filter.
  - intro Hz. unfold UseLayer.updateLayer. simpl. apply sortedLayers_map.
    intro c. destruct (String.eqb (id c) layerId); [| reflexivity].
    unfold UseLayer.orderKey, UseLayer.mergeLayer. simpl. now rewrite Hz.
  - intro Hnew. rewrite addLayer_fresh by assumption. simpl.
    set (view := UseLayer.sortedLayers layers).
    pose (le := fun l => Qle_bool (UseLayer.orderKey l)
                                  (UseLayer.orderKey layer)).
    pose (gt := fun l => negb (Qle_bool (UseLayer.orderKey l)
                                        (UseLayer.orderKey layer))).
    change (UseLayer.sortedLayers (layers ++ [layer])
            = filter le view ++ layer :: filter gt view).
    assert (Hview : StronglySorted Calls.keyLe view)
      by apply arraySort_sorted.
    assert (Hle : forall c, le c = true <->
                            UseLayer.orderKey c <= UseLayer.orderKey layer)
      by (intro c; apply Qle_bool_iff).
    assert (Hgt : forall c, gt c = true <->
                            UseLayer.orderKey layer < UseLayer.orderKey c).
    { intro c. unfold gt. rewrite negb_true_iff. split.
      - intro E.
        destruct (Qlt_le_dec (UseLayer.orderKey layer) (UseLayer.orderKey c))
          as [Hlt | Hge]; [exact Hlt |].
        apply Qle_bool_iff in Hge. congruence.
      - intro Hlt.
        destruct (Qle_bool (UseLayer.orderKey c) (UseLayer.orderKey layer))
          eqn:E; [| reflexivity].
        apply Qle_bool_iff in E. lra. }
    apply stable_sorted_unique.
    + apply arraySort_sorted.
    + apply sorted_app; [now apply filter_sorted | |].
      * constructor; [now apply filter_sorted |].
        apply Forall_forall. intros b Hb. apply filter_In in Hb as [_ Hb].
        apply Hgt in Hb. unfold Calls.keyLe. lra.
      * intros a b Ha Hb. apply filter_In in Ha as [_ Ha]. apply Hle in Ha.
        destruct Hb as [<- | Hb]; [exact Ha |].
        apply filter_In in Hb as [_ Hb]. apply Hgt in Hb.
        unfold Calls.keyLe. lra.
    + intro k.
      change (UseLayer.sortedLayers (layers ++ [layer]))
        with (UseLayer.arraySort UseLayer.compareFn (layers ++ [layer])).
      rewrite (arraySort_sameKey k), !filter_app.
      rewrite <- (arraySort_sameKey k layers).
      change (UseLayer.arraySort UseLayer.compareFn layers) with view.
      cbn [filter].
      destruct (Calls.sameKey k layer) eqn:El.
      * assert (Ek : k == UseLayer.orderKey layer).
        { unfold Calls.sameKey in El. apply Qeq_bool_iff in El. lra. }
        rewrite (sameKey_class k le true), (sameKey_class k gt false);
          [reflexivity | |].
        -- intros c Hc. unfold Calls.sameKey in Hc. apply Qeq_bool_iff in Hc.
           destruct (gt c) eqn:E; [| reflexivity]. apply Hgt in E. lra.
        -- intros c Hc. unfold Calls.sameKey in Hc. apply Qeq_bool_iff in Hc.
           apply Hle. lra.
      * assert (Ek : ~ k == UseLayer.orderKey layer).
        { unfold Calls.sameKey in El. apply Qeq_bool_false in El.
          intro E. apply El. lra. }
        destruct (Qlt_le_dec k (UseLayer.orderKey layer)) as [Hlt | Hge].
        -- rewrite (sameKey_class k le true), (sameKey_class k gt false);
             [now rewrite !app_nil_r | |].
           ++ intros c Hc. unfold Calls.sameKey in Hc.
              apply Qeq_bool_iff in Hc.
              destruct (gt c) eqn:E; [| reflexivity]. apply Hgt in E. lra.
           ++ intros c Hc. unfold Calls.sameKey in Hc.
              apply Qeq_bool_iff in Hc. apply Hle. lra.
        -- rewrite (sameKey_class k le false), (sameKey_class k gt true);
             [now rewrite app_nil_r | |].
           ++ intros c Hc. unfold Calls.sameKey in Hc.
              apply Qeq_bool_iff in Hc. apply Hgt. lra.
           ++ intros c Hc. unfold Calls.sameKey in Hc.
              apply Qeq_bool_iff in Hc.
              destruct (le c) eqn:E; [| reflexivity]. apply Hle in E. lra.
Qed.

(** ** The frame clock, continued (useFrameProcessor.ts) *)

Section ClockRuns.

Import UseFrameProcessor.

Lemma processFrame_disabled (opts : FrameProcessorOptions) (onFrame : callback)
    (now : Q) (refs : Refs) :
  enabled opts = false -> processFrame opts onFrame now refs = ([], Some refs).
Proof. intro H. unfold processFrame. now rewrite H. Qed.

End ClockRuns.

(** X15. Whatever the refs hold, an invocation of [processFrame] never
    throws, invokes the callback at most once and leaves the refs as
    they were unless it invokes the callback.  When the clock is disabled
    it does nothing at all, not even request the next frame; when an
    invocation is in flight it only requests the next frame. *)
Theorem processFrame_guards
    (opts : UseFrameProcessor.FrameProcessorOptions) (onFrame : callback)
    (now : Q) (refs : UseFrameProcessor.Refs) :
  let invocation := UseFrameProcessor.processFrame opts onFrame now refs in
  completed invocation = true /\
  (List.length (filter Calls.isOnFrame (trace invocation)) <= 1)%nat /\
  (~ In EvOnFrame (trace invocation) -> snd invocation = Some refs) /\
  (UseFrameProcessor.enabled opts = false -> invocation = ([], Some refs)) /\
  (UseFrameProcessor.enabled opts = true ->
   UseFrameProcessor.isProcessing refs = true ->
   invocation = ([EvRequestAnimationFrame], Some refs)) /\
  (UseFrameProcessor.enabled opts = true ->
   exists t, trace invocation = t ++ [EvRequestAnimationFrame]).
Proof.
  intro invocation. subst invocation.
  destruct (UseFrameProcessor.enabled opts) eqn:He.
  - rewrite processFrame_cases by assumption.
    destruct (jslt _ _) eqn:Hlt; cbn [orb].
    { split; [reflexivity |]. split; [simpl; lia |].
      split; [reflexivity |]. split; [discriminate |].
      split; [reflexivity |]. intros _. now exists []. }
    destruct (UseFrameProcessor.isProcessing refs) eqn:Hp.
    { split; [reflexivity |]. split; [simpl; lia |].
      split; [reflexivity |]. split; [discriminate |].
      split; [reflexivity |]. intros _. now exists []. }
    split; [reflexivity |].
    split; [destruct onFrame; simpl; lia |].
    split; [intro H; elim H; destruct onFrame; now left |].
    split; [discriminate |]. split; [discriminate |].
    intros _. destruct onFrame;
      [now exists [EvOnFrame]
      | now exists [EvOnFrame; EvConsole ErrorProcessingFrame]].
  - rewrite processFrame_disabled by assumption.
    split; [reflexivity |]. split; [simpl; lia |].
    split; [reflexivity |]. split; [reflexivity |].
    split; discriminate.
Qed.

(** ** The composition pipeline, continued (Cam) *)

Section TickStructure.

Import Calls Observe.

Lemma untilThrow_app (cs rest : callList) :
  untilThrow (cs ++ rest) =
  if allReturn cs then map fst cs ++ untilThrow rest else untilThrow cs.
Proof.
  induction cs as [| [e [|]] cs IH]; simpl; [reflexivity | | reflexivity].
  rewrite IH. now destruct (allReturn cs).
Qed.

Lemma allReturn_app (cs rest : callList) :
  allReturn (cs ++ rest) = allReturn cs && allReturn rest.
Proof. unfold allReturn. apply forallb_app. Qed.

Lemma allReturn_processLayerCalls (ls : list Layer) :
  allReturn (flat_map processLayerCalls ls)
  = allReturn (flat_map layerInvocations
                 (filter (fun l => negb (Cam.hidden l)) ls)).
Proof.
  induction ls as [| l ls IH]; [reflexivity |].
  cbn [flat_map filter]. rewrite allReturn_app, IH.
  unfold processLayerCalls.
  destruct (Cam.hidden l); [reflexivity |].
  cbn [negb flat_map]. rewrite allReturn_app. f_equal.
  unfold layerInvocations.
  destruct (onFrame l) as [[|] |], (render l) as [[|] |]; reflexivity.
Qed.




(** The trace of an accepted frame, cut into capture, layer round and
    what follows. *)
Lemma renderFrame_trace (props : CamProps.CamProps) (layers : list Layer) :
  trace (Cam.renderFrame props (UseLayer.sortedLayers layers))
  = EvDrawImage :: EvGetImageData ::
    untilThrow (flat_map processLayerCalls (UseLayer.sortedLayers layers) ++
                slotCall EvOnFrame (CamProps.onFrame props) ++
                [(EvRequestAnimationFrame, Returns)]).
Proof.
  rewrite renderFrame_calls, trace_runCalls. unfold renderFrameCalls.
  rewrite (arraySort_of_sorted (UseLayer.sortedLayers layers))
    by apply arraySort_sorted.
  reflexivity.
Qed.

Lemma renderFrame_completed (props : CamProps.CamProps) (layers : list Layer) :
  completed (Cam.renderFrame props (UseLayer.sortedLayers layers))
  = allReturn (layerSequence layers) && returns (CamProps.onFrame props).
Proof.
  rewrite renderFrame_calls, completed_runCalls. unfold renderFrameCalls.
  rewrite (arraySort_of_sorted (UseLayer.sortedLayers layers))
    by apply arraySort_sorted.
  cbn [app allReturn forallb snd]. fold (allReturn
    (flat_map processLayerCalls (UseLayer.sortedLayers layers) ++
     slotCall EvOnFrame (CamProps.onFrame props) ++
     [(EvRequestAnimationFrame, Returns)])).
  rewrite !allReturn_app, allReturn_processLayerCalls.
  unfold layerSequence, visibleInOrder.
  destruct (CamProps.onFrame props) as [[|] |]; simpl;
    now rewrite ?andb_true_r, ?andb_false_r.
Qed.

Lemma layer_events_in_processLayerCalls (e : event) (ls : list Layer) :
  In e (map fst (flat_map processLayerCalls ls)) ->
  isCapture e = false /\ isRequest e = false /\ isOnFrame e = false.
Proof.
  rewrite in_map_iff. intros ([e' cb] & <- & Hin).
  apply in_flat_map in Hin as (l & _ & Hin).
  unfold processLayerCalls in Hin.
  destruct (Cam.hidden l); [contradiction |].
  destruct (onFrame l), (render l); simpl in Hin;
    repeat (destruct Hin as [Hin | Hin]; [injection Hin as <- <-; auto |]);
    contradiction.
Qed.

Lemma untilThrow_incl (cs : callList) (e : event) :
  In e (untilThrow cs) -> In e (map fst cs).
Proof.
  induction cs as [| [e' [|]] cs IH]; simpl; [tauto | |].
  - intros [H | H]; auto.
  - intros [H | []]. auto.
Qed.

End TickStructure.

Section SaveRestore.

Import Calls Observe.

Lemma occurrences_app (p : event -> bool) (t1 t2 : list event) :
  occurrences p (t1 ++ t2) = (occurrences p t1 + occurrences p t2)%nat.
Proof. unfold occurrences. now rewrite filter_app, length_app. Qed.

Lemma occurrences_none (p : event -> bool) (t : list event) :
  (forall e, In e t -> p e = false) -> occurrences p t = 0%nat.
Proof.
  unfold occurrences. induction t as [| e t IH]; intro H; [reflexivity |].
  simpl. rewrite (H e) by now left. apply IH. intros; apply H; now right.
Qed.

(** One turn of the loop: what it adds to the saves and restores, and
    whether the loop goes on. *)
Lemma processLayerCalls_balance (l : Layer) :
  let block := processLayerCalls l in
  (allReturn block = true /\
   occurrences isSave (map fst block) = occurrences isRestore (map fst block) /\
   occurrences isSave (map fst block)
   = (if Cam.hidden l then 0
      else match render l with Some _ => 1 | None => 0 end)%nat) \/
  (allReturn block = false /\
   (occurrences isRestore (untilThrow block) = 0)%nat /\
   (occurrences isSave (untilThrow block) <= 1)%nat).
Proof.
  unfold processLayerCalls, occurrences.
  destruct (Cam.hidden l); [left; repeat split |].
  destruct (onFrame l) as [[|] |], (render l) as [[|] |]; simpl;
    first [ left; split; [reflexivity | split; reflexivity]
          | right; split; [reflexivity | split; [reflexivity | lia]] ].
Qed.

Lemma layerRound_balance (ls : list Layer) (rest : callList) :
  (forall e, In e (map fst rest) -> isSave e = false /\ isRestore e = false) ->
  let t := untilThrow (flat_map processLayerCalls ls ++ rest) in
  (occurrences isRestore t <= occurrences isSave t <=
   occurrences isRestore t + 1)%nat /\
  (allReturn (flat_map processLayerCalls ls) = true ->
   occurrences isSave t = occurrences isRestore t /\
   occurrences isSave t
   = List.length
       (filter (fun l => match render l with Some _ => true | None => false end)
               (filter (fun l => negb (Cam.hidden l)) ls))).
Proof.
  intros Hrest t. subst t.
  assert (Hr : occurrences isSave (untilThrow rest) = 0%nat /\
               occurrences isRestore (untilThrow rest) = 0%nat).
  { split; apply occurrences_none; intros e He;
      apply untilThrow_incl in He; now apply Hrest in He. }
  induction ls as [| l ls [IH1 IH2]]; cbn [flat_map app].
  - destruct Hr as [-> ->]. split; [lia |]. intros _. split; reflexivity.
  - rewrite <- app_assoc, untilThrow_app, allReturn_app.
    destruct (processLayerCalls_balance l) as [(Hall & Heq & Hn) | (Hall & H0 & H1)];
      cbv zeta in *; rewrite Hall.
    + rewrite !occurrences_app. split; [lia |].
      cbn [andb]. intro Hls. destruct (IH2 Hls) as [E1 E2].
      split; [lia |]. rewrite E2, Hn. cbn [filter].
      destruct (Cam.hidden l); cbn [negb]; [reflexivity |].
      cbn [filter]. now destruct (render l).
    + split; [lia | discriminate].
Qed.

End SaveRestore.


(** X18. On an accepted frame the tick completes exactly when every
    callback of the layer round and the top-level frame observer return;
    the observer is called exactly when it is configured and every layer
    callback returned; and the next frame is requested exactly when the
    tick completes, so a callback that throws stops the loop. *)
Theorem tick_reaches_observer_and_next_request
    (props : CamProps.CamProps) (env : Cam.RenderEnv) (layers : list Layer)
    (now : Q) (refs : Cam.Refs)
    (Hready : Calls.sourceReady env = true)
    (Hdue : Calls.frameDue props now refs = true) :
  let tick :=
    snd (Cam.processFrame props env (UseLayer.sortedLayers layers) now refs) in
  completed tick
    = Calls.allReturn (Observe.layerSequence layers)
      && Observe.returns (CamProps.onFrame props) /\
  (In EvOnFrame (trace tick) <->
   Calls.allReturn (Observe.layerSequence layers) = true /\
   CamProps.onFrame props <> None) /\
  (In EvRequestAnimationFrame (trace tick) <-> completed tick = true).
Proof.
  intro tick. subst tick. rewrite processFrame_accepted by assumption.
  split; [apply renderFrame_completed |].
  rewrite renderFrame_completed, renderFrame_trace, untilThrow_app.
  rewrite allReturn_processLayerCalls.
  change (Calls.allReturn
            (flat_map Calls.layerInvocations
               (filter (fun l => negb (Cam.hidden l))
                  (UseLayer.sortedLayers layers))))
    with (Calls.allReturn (Observe.layerSequence layers)).
  set (L := flat_map Calls.processLayerCalls (UseLayer.sortedLayers layers)).
  assert (HL : forall e, In e (map fst L) ->
                 Observe.isRequest e = false /\ Calls.isOnFrame e = false).
  { intros e He. apply layer_events_in_processLayerCalls in He. tauto. }
  assert (HL' : forall e, In e (Calls.untilThrow L) ->
                 Observe.isRequest e = false /\ Calls.isOnFrame e = false).
  { intros e He. apply HL. now apply untilThrow_incl. }
  destruct (Calls.allReturn (Observe.layerSequence layers)).
  - split.
    + split.
      * intro H. split; [reflexivity |].
        destruct H as [H | [H | H]]; try discriminate.
        apply in_app_or in H as [H | H]; [apply HL in H as [_ H]; discriminate |].
        destruct (CamProps.onFrame props); [discriminate |].
        destruct H as [H | []]. discriminate.
      * intros [_ H]. right. right. apply in_or_app. right.
        destruct (CamProps.onFrame props) as [[|] |]; [| | now elim H];
          now left.
    + split.
      * intro H. destruct H as [H | [H | H]]; try discriminate.
        apply in_app_or in H as [H | H]; [apply HL in H as [H _]; discriminate |].
        destruct (CamProps.onFrame props) as [[|] |]; [reflexivity | | reflexivity].
        destruct H as [H | []]. discriminate.
      * intro H. right. right. apply in_or_app. right.
        destruct (CamProps.onFrame props) as [[|] |]; simpl in *;
          [now right; left | discriminate | now left].
  - split.
    + split.
      * intro H. destruct H as [H | [H | H]]; try discriminate.
        apply HL' in H as [_ H]. discriminate.
      * intros [H _]. discriminate.
    + split.
      * intro H. destruct H as [H | [H | H]]; try discriminate.
        apply HL' in H as [H _]. discriminate.
      * discriminate.
Qed.

(** X19. On an accepted frame the drawing context is saved before each
    draw callback and restored after it returns: restores never exceed
    saves, at most one save is left without its restore (a draw callback
    that threw), and when every layer callback returns there are exactly
    as many saves, and as many restores, as visible layers with a draw
    callback. *)
Theorem context_saves_and_restores_are_paired
    (props : CamProps.CamProps) (env : Cam.RenderEnv) (layers : list Layer)
    (now : Q) (refs : Cam.Refs)
    (Hready : Calls.sourceReady env = true)
    (Hdue : Calls.frameDue props now refs = true) :
  let t :=
    trace (snd (Cam.processFrame props env (UseLayer.sortedLayers layers)
                  now refs)) in
  let saves := Observe.occurrences Observe.isSave t in
  let restores := Observe.occurrences Observe.isRestore t in
  (restores <= saves <= restores + 1)%nat /\
  (Calls.allReturn (Observe.layerSequence layers) = true ->
   saves = restores /\
   saves = List.length (Observe.drawingLayers layers)).
Proof.
  intros t saves restores. subst saves restores t.
  rewrite processFrame_accepted by assumption.
  rewrite renderFrame_trace.
  change (Observe.occurrences Observe.isSave (EvDrawImage :: EvGetImageData :: ?t))
    with (Observe.occurrences Observe.isSave t).
  destruct (layerRound_balance (UseLayer.sortedLayers layers)
              (Calls.slotCall EvOnFrame (CamProps.onFrame props) ++
               [(EvRequestAnimationFrame, Returns)])) as [H1 H2].
  { intros e He. destruct (CamProps.onFrame props); simpl in He;
      repeat (destruct He as [<- | He]; [split; reflexivity |]);
      contradiction. }
  cbv zeta in H1, H2. split; [exact H1 |].
  intro Hall. apply H2.
  rewrite allReturn_processLayerCalls. exact Hall.
Qed.

(** ** Pointer events and lifecycle, continued (Cam) *)

Section PointerMore.

Import Calls Observe.

Lemma handleCanvasHover_calls (props : CamProps.CamProps) (rect : Cam.DOMRect)
    (managed : list Layer) (event : Cam.ClientPoint) :
  let px := Cam.clientX event - Cam.left rect in
  let py := Cam.clientY event - Cam.top rect in
  Cam.handleCanvasHover props (Some rect) managed event
  = runCalls (flat_map (hoverCalls px py) managed ++
              slotCall (EvOnHover px py) (CamProps.onHover props)).
Proof.
  intros px py. unfold Cam.handleCanvasHover. fold px py.
  rewrite (forOf_calls _ (hoverCalls px py))
    by (intro l; apply whenSome_calls).
  now rewrite whenSome_calls, runCalls_app.
Qed.

Lemma mountLayers_calls (env : Cam.RenderEnv) (managed : list Layer) :
  Cam.isReady env = true -> Cam.canvasMounted env = true ->
  Cam.mountLayers env managed = runCalls (flat_map mountCalls managed).
Proof.
  intros Hr Hc. unfold Cam.mountLayers. rewrite Hr, Hc. cbn [negb orb].
  apply forOf_calls. intro l. apply whenSome_calls.
Qed.

Lemma slot_event_in_calls (f : Layer -> event) (slot : Layer -> option callback)
    (ls : list Layer) (e : event) :
  In e (map fst (flat_map (fun l => slotCall (f l) (slot l)) ls)) ->
  exists l, In l ls /\ e = f l /\ slot l <> None.
Proof.
  rewrite in_map_iff. intros ([e' cb] & <- & Hin).
  apply in_flat_map in Hin as (l & Hl & Hin).
  exists l. split; [exact Hl |].
  destruct (slot l); simpl in Hin; [| contradiction].
  destruct Hin as [[= <- <-] | []]. split; [reflexivity | discriminate].
Qed.

Lemma slot_event_called (f : Layer -> event) (slot : Layer -> option callback)
    (ls : list Layer) (l : Layer) (cb : callback) :
  In l ls -> slot l = Some cb ->
  In (f l) (map fst (flat_map (fun l => slotCall (f l) (slot l)) ls)).
Proof.
  intros Hin Hslot. apply in_map_iff. exists (f l, cb). split; [reflexivity |].
  apply in_flat_map. exists l. split; [exact Hin |].
  rewrite Hslot. now left.
Qed.

End PointerMore.

(** X20. A pointer event does nothing at all while the canvas is not
    mounted, and a touch event without a touch point does nothing either.
    A mouse move invokes the hover handler of every layer that is flagged
    interactive and has one, in the order of the view, up to the first
    that throws, and only hover handlers; the visible flag plays no part,
    so a hidden interactive layer is called too. *)
Theorem hover_reaches_every_interactive_layer
    (props : CamProps.CamProps) (rect : Cam.DOMRect) (layers : list Layer)
    (event : Cam.ClientPoint) :
  let managed := UseLayer.sortedLayers layers in
  let px := Cam.clientX event - Cam.left rect in
  let py := Cam.clientY event - Cam.top rect in
  let hover := Cam.handleCanvasHover props (Some rect) managed event in
  let handlers := flat_map (Observe.hoverCalls px py) managed in
  (Cam.handleCanvasClick props None managed event = ([], Some tt) /\
   Cam.handleCanvasHover props None managed event = ([], Some tt) /\
   Cam.handleCanvasTouch props None managed [event] = ([], Some tt) /\
   Cam.handleCanvasTouch props (Some rect) managed [] = ([], Some tt)) /\
  trace hover
    = Calls.untilThrow
        (handlers ++ Calls.slotCall (EvOnHover px py) (CamProps.onHover props)) /\
  (forall layerId x' y',
     ~ In (EvLayerOnClick layerId x' y') (trace hover)) /\
  (Calls.allReturn handlers = true ->
   forall l cb,
     In l layers -> interactive l = Some true -> onHover l = Some cb ->
     In (EvLayerOnHover (id l) px py) (trace hover)).
Proof.
  intros managed px py hover handlers.
  split; [repeat split |].
  assert (Htrace : trace hover = Calls.untilThrow
            (handlers ++
             Calls.slotCall (EvOnHover px py) (CamProps.onHover props))).
  { subst hover. rewrite handleCanvasHover_calls. apply trace_runCalls. }
  split; [exact Htrace |]. split.
  - intros layerId x' y' Hin. rewrite Htrace in Hin.
    apply untilThrow_incl in Hin. rewrite map_app in Hin.
    apply in_app_or in Hin as [Hin | Hin].
    + apply (slot_event_in_calls (fun l => EvLayerOnHover (id l) px py)
               (Cam.interactiveWith onHover)) in Hin
        as (l & _ & E & _). discriminate.
    + destruct (CamProps.onHover props); simpl in Hin;
        [destruct Hin as [E | []]; discriminate | contradiction].
  - intros Hret l cb Hin Hint Hcb.
    rewrite Htrace, untilThrow_app, Hret. apply in_or_app. left.
    apply (slot_event_called (fun l => EvLayerOnHover (id l) px py)
             (Cam.interactiveWith onHover) managed l cb).
    + eapply Permutation_in; [apply arraySort_perm | exact Hin].
    + unfold Cam.interactiveWith. now rewrite Hint.
Qed.

(** X21. Before the component is ready, or without a canvas, the
    lifecycle effect invokes no mount callback and its cleanup no unmount
    callback.  Once ready, the effect invokes the mount callback of every
    layer of the view that has one, in the order of the view and up to
    the first that throws; hidden layers are mounted like the others. *)
Theorem mount_effect_reaches_every_layer
    (env : Cam.RenderEnv) (layers : list Layer) :
  let view := UseLayer.sortedLayers layers in
  (Cam.isReady env = false \/ Cam.canvasMounted env = false ->
   Cam.mountLayers env view = ([], Some tt) /\
   Cam.unmountLayers env view = ([], Some tt)) /\
  (Cam.isReady env = true -> Cam.canvasMounted env = true ->
   trace (Cam.mountLayers env view)
     = Calls.untilThrow (flat_map Observe.mountCalls view) /\
   (Calls.allReturn (flat_map Observe.mountCalls view) = true ->
    forall l cb, In l layers -> onMount l = Some cb ->
                 In (EvLayerOnMount (id l)) (trace (Cam.mountLayers env view)))).
Proof.
  intro view. split.
  - unfold Cam.mountLayers, Cam.unmountLayers.
    intros [-> | ->]; [| rewrite orb_true_r]; split; reflexivity.
  - intros Hr Hc.
    assert (Htrace : trace (Cam.mountLayers env view)
                     = Calls.untilThrow (flat_map Observe.mountCalls view)).
    { rewrite mountLayers_calls by assumption. apply trace_runCalls. }
    split; [exact Htrace |].
    intros Hret l cb Hin Hcb.
    rewrite Htrace, (untilThrow_allReturn _ Hret).
    apply (slot_event_called (fun l => EvLayerOnMount (id l)) onMount view l cb).
    + eapply Permutation_in; [apply arraySort_perm | exact Hin].
    + exact Hcb.
Qed.

(** ** Camera errors (errorHandling.ts, useCamera.ts) *)

Section CameraErrors.

Import ErrorHandling.

Local Open Scope string_scope.

Lemma truthy_name (e : JsError) (n : string) :
  name e = Some n -> n <> "" -> truthy (name e) = true.
Proof.
  intros -> Hn. simpl. apply negb_true_iff. now apply String.eqb_neq.
Qed.

Lemma nameIs_eqb (e : JsError) (n m : string) :
  name e = Some n -> nameIs e m = String.eqb n m.
Proof. unfold nameIs. now intros ->. Qed.

End CameraErrors.

(** X22. For a thrown value with a non-empty name, [handleCameraError]
    and the error path of [startCamera] give the same error type, which is
    never [detection], and the same message for each of the eight names
    that [startCamera] knows; the thrown value is kept as the details. *)
Theorem handleCameraError_agrees_with_startCamera
    (e : ErrorHandling.JsError) (n : string)
    (Hname : ErrorHandling.name e = Some n) (Hn : n <> ""%string) :
  let c := ErrorHandling.handleCameraError (Some e) in
  ErrorHandling.type c
    = ErrorHandling.type (ErrorHandling.startCameraError e) /\
  ErrorHandling.type c <> ErrorHandling.detection /\
  ErrorHandling.details c = Some e /\
  (In n ErrorHandling.knownNames ->
   ErrorHandling.errorMessage c
   = ErrorHandling.errorMessage (ErrorHandling.startCameraError e)).
Proof.
  intro c. subst c.
  unfold ErrorHandling.handleCameraError, ErrorHandling.startCameraError.
  rewrite (truthy_name e n Hname Hn), orb_true_r.
  rewrite !(nameIs_eqb e n _ Hname).
  destruct (String.eqb_spec n "NotAllowedError") as [-> | N1];
    [simpl; repeat split; discriminate |].
  destruct (String.eqb_spec n "PermissionDeniedError") as [-> | N2];
    [simpl; repeat split; discriminate |].
  destruct (String.eqb_spec n "NotFoundError") as [-> | N3];
    [simpl; repeat split; discriminate |].
  destruct (String.eqb_spec n "DevicesNotFoundError") as [-> | N4];
    [simpl; repeat split; discriminate |].
  destruct (String.eqb_spec n "NotReadableError") as [-> | N5];
    [simpl; repeat split; discriminate |].
  destruct (String.eqb_spec n "TrackStartError") as [-> | N6];
    [simpl; repeat split; discriminate |].
  destruct (String.eqb_spec n "OverconstrainedError") as [-> | N7];
    [simpl; repeat split; discriminate |].
  destruct (String.eqb_spec n "ConstraintNotSatisfiedError") as [-> | N8];
    [simpl; repeat split; discriminate |].
  cbn [orb].
  assert (Hout : ~ In n ErrorHandling.knownNames).
  { unfold ErrorHandling.knownNames. simpl. intuition congruence. }
  destruct (String.eqb n "TypeError"); simpl;
    (split; [reflexivity |]); (split; [discriminate |]);
    (split; [reflexivity |]); intro Hin; contradiction.
Qed.

(** X23. A [CameraError] record held by [useCamera] is not recognised by
    [handleCameraError], to which the component passes it: whatever type
    and message [useCamera] gave it, the result has type [stream] and the
    message "An unexpected error occurred", with the record as details,
    and so counts as recoverable. *)
Theorem camera_error_record_is_reclassified_as_stream
    (c : ErrorHandling.CameraError)
    (Hc : ErrorHandling.fromUseCamera c) :
  ErrorHandling.handleCameraError (Some (ErrorHandling.asValue c))
  = {| ErrorHandling.type := ErrorHandling.stream;
       ErrorHandling.errorMessage := "An unexpected error occurred";
       ErrorHandling.details := Some (ErrorHandling.asValue c) |} /\
  ErrorHandling.isRecoverableError
    (ErrorHandling.handleCameraError (Some (ErrorHandling.asValue c))) = true.
Proof.
  destruct Hc as [err | err | err].
  - unfold ErrorHandling.startCameraError.
    destruct (ErrorHandling.nameIs err "NotAllowedError"
              || ErrorHandling.nameIs err "PermissionDeniedError")%bool;
      [split; reflexivity |].
    destruct (ErrorHandling.nameIs err "NotFoundError"
              || ErrorHandling.nameIs err "DevicesNotFoundError")%bool;
      [split; reflexivity |].
    destruct (ErrorHandling.nameIs err "NotReadableError"
              || ErrorHandling.nameIs err "TrackStartError")%bool;
      [split; reflexivity |].
    destruct (ErrorHandling.nameIs err "OverconstrainedError"
              || ErrorHandling.nameIs err "ConstraintNotSatisfiedError")%bool;
      split; reflexivity.
  - split; reflexivity.
  - split; reflexivity.
Qed.

(** X24. For a thrown value with a non-empty name, the result of
    [handleCameraError] is unrecoverable exactly for the two
    permission names, and the advice of [getErrorRecoveryAction] follows
    the name: grant permission for those two, close other applications
    for a camera in use, connect a camera for a missing device, and
    different settings for constraints that cannot be met or are invalid. *)
Theorem recovery_advice_follows_the_error_name
    (e : ErrorHandling.JsError) (n : string)
    (Hname : ErrorHandling.name e = Some n) (Hn : n <> ""%string) :
  let c := ErrorHandling.handleCameraError (Some e) in
  (ErrorHandling.isRecoverableError c = false <->
   n = "NotAllowedError"%string \/ n = "PermissionDeniedError"%string) /\
  (n = "NotAllowedError"%string \/ n = "PermissionDeniedError"%string ->
   ErrorHandling.getErrorRecoveryAction c
   = "Please grant camera permission in your browser settings and refresh the page."%string) /\
  (n = "NotFoundError"%string \/ n = "DevicesNotFoundError"%string ->
   ErrorHandling.getErrorRecoveryAction c
   = "Please ensure a camera is connected and try again."%string) /\
  (n = "NotReadableError"%string \/ n = "TrackStartError"%string ->
   ErrorHandling.getErrorRecoveryAction c
   = "Please close other applications using the camera and try again."%string) /\
  (n = "OverconstrainedError"%string \/
   n = "ConstraintNotSatisfiedError"%string \/ n = "TypeError"%string ->
   ErrorHandling.getErrorRecoveryAction c
   = "Trying with different camera settings..."%string).
Proof.
  intro c. subst c.
  unfold ErrorHandling.handleCameraError.
  rewrite (truthy_name e n Hname Hn), orb_true_r.
  rewrite !(nameIs_eqb e n _ Hname).
  destruct (String.eqb_spec n "NotAllowedError") as [-> | N1].
  { simpl. repeat split; auto; intros; intuition discriminate. }
  destruct (String.eqb_spec n "PermissionDeniedError") as [-> | N2].
  { simpl. repeat split; auto; intros; intuition discriminate. }
  destruct (String.eqb_spec n "NotFoundError") as [-> | N3].
  { simpl. repeat split; auto; intros; intuition discriminate. }
  destruct (String.eqb_spec n "DevicesNotFoundError") as [-> | N4].
  { simpl. repeat split; auto; intros; intuition discriminate. }
  destruct (String.eqb_spec n "NotReadableError") as [-> | N5].
  { simpl. repeat split; auto; intros; intuition discriminate. }
  destruct (String.eqb_spec n "TrackStartError") as [-> | N6].
  { simpl. repeat split; auto; intros; intuition discriminate. }
  destruct (String.eqb_spec n "OverconstrainedError") as [-> | N7].
  { simpl. repeat split; auto; intros; intuition discriminate. }
  destruct (String.eqb_spec n "ConstraintNotSatisfiedError") as [-> | N8].
  { simpl. repeat split; auto; intros; intuition discriminate. }
  destruct (String.eqb_spec n "TypeError") as [-> | N9].
  { simpl. repeat split; auto; intros; intuition discriminate. }
  cbn [orb ErrorHandling.isRecoverableError ErrorHandling.type].
  repeat split; intros; try discriminate; intuition congruence.
Qed.

(** ** Switching cameras (useCamera.ts) *)

Section NextCamera.

Import UseCamera.

Lemma findIndexFrom_absent (id : string) (devices : list MediaDeviceInfo) :
  forall k, ~ In id (map deviceId devices) ->
  findIndexFrom id devices k = (-1)%Z.
Proof.
  induction devices as [| d devices IH]; intros k H; [reflexivity |].
  simpl in *. destruct (String.eqb_spec (deviceId d) id) as [E | _].
  - elim H. now left.
  - apply IH. tauto.
Qed.

Lemma findIndexFrom_position (devices : list MediaDeviceInfo) :
  forall k i c,
  NoDup (map deviceId devices) -> nth_error devices i = Some c ->
  findIndexFrom (deviceId c) devices k = (k + Z.of_nat i)%Z.
Proof.
  induction devices as [| d devices IH]; intros k i c Hnd Hnth.
  - destruct i; discriminate.
  - simpl in Hnd. inversion Hnd as [| ? ? Hnotin Hnd']; subst.
    destruct i as [| i]; simpl in *.
    + injection Hnth as ->. rewrite String.eqb_refl. lia.
    + destruct (String.eqb_spec (deviceId d) (deviceId c)) as [E | _].
      * elim Hnotin. rewrite E. apply in_map. eapply nth_error_In; eauto.
      * rewrite (IH (k + 1)%Z i c Hnd' Hnth). lia.
Qed.

Lemma findIndexFrom_range (id : string) (devices : list MediaDeviceInfo) :
  forall k, (0 <= k)%Z ->
  (-1 <= findIndexFrom id devices k < k + Z.of_nat (List.length devices))%Z.
Proof.
  induction devices as [| d devices IH]; intros k Hk; simpl; [lia |].
  destruct (String.eqb (deviceId d) id); [lia |].
  specialize (IH (k + 1)%Z). lia.
Qed.

End NextCamera.

(** X25. [switchCamera] does not switch with fewer than two cameras.
    With two or more it always picks a camera of the list: the first one
    when no current camera is known or the current one is not in the
    list, and otherwise, the device ids being distinct, the camera after
    the current one, going round from the last to the first; so the
    camera chosen differs from the current one. *)
Theorem switchCamera_goes_round_the_list
    (devices : list UseCamera.MediaDeviceInfo)
    (current : option UseCamera.MediaDeviceInfo) :
  let n := List.length devices in
  ((n < 2)%nat -> UseCamera.nextDevice devices current = None) /\
  ((2 <= n)%nat ->
   (exists d, UseCamera.nextDevice devices current = Some d /\ In d devices) /\
   UseCamera.nextDevice devices None = nth_error devices 0 /\
   (forall c, ~ In (UseCamera.deviceId c) (map UseCamera.deviceId devices) ->
              UseCamera.nextDevice devices (Some c) = nth_error devices 0) /\
   (NoDup (map UseCamera.deviceId devices) ->
    forall i c, nth_error devices i = Some c ->
      UseCamera.nextDevice devices (Some c)
        = nth_error devices ((i + 1) mod n) /\
      UseCamera.nextDevice devices (Some c) <> Some c)).
Proof.
  intro n. subst n. unfold UseCamera.nextDevice. split.
  - intro H. assert (E : (Z.of_nat (List.length devices) <? 2)%Z = true)
      by (apply Z.ltb_lt; lia).
    now rewrite E.
  - intro H. assert (E : (Z.of_nat (List.length devices) <? 2)%Z = false)
      by (apply Z.ltb_ge; lia).
    rewrite E.
    assert (Hfirst : nth_error devices (Z.to_nat
                       (Z.rem (-1 + 1) (Z.of_nat (List.length devices))))
                     = nth_error devices 0).
    { rewrite Z.rem_0_l by lia. reflexivity. }
    split; [| split; [exact Hfirst | split]].
    + set (idx := match current with
                  | Some c => UseCamera.findIndex (UseCamera.deviceId c) devices
                  | None => (-1)%Z
                  end).
      assert (Hidx : (-1 <= idx < Z.of_nat (List.length devices))%Z).
      { subst idx. destruct current as [c |]; [| lia].
        pose proof (findIndexFrom_range (UseCamera.deviceId c) devices 0).
        unfold UseCamera.findIndex. lia. }
      assert (Hlt : (Z.to_nat (Z.rem (idx + 1)
                       (Z.of_nat (List.length devices)))
                     < List.length devices)%nat).
      { rewrite Z.rem_mod_nonneg by lia.
        pose proof (Z.mod_pos_bound (idx + 1)
                      (Z.of_nat (List.length devices))). lia. }
      apply nth_error_Some in Hlt.
      destruct (nth_error devices
                  (Z.to_nat (Z.rem (idx + 1) (Z.of_nat (List.length devices)))))
        as [d |] eqn:Ed; [| now elim Hlt].
      exists d. split; [reflexivity |]. eapply nth_error_In; eauto.
    + intros c Hout. unfold UseCamera.findIndex.
      rewrite findIndexFrom_absent by assumption. exact Hfirst.
    + intros Hnd i c Hnth. unfold UseCamera.findIndex.
      rewrite (findIndexFrom_position devices 0 i c Hnd Hnth).
      assert (Hi : (i < List.length devices)%nat)
        by (apply nth_error_Some; congruence).
      assert (Eidx : Z.to_nat (Z.rem (0 + Z.of_nat i + 1)
                        (Z.of_nat (List.length devices)))
                     = ((i + 1) mod List.length devices)%nat).
      { rewrite Z.rem_mod_nonneg by lia.
        replace (0 + Z.of_nat i + 1)%Z with (Z.of_nat (i + 1)) by lia.
        rewrite <- Nat2Z.inj_mod. apply Nat2Z.id. }
      rewrite Eidx. split; [reflexivity |].
      intro Hsame.
      assert (Hj : ((i + 1) mod List.length devices < List.length devices)%nat)
        by (apply Nat.mod_upper_bound; lia).
      assert (Hneq : (i + 1) mod List.length devices <> i).
      { destruct (Nat.eq_dec (i + 1) (List.length devices)) as [El | Nl].
        - rewrite El, Nat.Div0.mod_same. lia.
        - rewrite Nat.mod_small by lia. lia. }
      apply Hneq.
      apply (proj1 (NoDup_nth_error (map UseCamera.deviceId devices)) Hnd).
      * now rewrite length_map.
      * rewrite !nth_error_map, Hsame, Hnth. reflexivity.
Qed.

(** ** Constraints (constraints.ts) *)

Section ConstraintFacts.

Import Constraints.

Lemma assignKey_empty_l {V} (s : slot V) : assignKey None s = s.
Proof. now destruct s. Qed.

Lemma assignKey_assoc {V} (a b c : slot V) :
  assignKey (assignKey a b) c = assignKey a (assignKey b c).
Proof. now destruct c. Qed.

Lemma assign_empty_l (c : MediaTrackConstraints) : assign emptyConstraints c = c.
Proof.
  destruct c. unfold assign. simpl. now rewrite !assignKey_empty_l.
Qed.

Lemma assign_empty_r (c : MediaTrackConstraints) : assign c emptyConstraints = c.
Proof. now destruct c. Qed.

Lemma assign_assoc (a b c : MediaTrackConstraints) :
  assign (assign a b) c = assign a (assign b c).
Proof. unfold assign. simpl. now rewrite !assignKey_assoc. Qed.

Lemma combineFrom_assign (combined : MediaTrackConstraints)
    (cs : list (option MediaTrackConstraints)) :
  combineFrom combined cs = assign combined (combineConstraints cs).
Proof.
  unfold combineConstraints. revert combined.
  induction cs as [| [c |] cs IH]; intro combined; simpl.
  - now rewrite assign_empty_r.
  - rewrite IH, (IH (assign emptyConstraints c)), assign_empty_l.
    apply assign_assoc.
  - apply IH.
Qed.

Lemma combineFrom_app (combined : MediaTrackConstraints)
    (cs1 cs2 : list (option MediaTrackConstraints)) :
  combineFrom combined (cs1 ++ cs2) = combineFrom (combineFrom combined cs1) cs2.
Proof.
  revert combined. induction cs1 as [| [c |] cs1 IH]; intro combined; simpl;
    auto.
Qed.

End ConstraintFacts.

(** X26. Every quality preset, the mobile constraints, and the video
    constraints the component builds from a quality, a facing mode and an
    optional device id pass [validateConstraints] without an error; the
    presets [auto] and [medium], and a missing quality, give the same
    constraints; and of the device id and the facing mode the component
    defines exactly one. *)
Theorem built_constraints_are_valid
    (quality : Constraints.Quality) (mode : Constraints.FacingMode)
    (device : option string) (id : string) :
  Constraints.validateConstraints
    (Constraints.getQualityConstraints (Some quality)) = (true, []) /\
  Constraints.validateConstraints Constraints.getMobileConstraints
    = (true, []) /\
  Constraints.validateConstraints
    (CamConstraints.videoConstraints device mode quality) = (true, []) /\
  Constraints.validateConstraints
    (Constraints.getConstraintsWithFacingMode mode
       (Some (Constraints.getConstraintsWithDeviceId id
                (Some (Constraints.getQualityConstraints (Some quality))))))
    = (true, []) /\
  Constraints.getQualityConstraints (Some Constraints.auto)
    = Constraints.getQualityConstraints (Some Constraints.medium) /\
  Constraints.getQualityConstraints None
    = Constraints.getQualityConstraints (Some Constraints.medium) /\
  (Constraints.deviceId (CamConstraints.videoConstraints device mode quality)
     = Some None <->
   Constraints.facingMode (CamConstraints.videoConstraints device mode quality)
     <> Some None).
Proof.
  split; [destruct quality; vm_compute; reflexivity |].
  split; [vm_compute; reflexivity |].
  split; [destruct quality, mode, device; vm_compute; reflexivity |].
  split; [destruct quality, mode; vm_compute; reflexivity |].
  split; [reflexivity |]. split; [reflexivity |].
  destruct device; simpl; split; intro H; try discriminate; auto.
  now elim H.
Qed.

(** X27. [combineConstraints] gives each property the value of the last
    argument that has the property, even when that value is [undefined];
    arguments that are [undefined] are skipped.  Combining two argument
    lists one after the other is assigning the combination of the second
    onto the combination of the first, and [getConstraintsWithDeviceId]
    is the combination of the base with a device id alone. *)
Theorem combineConstraints_last_argument_wins
    (cs1 cs2 : list (option Constraints.MediaTrackConstraints))
    (c : Constraints.MediaTrackConstraints) (id : string)
    (base : option Constraints.MediaTrackConstraints) :
  Constraints.combineConstraints [] = Constraints.emptyConstraints /\
  Constraints.combineConstraints (cs1 ++ cs2)
    = Constraints.assign (Constraints.combineConstraints cs1)
                         (Constraints.combineConstraints cs2) /\
  Constraints.combineConstraints (cs1 ++ [None])
    = Constraints.combineConstraints cs1 /\
  (let r := Constraints.combineConstraints (cs1 ++ [Some c]) in
   Constraints.width r
     = match Constraints.width c with
       | Some v => Some v
       | None => Constraints.width (Constraints.combineConstraints cs1)
       end /\
   Constraints.deviceId r
     = match Constraints.deviceId c with
       | Some v => Some v
       | None => Constraints.deviceId (Constraints.combineConstraints cs1)
       end /\
   Constraints.facingMode r
     = match Constraints.facingMode c with
       | Some v => Some v
       | None => Constraints.facingMode (Constraints.combineConstraints cs1)
       end) /\
  Constraints.getConstraintsWithDeviceId id base
    = Constraints.combineConstraints
        [base;
         Some (Constraints.getConstraintsWithDeviceId id None)].
Proof.
  assert (Happ : forall l1 l2,
            Constraints.combineConstraints (l1 ++ l2)
            = Constraints.assign (Constraints.combineConstraints l1)
                                 (Constraints.combineConstraints l2)).
  { intros l1 l2. unfold Constraints.combineConstraints at 1.
    rewrite combineFrom_app, combineFrom_assign. reflexivity. }
  split; [reflexivity |]. split; [apply Happ |].
  split; [rewrite Happ; apply assign_empty_r |].
  split.
  - cbv zeta. rewrite Happ.
    change (Constraints.combineConstraints [Some c])
      with (Constraints.assign Constraints.emptyConstraints c).
    rewrite assign_empty_l. repeat split.
  - destruct base as [b |]; [| reflexivity].
    unfold Constraints.combineConstraints. cbn [Constraints.combineFrom].
    rewrite assign_empty_l. destruct b. reflexivity.
Qed.

(** X28. What the verdict of [validateConstraints] means for an object
    whose width, height and frame rate are ranges and whose facing mode is
    a string: it is valid exactly when, for each of width, height and
    frame rate, min is not greater than max whenever both are given and
    not 0; for width and height, exact is not combined with a min or max
    (0 counting as not given); the ideal frame rate, if given and not 0,
    is at least 1; and the facing mode, if not empty, is one of user,
    environment, left, right. *)
Theorem validateConstraints_verdict
    (w h f : Range.ConstrainRange) (mode : string) :
  let constraints :=
    {| Constraints.width := Some (Some (Constraints.NumRange w));
       Constraints.height := Some (Some (Constraints.NumRange h));
       Constraints.frameRate := Some (Some (Constraints.NumRange f));
       Constraints.aspectRatio := None;
       Constraints.facingMode :=
         Some (Some (Constraints.StrValue (DOMString.One mode)));
       Constraints.deviceId := None;
       Constraints.resizeMode := None |} in
  let consistent (r : Range.ConstrainRange) :=
    forall lo hi, Range.min r = Some lo -> Range.max r = Some hi ->
                  ~ lo == 0 -> ~ hi == 0 -> lo <= hi in
  let notOverdetermined (r : Range.ConstrainRange) :=
    forall e, Range.exact r = Some e -> ~ e == 0 ->
              Constraints.truthyNum (Range.min r) = false /\
              Constraints.truthyNum (Range.max r) = false in
  fst (Constraints.validateConstraints constraints) = true <->
  (consistent w /\ notOverdetermined w) /\
  (consistent h /\ notOverdetermined h) /\
  (consistent f /\
   forall i, Range.ideal f = Some i -> ~ i == 0 -> 1 <= i) /\
  (mode = ""%string \/ In mode Constraints.validModes).
Proof.
  intros constraints consistent notOverdetermined.
  assert (Hmm : forall what r,
            Constraints.minMaxError what r = [] <-> consistent r).
  { intros what r. unfold Constraints.minMaxError, consistent.
    destruct r as [lo hi e i]. cbn [Range.min Range.max].
    destruct lo as [lo |];
      [| split; [intros _ ? ? ?; discriminate | reflexivity]].
    destruct hi as [hi |];
      [| split; [intros _ ? ? _ ?; discriminate
                | cbn; now rewrite andb_false_r]].
    cbn [Constraints.truthyNum Constraints.greater].
    destruct (Qeq_bool lo 0) eqn:E1; cbn [negb andb].
    { apply Qeq_bool_iff in E1. split; [| reflexivity].
      intros _ ? ? [= <-] [= <-] H. now elim H. }
    destruct (Qeq_bool hi 0) eqn:E2; cbn [negb andb].
    { apply Qeq_bool_iff in E2. split; [| reflexivity].
      intros _ ? ? [= <-] [= <-] _ H. now elim H. }
    apply Qeq_bool_false in E1. apply Qeq_bool_false in E2.
    destruct (Qltb hi lo) eqn:E3.
    - apply Qltb_true in E3. split; [discriminate |].
      intro H. specialize (H lo hi eq_refl eq_refl E1 E2). lra.
    - apply Qltb_false in E3. split; [| reflexivity].
      intros _ ? ? [= <-] [= <-] _ _. exact E3. }
  assert (Hex : forall what r,
            Constraints.exactError what r = [] <-> notOverdetermined r).
  { intros what r. unfold Constraints.exactError, notOverdetermined.
    destruct r as [lo hi e i]. cbn [Range.min Range.max Range.exact].
    destruct e as [e |];
      [| split; [intros _ ? ?; discriminate | reflexivity]].
    cbn [Constraints.truthyNum].
    destruct (Qeq_bool e 0) eqn:E1; cbn [negb andb].
    { apply Qeq_bool_iff in E1. split; [| reflexivity].
      intros _ ? [= <-] H. now elim H. }
    apply Qeq_bool_false in E1.
    fold (Constraints.truthyNum lo). fold (Constraints.truthyNum hi).
    destruct (Constraints.truthyNum lo) eqn:Elo;
      destruct (Constraints.truthyNum hi) eqn:Ehi; cbn [orb];
      split; try discriminate; try reflexivity;
      try (intro H; destruct (H e eq_refl E1); discriminate).
    intros _ ? _ _. split; reflexivity. }
  assert (Hid : Constraints.idealError f = [] <->
                forall i, Range.ideal f = Some i -> ~ i == 0 -> 1 <= i).
  { unfold Constraints.idealError.
    destruct f as [lo hi e i]. cbn [Range.ideal].
    destruct i as [i |];
      [| split; [intros _ ? ?; discriminate | reflexivity]].
    cbn [Constraints.truthyNum Constraints.lessThan].
    destruct (Qeq_bool i 0) eqn:E1; cbn [negb andb].
    { apply Qeq_bool_iff in E1. split; [| reflexivity].
      intros _ ? [= <-] H. now elim H. }
    apply Qeq_bool_false in E1.
    destruct (Qltb i 1) eqn:E2.
    - apply Qltb_true in E2. split; [discriminate |].
      intro H. specialize (H i eq_refl E1). lra.
    - apply Qltb_false in E2. split; [| reflexivity].
      intros _ ? [= <-] _. exact E2. }
  assert (Hfm : Constraints.facingModeErrors
                  (Some (Some (Constraints.StrValue (DOMString.One mode)))) = []
                <-> (mode = ""%string \/ In mode Constraints.validModes)).
  { simpl. destruct (String.eqb_spec mode "") as [-> | Hne].
    - split; [now left | reflexivity].
    - unfold Constraints.isValidMode.
      destruct (existsb (String.eqb mode) Constraints.validModes) eqn:E.
      + split; [| reflexivity]. intros _. right.
        apply existsb_exists in E as (m & Hin & Em).
        apply String.eqb_eq in Em. now subst.
      + split; [discriminate |]. intros [-> | Hin]; [now elim Hne |].
        assert (Ht : existsb (String.eqb mode) Constraints.validModes = true)
          by (apply existsb_exists; exists mode; split;
              [exact Hin | apply String.eqb_refl]).
        congruence. }
  unfold Constraints.validateConstraints. subst constraints. cbn [fst
    Constraints.width Constraints.height Constraints.frameRate
    Constraints.facingMode].
  unfold Constraints.sizeErrors, Constraints.frameRateErrors.
  cbn [Constraints.asRange].
  rewrite <- (Hmm "Width"%string w), <- (Hex "Width"%string w),
          <- (Hmm "Height"%string h), <- (Hex "Height"%string h),
          <- (Hmm "FrameRate"%string f), <- Hid, <- Hfm.
  set (e1 := Constraints.minMaxError _ w). set (e2 := Constraints.exactError _ w).
  set (e3 := Constraints.minMaxError _ h). set (e4 := Constraints.exactError _ h).
  set (e5 := Constraints.minMaxError _ f). set (e6 := Constraints.idealError f).
  set (e7 := Constraints.facingModeErrors _).
  split.
  - intro H.
    destruct ((e1 ++ e2) ++ (e3 ++ e4) ++ (e5 ++ e6) ++ e7) eqn:E;
      [| discriminate].
    apply app_eq_nil in E as [E12 E]. apply app_eq_nil in E12 as [-> ->].
    apply app_eq_nil in E as [E34 E]. apply app_eq_nil in E34 as [-> ->].
    apply app_eq_nil in E as [E56 ->]. apply app_eq_nil in E56 as [-> ->].
    repeat split; reflexivity.
  - intros ((-> & ->) & (-> & ->) & (-> & ->) & ->). reflexivity.
Qed.

(** ** Scenarios of the further properties *)



(** Two layers that return: the tick completes and asks for the next
    frame. *)
Lemma completed_tick_scenario :
  let layers := [Samples.drawingLayer "A" 1 Returns Returns;
                 Samples.drawingLayer "B" 2 Returns Returns] in
  let refs := {| Cam.lastFrameTime := Fin 0; Cam.frameCounter := 0 |} in
  (Calls.sourceReady Samples.readyEnv = true /\
   Calls.frameDue (Samples.noProps 20) 100 refs = true) /\
  completed (snd (Cam.processFrame (Samples.noProps 20) Samples.readyEnv
                    (UseLayer.sortedLayers layers) 100 refs))
  = Calls.allReturn (Observe.layerSequence layers)
    && Observe.returns (CamProps.onFrame (Samples.noProps 20)).
Proof.
  intros layers refs.
  assert (Hready : Calls.sourceReady Samples.readyEnv = true)
    by reflexivity.
  assert (Hdue : Calls.frameDue (Samples.noProps 20) 100 refs = true)
    by (vm_compute; reflexivity).
  split; [split; assumption |].
  exact (proj1 (tick_reaches_observer_and_next_request
                  (Samples.noProps 20) Samples.readyEnv layers 100 refs
                  Hready Hdue)).
Defined.

(** Two drawing layers that return: two saves, two restores. *)
Lemma paired_saves_scenario :
  let layers := [Samples.drawingLayer "A" 1 Returns Returns;
                 Samples.drawingLayer "B" 2 Returns Returns] in
  let refs := {| Cam.lastFrameTime := Fin 0; Cam.frameCounter := 0 |} in
  let t := trace (snd (Cam.processFrame (Samples.noProps 20) Samples.readyEnv
                         (UseLayer.sortedLayers layers) 100 refs)) in
  (Calls.sourceReady Samples.readyEnv = true /\
   Calls.frameDue (Samples.noProps 20) 100 refs = true) /\
  Observe.occurrences Observe.isSave t
    = Observe.occurrences Observe.isRestore t /\
  Observe.occurrences Observe.isSave t
    = List.length (Observe.drawingLayers layers).
Proof.
  intros layers refs t.
  assert (Hready : Calls.sourceReady Samples.readyEnv = true)
    by reflexivity.
  assert (Hdue : Calls.frameDue (Samples.noProps 20) 100 refs = true)
    by (vm_compute; reflexivity).
  split; [split; assumption |].
  destruct (context_saves_and_restores_are_paired
              (Samples.noProps 20) Samples.readyEnv layers 100 refs
              Hready Hdue) as (_ & Hall).
  apply Hall. reflexivity.
Defined.

(** A [NotFoundError] is a device error for both classifiers. *)
Lemma not_found_scenario :
  let e := {| ErrorHandling.isDOMException := true;
              ErrorHandling.isError := true;
              ErrorHandling.name := Some "NotFoundError"%string;
              ErrorHandling.message := Some "Requested device not found"%string |} in
  (ErrorHandling.name e = Some "NotFoundError"%string /\
   "NotFoundError"%string <> ""%string) /\
  ErrorHandling.type (ErrorHandling.handleCameraError (Some e))
  = ErrorHandling.type (ErrorHandling.startCameraError e).
Proof.
  intro e.
  assert (Hname : ErrorHandling.name e = Some "NotFoundError"%string)
    by reflexivity.
  assert (Hn : "NotFoundError"%string <> ""%string) by discriminate.
  split; [split; assumption |].
  exact (proj1 (handleCameraError_agrees_with_startCamera
                  e "NotFoundError"%string Hname Hn)).
Defined.

(** The record of a denied permission, handed on to [handleCameraError],
    comes back as a stream error. *)
Lemma reclassified_permission_scenario :
  let denied := {| ErrorHandling.isDOMException := true;
                   ErrorHandling.isError := true;
                   ErrorHandling.name := Some "NotAllowedError"%string;
                   ErrorHandling.message := Some "Permission denied"%string |} in
  let stored := ErrorHandling.startCameraError denied in
  ErrorHandling.fromUseCamera stored /\
  ErrorHandling.type stored = ErrorHandling.permission /\
  ErrorHandling.type
    (ErrorHandling.handleCameraError (Some (ErrorHandling.asValue stored)))
  = ErrorHandling.stream.
Proof.
  intros denied stored.
  assert (Hc : ErrorHandling.fromUseCamera stored)
    by apply ErrorHandling.from_startCamera.
  split; [exact Hc |]. split; [reflexivity |].
  rewrite (proj1 (camera_error_record_is_reclassified_as_stream stored Hc)).
  reflexivity.
Defined.

(** A denied permission is not recoverable. *)
Lemma denied_permission_scenario :
  let e := {| ErrorHandling.isDOMException := true;
              ErrorHandling.isError := true;
              ErrorHandling.name := Some "NotAllowedError"%string;
              ErrorHandling.message := Some "Permission denied"%string |} in
  (ErrorHandling.name e = Some "NotAllowedError"%string /\
   "NotAllowedError"%string <> ""%string) /\
  ErrorHandling.isRecoverableError
    (ErrorHandling.handleCameraError (Some e)) = false.
Proof.
  intro e.
  assert (Hname : ErrorHandling.name e = Some "NotAllowedError"%string)
    by reflexivity.
  assert (Hn : "NotAllowedError"%string <> ""%string) by discriminate.
  split; [split; assumption |].
  destruct (recovery_advice_follows_the_error_name
              e "NotAllowedError"%string Hname Hn) as (Hrec & _).
  apply Hrec. left. reflexivity.
Defined.
